(** * tlm_adjoint: the adjoint right-hand-side hierarchy, the transpose
    computational graph and the adjoint cache of [tlm_adjoint/adjoint.py].

    The development follows the layout of the Python module: the interface
    layer the module imports, then [AdjointRHS], [AdjointEquationRHS],
    [AdjointBlockRHS], [AdjointModelRHS], [TransposeComputationalGraph] and
    [AdjointCache].  Python objects that are mutated in place are threaded
    explicitly; variables (which are shared by reference) live in a store
    and are named by their address. *)

From Stdlib Require Import ZArith Lia.
From stdpp Require Import gmap list sorting.

(** ** Python outcomes *)

(** A call either returns a value or raises.  State changes made before a
    [raise] persist, so methods return the outcome next to the new state. *)
Inductive outcome (A : Type) : Type :=
  | Return (a : A)
  | Raise.
Arguments Return {A} a.
Arguments Raise {A}.

(** ** Interface layer

    [adjoint.py] reaches variables only through the functions it imports
    from the interface module: [var_id], [var_space], [var_space_type],
    [space_new], [var_copy] and [subtract_adjoint_derivative_action].  These
    dispatch to the numerical backend; what follows is their contract. *)

Inductive space_type : Type := Primal | Conjugate | Dual | Conjugate_dual.

Global Instance space_type_eq_dec : EqDecision space_type.
Proof. solve_decision. Defined.

Definition conjugate_space_type (s : space_type) : space_type :=
  match s with
  | Primal => Conjugate
  | Conjugate => Primal
  | Dual => Conjugate_dual
  | Conjugate_dual => Dual
  end.

Definition dual_space_type (s : space_type) : space_type :=
  match s with
  | Primal => Dual
  | Conjugate => Conjugate_dual
  | Dual => Primal
  | Conjugate_dual => Conjugate
  end.

Definition conjugate_dual_space_type (s : space_type) : space_type :=
  conjugate_space_type (dual_space_type s).

(** Modelled from the spec: the relative space type comparison of the
    Variable contract (primal / dual / conjugate / conjugate_dual), which
    [var_space_type] applies to the space type of a variable. *)
Definition relative_space_type (s rel_space_type : space_type) : space_type :=
  match rel_space_type with
  | Primal => s
  | Conjugate => conjugate_space_type s
  | Dual => dual_space_type s
  | Conjugate_dual => conjugate_dual_space_type s
  end.

(** Modelled from the spec: a Variable as the engine sees it, owned
    externally and known by its unique id, its space and its space type;
    [var_tlm_root_id] is the optional attribute [_tlm_adjoint__tlm_root_id]
    that [AdjointCache.initialize] reads with [getattr]. *)
Record variable : Type := Build_variable {
  var_id : Z;
  var_space : Z;
  var_own_space_type : space_type;
  var_tlm_root_id : option Z
}.

Definition var_space_type (x : variable) (rel_space_type : space_type) :
    space_type :=
  relative_space_type (var_own_space_type x) rel_space_type.

(** The numerical backend: the values a variable stores, the terms that can
    be subtracted from it, the zero of a space, and the action of
    [subtract_adjoint_derivative_action] on values ([None] when it raises). *)
Class Backend : Type := {
  values : Type;
  term : Type;
  space_zero : Z → values;
  subtract_values : values → term → option values
}.

(** Modelled from the spec: a variable object in memory, with the space and
    space type it was created with and the values it stores. *)
Record var_obj `{Backend} : Type := Build_var_obj {
  obj_space : Z;
  obj_space_type : space_type;
  obj_values : values
}.

(** The store of variable objects.  An object is named by its address,
    the position at which it was allocated; two references denote the same
    object exactly when the addresses are equal. *)
Abbreviation store := (list var_obj).
Abbreviation ref := nat.

Section Store.
Context `{Backend}.

Definition alloc (o : var_obj) (h : store) : ref * store :=
  (length h, h ++ [o]).

(** [space_new(space, space_type=...)]: a new variable, with zero value. *)
Definition space_new (space : Z) (st : space_type) (h : store) :
    ref * store :=
  alloc {| obj_space := space; obj_space_type := st;
           obj_values := space_zero space |} h.

(** Modelled from the spec: [var_copy], the [copy()] of the Variable
    contract: a new variable with the value of the given one. *)
Definition var_copy (r : ref) (h : store) : option (ref * store) :=
  match h !! r with
  | Some o => Some (alloc o h)
  | None => None
  end.

(** [subtract_adjoint_derivative_action(x, y)] for a term [y] other than
    [None]: the value of [x] is updated in place, or the call raises. *)
Definition subtract_adjoint_derivative_action (r : ref) (y : term)
    (h : store) : option store :=
  match h !! r with
  | Some o =>
      match subtract_values (obj_values o) y with
      | Some v =>
          Some (<[r := {| obj_space := obj_space o;
                          obj_space_type := obj_space_type o;
                          obj_values := v |}]> h)
      | None => None
      end
  | None => None
  end.

(** [tuple(map(var_copy, adj_X))] *)
Fixpoint var_copy_all (rs : list ref) (h : store) :
    option (list ref * store) :=
  match rs with
  | [] => Some ([], h)
  | r :: rs' =>
      match var_copy r h with
      | Some (r', h') =>
          match var_copy_all rs' h' with
          | Some (rs'', h'') => Some (r' :: rs'', h'')
          | None => None
          end
      | None => None
      end
  end.
End Store.

(** ** [AdjointRHS] *)

Module AdjointRHS.
Section AdjointRHS.
Context `{Backend}.

Record t : Type := Build_t {
  _space : Z;
  _space_type : space_type;
  _b : option ref
}.

Definition __init__ (x : variable) : t :=
  {| _space := var_space x;
     _space_type := var_space_type x Conjugate_dual;
     _b := None |}.

Definition initialize (self : t) (h : store) : t * store :=
  match _b self with
  | None =>
      let '(r, h') := space_new (_space self) (_space_type self) h in
      ({| _space := _space self; _space_type := _space_type self;
          _b := Some r |}, h')
  | Some _ => (self, h)
  end.

Definition b (copy : bool) (self : t) (h : store) :
    outcome ref * t * store :=
  let '(self1, h1) := initialize self h in
  match _b self1 with
  | Some r =>
      if copy then
        match var_copy r h1 with
        | Some (r', h2) => (Return r', self1, h2)
        | None => (Raise, self1, h1)
        end
      else (Return r, self1, h1)
  | None => (Raise, self1, h1)
  end.

Definition sub (y : option term) (self : t) (h : store) :
    outcome unit * t * store :=
  match y with
  | Some y' =>
      let '(self1, h1) := initialize self h in
      match _b self1 with
      | Some r =>
          match subtract_adjoint_derivative_action r y' h1 with
          | Some h2 => (Return tt, self1, h2)
          | None => (Raise, self1, h1)
          end
      | None => (Raise, self1, h1)
      end
  | None => (Return tt, self, h)
  end.

Definition is_empty (self : t) : bool :=
  match _b self with
  | None => true
  | Some _ => false
  end.

(** The calls a client can make on one [AdjointRHS]. *)
Inductive call : Type :=
  | Call_initialize
  | Call_b (copy : bool)
  | Call_sub (y : option term)
  | Call_is_empty.

Definition step (c : call) (st : t * store) : t * store :=
  match c with
  | Call_initialize => initialize st.1 st.2
  | Call_b copy => let '(_, s, h) := b copy st.1 st.2 in (s, h)
  | Call_sub y => let '(_, s, h) := sub y st.1 st.2 in (s, h)
  | Call_is_empty => st
  end.

Definition run (cs : list call) (st : t * store) : t * store :=
  foldl (λ st c, step c st) st cs.

(** A call that adds a contribution: [sub] with a term other than [None]. *)
Definition adds_contribution (c : call) : bool :=
  match c with
  | Call_sub (Some _) => true
  | _ => false
  end.

(** A call that reaches [initialize]. *)
Definition allocates (c : call) : bool :=
  match c with
  | Call_initialize | Call_b _ | Call_sub (Some _) => true
  | Call_sub None | Call_is_empty => false
  end.

(** The internal variable, if allocated, is an object of the store. *)
Definition wf (st : t * store) : Prop :=
  ∀ r, _b st.1 = Some r → r < length st.2.
End AdjointRHS.
End AdjointRHS.

(** ** Equations and the tape *)

(** Modelled from the spec: the derivative-chain key attached to a
    derivative equation, an ordered key describing the chain of derivative
    operations; the keys are built outside [adjoint.py], which only compares,
    sorts and measures them, and a key is a tuple of integers here. *)
Abbreviation tlm_key := (list Z).

(** Modelled from the spec: the kinds of equation [adjoint.py] tells apart
    with [isinstance]: the [Instruction] marker type, the sentinels
    [ControlsMarker] and [FunctionalMarker], and every other equation. *)
Inductive equation_class : Type :=
  | Plain
  | Instruction
  | ControlsMarker
  | FunctionalMarker.

Global Instance equation_class_eq_dec : EqDecision equation_class.
Proof. solve_decision. Defined.

(** Modelled from the spec: the Equation contract, as far as [adjoint.py]
    reads it: [X()], [dependencies()],
    [adjoint_initial_condition_dependencies()], [adj_X_type(m)], [id], and
    the attributes attached to derivative equations. *)
Record Equation : Type := Build_Equation {
  eq_class : equation_class;
  eq_id : Z;
  X : list variable;
  dependencies : list variable;
  adjoint_initial_condition_dependencies : list variable;
  adj_X_type : nat → space_type;
  _tlm_adjoint__tlm_root_id : option Z;
  _tlm_adjoint__tlm_key : option tlm_key
}.

Definition is_Instruction (eq : Equation) : bool :=
  bool_decide (eq_class eq = Instruction).

Definition is_marker (eq : Equation) : bool :=
  bool_decide (eq_class eq = ControlsMarker)
  || bool_decide (eq_class eq = FunctionalMarker).

(** [blocks]: a [Sequence] of blocks, or a [Mapping] from block index to
    block. *)
Inductive Blocks : Type :=
  | Sequence (l : list (list Equation))
  | Mapping (m : gmap Z (list Equation)).

(** [tuple(range(len(blocks)))], respectively [tuple(sorted(blocks.keys()))] *)
Definition blocks_n (blocks : Blocks) : list Z :=
  match blocks with
  | Sequence l => Z.of_nat <$> seq 0 (length l)
  | Mapping m => merge_sort Z.le (map_to_list m).*1
  end.

(** [blocks[n]], for the non-negative indices [blocks_n] yields. *)
Definition blocks_getitem (blocks : Blocks) (n : Z) : option (list Equation) :=
  match blocks with
  | Sequence l => if decide (0 ≤ n)%Z then l !! Z.to_nat n else None
  | Mapping m => m !! n
  end.

(** The pairs [(n, blocks[n])] for [n in blocks_n]. *)
Definition block_items (blocks : Blocks) : list (Z * list Equation) :=
  omap (λ n, (λ block, (n, block)) <$> blocks_getitem blocks n)
       (blocks_n blocks).

(** [enumerate] *)
Fixpoint enumerate_from {A : Type} (s : nat) (l : list A) : list (nat * A) :=
  match l with
  | [] => []
  | x :: l' => (s, x) :: enumerate_from (S s) l'
  end.

Definition enumerate {A : Type} (l : list A) : list (nat * A) :=
  enumerate_from 0 l.

(** The equations of the tape with their positions, in the order in which
    [for n in blocks_n: for i, eq in enumerate(blocks[n])] visits them.  The
    reverse traversals ([for n in reversed(blocks_n): for i in
    range(len(block) - 1, -1, -1)]) visit [reverse] of this list. *)
Definition tape_of_items (items : list (Z * list Equation)) :
    list (Z * nat * Equation) :=
  items ≫= (λ '(n, block), (λ '(i, eq), (n, i, eq)) <$> enumerate block).

Definition tape (blocks : Blocks) : list (Z * nat * Equation) :=
  tape_of_items (block_items blocks).

(** [blocks[n][i]] *)
Definition eq_at (blocks : Blocks) (n : Z) (i : nat) : option Equation :=
  match blocks_getitem blocks n with
  | Some block => block !! i
  | None => None
  end.

(** A fold whose body can raise. *)
Fixpoint foldM {A S : Type} (f : S → A → option S) (s : S) (l : list A) :
    option S :=
  match l with
  | [] => Some s
  | a :: l' =>
      match f s a with
      | Some s' => foldM f s' l'
      | None => None
      end
  end.

(** ** [AdjointEquationRHS] *)

Module AdjointEquationRHS.
Section AdjointEquationRHS.
Context `{Backend}.

Record t : Type := Build_t {
  _B : list AdjointRHS.t
}.

Definition __init__ (eq : Equation) : t :=
  {| _B := AdjointRHS.__init__ <$> X eq |}.

Definition __getitem__ (self : t) (key : nat) : option AdjointRHS.t :=
  _B self !! key.

(** [b, = self._B] raises unless the tuple has exactly one element. *)
Definition b (copy : bool) (self : t) (h : store) :
    outcome ref * t * store :=
  match _B self with
  | [b0] =>
      let '(r, b1, h1) := AdjointRHS.b copy b0 h in
      (r, {| _B := [b1] |}, h1)
  | _ => (Raise, self, h)
  end.

Fixpoint B_children (copy : bool) (bs : list AdjointRHS.t) (h : store) :
    outcome (list ref) * list AdjointRHS.t * store :=
  match bs with
  | [] => (Return [], [], h)
  | b0 :: bs' =>
      match AdjointRHS.b copy b0 h with
      | (Return r, b1, h1) =>
          let '(o, bs1, h2) := B_children copy bs' h1 in
          (match o with
           | Return rs => Return (r :: rs)
           | Raise => Raise
           end, b1 :: bs1, h2)
      | (Raise, b1, h1) => (Raise, b1 :: bs', h1)
      end
  end.

Definition B (copy : bool) (self : t) (h : store) :
    outcome (list ref) * t * store :=
  let '(o, bs, h') := B_children copy (_B self) h in
  (o, {| _B := bs |}, h').

Definition is_empty (self : t) : bool :=
  forallb AdjointRHS.is_empty (_B self).

(** The internal variables of the children are objects of the store. *)
Definition wf (self : t) (h : store) : Prop :=
  Forall (λ c, AdjointRHS.wf (c, h)) (_B self).

(** [b_of_children copy bs h rs bs' h']: calling [b(copy=copy)] on the
    children [bs] one after the other, in order, from the store [h], each
    call returns, the results are [rs], and the children and the store
    afterwards are [bs'] and [h']. *)
Inductive b_of_children (copy : bool) :
    list AdjointRHS.t → store → list ref → list AdjointRHS.t → store → Prop :=
  | b_of_children_nil (h : store) :
      b_of_children copy [] h [] [] h
  | b_of_children_cons (b0 : AdjointRHS.t) (bs : list AdjointRHS.t)
      (h : store) (r : ref) (b1 : AdjointRHS.t) (h1 : store)
      (rs : list ref) (bs' : list AdjointRHS.t) (h' : store) :
      AdjointRHS.b copy b0 h = (Return r, b1, h1) →
      b_of_children copy bs h1 rs bs' h' →
      b_of_children copy (b0 :: bs) h (r :: rs) (b1 :: bs') h'.
End AdjointEquationRHS.
End AdjointEquationRHS.

(** ** [AdjointBlockRHS] *)

Module AdjointBlockRHS.
Section AdjointBlockRHS.
Context `{Backend}.

Record t : Type := Build_t {
  _B : list AdjointEquationRHS.t
}.

Definition __init__ (block : list Equation) : t :=
  {| _B := AdjointEquationRHS.__init__ <$> block |}.

Definition __getitem__ (self : t) (key : nat) : option AdjointEquationRHS.t :=
  _B self !! key.

(** [return len(self._B) - 1, self._B.pop()] *)
Definition pop (self : t) : outcome (nat * AdjointEquationRHS.t) * t :=
  match last (_B self) with
  | Some e =>
      (Return (length (_B self) - 1, e), {| _B := removelast (_B self) |})
  | None => (Raise, self)
  end.

Definition is_empty (self : t) : bool :=
  bool_decide (length (_B self) = 0).
End AdjointBlockRHS.
End AdjointBlockRHS.

(** ** [AdjointModelRHS] *)

Module AdjointModelRHS.
Section AdjointModelRHS.
Context `{Backend}.

Record t : Type := Build_t {
  _blocks_n : list Z;
  _B : gmap Z AdjointBlockRHS.t
}.

(** One round of the [while] loop of [_pop_empty] per unit of fuel.  Every
    round deletes a key of [_B], so [size _B] rounds are always enough
    (lemma [_pop_empty_loop_fuel] below); the last component tells whether
    the loop ended ([Return]), raised, or ran out of fuel ([None]). *)
Fixpoint _pop_empty_loop (fuel : nat) (self : t) : option (outcome unit) * t :=
  if bool_decide (0 < size (_B self)) then
    match last (_blocks_n self) with
    | Some n =>
        match _B self !! n with
        | Some block =>
            if AdjointBlockRHS.is_empty block then
              match fuel with
              | S fuel' =>
                  _pop_empty_loop fuel'
                    {| _blocks_n := removelast (_blocks_n self);
                       _B := delete n (_B self) |}
              | O => (None, self)
              end
            else (Some (Return tt), self)
        | None => (Some Raise, self)
        end
    | None => (Some Raise, self)
    end
  else (Some (Return tt), self).

Definition _pop_empty (self : t) : outcome unit * t :=
  match _pop_empty_loop (size (_B self)) self with
  | (Some o, self') => (o, self')
  | (None, self') => (Raise, self')
  end.

(** The object exists only if [__init__] returns. *)
Definition __init__ (blocks : Blocks) : option t :=
  let self :=
    {| _blocks_n := blocks_n blocks;
       _B := list_to_map
               ((λ '(n, block), (n, AdjointBlockRHS.__init__ block))
                  <$> block_items blocks) |} in
  match _pop_empty self with
  | (Return _, self') => Some self'
  | (Raise, _) => None
  end.

Definition pop (self : t) :
    outcome ((Z * nat) * AdjointEquationRHS.t) * t :=
  match last (_blocks_n self) with
  | Some n =>
      match _B self !! n with
      | Some block =>
          match AdjointBlockRHS.pop block with
          | (Return (i, B), block') =>
              let self1 := {| _blocks_n := _blocks_n self;
                              _B := <[n := block']> (_B self) |} in
              match _pop_empty self1 with
              | (Return _, self2) => (Return ((n, i), B), self2)
              | (Raise, self2) => (Raise, self2)
              end
          | (Raise, _) => (Raise, self)
          end
      | None => (Raise, self)
      end
  | None => (Raise, self)
  end.

Definition is_empty (self : t) : bool :=
  bool_decide (size (_B self) = 0).

(** [_blocks_n] lists the keys of [_B] in increasing order. *)
Definition keys_in_order (self : t) : Prop :=
  StronglySorted Z.lt (_blocks_n self)
  ∧ ∀ n, n ∈ _blocks_n self ↔ is_Some (_B self !! n).

(** The block at the last retained index is not empty. *)
Definition last_nonempty (self : t) : Prop :=
  ∀ n block, last (_blocks_n self) = Some n → _B self !! n = Some block →
             AdjointBlockRHS.is_empty block = false.

(** States reached from the constructor by calls of [pop]. *)
Inductive reachable : t → Prop :=
  | reachable_init blocks self :
      __init__ blocks = Some self → reachable self
  | reachable_pop self o self' :
      reachable self → pop self = (o, self') → reachable self'.

(** [self[p]]: [__getitem__] with an [int] key. *)
Definition __getitem__ (self : t) (p : Z) : option AdjointBlockRHS.t :=
  _B self !! p.

(** [self[(p, k)]]: [__getitem__] with a key of length two. *)
Definition __getitem___2 (self : t) (p : Z) (k : nat) :
    option AdjointEquationRHS.t :=
  block ← _B self !! p; AdjointBlockRHS.__getitem__ block k.

(** [self[(p, k, m)]]: [__getitem__] with a key of length three. *)
Definition __getitem___3 (self : t) (p : Z) (k m : nat) :
    option AdjointRHS.t :=
  block ← _B self !! p;
  eq_rhs ← AdjointBlockRHS.__getitem__ block k;
  AdjointEquationRHS.__getitem__ eq_rhs m.

(** The right-hand sides held for block [n], with their positions. *)
Definition block_contents (B : gmap Z AdjointBlockRHS.t) (n : Z) :
    list (Z * nat * AdjointEquationRHS.t) :=
  match B !! n with
  | Some block => (λ '(i, e), (n, i, e)) <$> enumerate (AdjointBlockRHS._B block)
  | None => []
  end.

(** The right-hand sides held, with their positions, in tape order. *)
Definition contents (self : t) : list (Z * nat * AdjointEquationRHS.t) :=
  _blocks_n self ≫= block_contents (_B self).

(** [k] calls of [pop] in a row: what they return, and the final state. *)
Fixpoint pops (k : nat) (self : t) :
    list (outcome ((Z * nat) * AdjointEquationRHS.t)) * t :=
  match k with
  | O => ([], self)
  | S k' =>
      let '(o, self1) := pop self in
      let '(os, self2) := pops k' self1 in
      (o :: os, self2)
  end.
End AdjointModelRHS.
End AdjointModelRHS.

(** ** [TransposeComputationalGraph] *)

Module TransposeComputationalGraph.

(** A slot [(n, i, j)] of the tape: block, equation, dependency or output. *)
Abbreviation slot := (Z * nat * nat)%type.

(** [{n: np.full(len(blocks[n]), v, dtype=bool) for n in blocks_n}] *)
Abbreviation flags := (gmap Z (list bool)).

Definition np_full (items : list (Z * list Equation)) (v : bool) : flags :=
  list_to_map ((λ '(n, block), (n, replicate (length block) v)) <$> items).

(** [f[n][i]], for the non-negative indices the traversals and the cache
    produce; [None] is a [KeyError] or an [IndexError]. *)
Definition flags_get (f : flags) (n : Z) (i : nat) : option bool :=
  match f !! n with
  | Some a => a !! i
  | None => None
  end.

(** [f[n][i] = v] *)
Definition flags_set (f : flags) (n : Z) (i : nat) (v : bool) : option flags :=
  match f !! n with
  | Some a =>
      if decide (i < length a) then Some (<[n := <[i := v]> a]> f) else None
  | None => None
  end.

(** *** The transpose computational graph (first traversal) *)

(** [for m, x in enumerate(eq.X()): last_eq[var_id(x)] = (n, i, m)] *)
Definition record_outputs (n : Z) (i : nat) (xs : list variable)
    (last_eq : gmap Z slot) : gmap Z slot :=
  foldl (λ le '(m, x), <[var_id x := (n, i, m)]> le) last_eq (enumerate xs).

(** The loop over [enumerate(eq.dependencies())]. *)
Definition record_dependencies (n : Z) (i : nat) (last_eq : gmap Z slot)
    (deps : list variable) (transpose_deps : gmap slot slot) : gmap slot slot :=
  foldl (λ td '(j, dep),
           match last_eq !! var_id dep with
           | Some (p, k, m) =>
               if bool_decide (p < n)%Z || bool_decide (k < i)
               then <[(n, i, j) := (p, k, m)]> td
               else td
           | None => td
           end)
        transpose_deps (enumerate deps).

Definition transpose_step (st : gmap Z slot * gmap slot slot)
    (e : Z * nat * Equation) : gmap Z slot * gmap slot slot :=
  let '(n, i, eq) := e in
  let last_eq := record_outputs n i (X eq) st.1 in
  (last_eq, record_dependencies n i last_eq (dependencies eq) st.2).

(** The dictionary also holds an (unused) empty entry per block index; the
    entries read by [__contains__] and [__getitem__] are those keyed by
    slots, which is what is kept here. *)
Definition build_transpose_deps (tp : list (Z * nat * Equation)) :
    gmap slot slot :=
  (foldl transpose_step (∅, ∅) tp).2.

(** *** Edges of adjoint initial conditions (reverse traversal) *)

(** [{var_id(dep): j for j, dep in enumerate(eq.dependencies())}] *)
Definition dep_map (deps : list variable) : gmap Z nat :=
  foldl (λ dm '(j, dep), <[var_id dep := j]> dm) ∅ (enumerate deps).

Abbreviation ics_state :=
  (gmap Z (space_type * slot) * gmap slot slot)%type.

Definition ics_output (p : Z) (k : nat) (eq : Equation) (st : ics_state)
    (mx : nat * variable) : option ics_state :=
  let '(m, x) := mx in
  let '(last_eq, ics) := st in
  let adj_x_type := var_space_type x (adj_X_type eq m) in
  let x_id := var_id x in
  let ics1 :=
    if bool_decide
         (x_id ∈ var_id <$> adjoint_initial_condition_dependencies eq)
    then
      match last_eq !! x_id with
      | Some (adj_x_n_i_j_type, (n, i, j)) =>
          if decide (adj_x_type = adj_x_n_i_j_type) then
            if bool_decide (p < n)%Z
               || (bool_decide (n = p) && bool_decide (k < i))
            then Some (<[(n, i, j) := (p, k, m)]> ics)
            else None
          else Some ics
      | None => Some ics
      end
    else Some ics in
  match ics1 with
  | Some ics' =>
      match dep_map (dependencies eq) !! x_id with
      | Some j => Some (<[x_id := (adj_x_type, (p, k, j))]> last_eq, ics')
      | None => None
      end
  | None => None
  end.

Definition ics_step (st : ics_state) (e : Z * nat * Equation) :
    option ics_state :=
  let '(p, k, eq) := e in
  foldM (ics_output p k eq) st (enumerate (X eq)).

(** [transpose_deps_ics]: a copy of [transpose_deps] with the edges of the
    reverse traversal added. *)
Definition build_transpose_deps_ics (tp : list (Z * nat * Equation))
    (transpose_deps : gmap slot slot) : option (gmap slot slot) :=
  snd <$> foldM ics_step (∅, transpose_deps) (reverse tp).

(** *** Forward pruning *)

(** The loop over the dependencies with its [break]: [Some true] when a
    dependency leads to an active equation. *)
Fixpoint depends_on_active (ics : gmap slot slot) (active_forward : flags)
    (n : Z) (i : nat) (js : list nat) : option bool :=
  match js with
  | [] => Some false
  | j :: js' =>
      match ics !! (n, i, j) with
      | Some (p, k, m) =>
          match flags_get active_forward p k with
          | Some true => Some true
          | Some false => depends_on_active ics active_forward n i js'
          | None => None
          end
      | None => depends_on_active ics active_forward n i js'
      end
  end.

Definition forward_step (ics : gmap slot slot) (st : gset Z * flags)
    (e : Z * nat * Equation) : option (gset Z * flags) :=
  let '(n, i, eq) := e in
  let '(active_M, af) := st in
  af1 ← (if is_Instruction eq then flags_set af n i true else Some af);
  '(active_M2, af2) ←
    (if bool_decide (0 < size active_M) then
       let X_ids : gset Z := list_to_set (var_id <$> X eq) in
       if bool_decide (X_ids ## active_M) then Some (active_M, af1)
       else af' ← flags_set af1 n i true; Some (active_M ∖ X_ids, af')
     else Some (active_M, af1)) : option (gset Z * flags);
  a ← flags_get af2 n i;
  if (a : bool) then Some (active_M2, af2)
  else
    d ← depends_on_active ics af2 n i (seq 0 (length (dependencies eq)));
    if (d : bool) then af3 ← flags_set af2 n i true; Some (active_M2, af3)
    else Some (active_M2, af2).

Definition forward_prune (M : list variable) (items : list (Z * list Equation))
    (tp : list (Z * nat * Equation)) (transpose_deps : gmap slot slot) :
    option flags :=
  ics ← build_transpose_deps_ics tp transpose_deps;
  snd <$> foldM (forward_step ics)
                (list_to_set (var_id <$> M), np_full items false) tp.

Definition active_forward (prune_forward : bool) (M : list variable)
    (items : list (Z * list Equation)) (tp : list (Z * nat * Equation))
    (transpose_deps : gmap slot slot) : option flags :=
  if prune_forward then forward_prune M items tp transpose_deps
  else Some (np_full items true).

(** *** Adjoint pruning *)

(** State of the reverse traversal for one functional: [active_J],
    [active_adjoint] and [active[J_i]]. *)
Abbreviation adjoint_state := (bool * flags * flags)%type.

(** [for j, dep in enumerate(eq.dependencies())]: mark the producers. *)
Definition mark_producers (transpose_deps : gmap slot slot) (n : Z) (i : nat)
    (active_adjoint : flags) (js : list nat) : option flags :=
  foldM (λ aa j,
           match transpose_deps !! (n, i, j) with
           | Some (p, k, m) => flags_set aa p k true
           | None => Some aa
           end)
        active_adjoint js.

Definition adjoint_step (transpose_deps : gmap slot slot) (J_id : Z)
    (st : adjoint_state) (e : Z * nat * Equation) : option adjoint_state :=
  let '(n, i, eq) := e in
  let '(active_J, aa, act) := st in
  '(active_J1, aa1) ←
    (if active_J && bool_decide (J_id ∈ var_id <$> X eq)
     then aa' ← flags_set aa n i true; Some (false, aa')
     else Some (active_J, aa)) : option (bool * flags);
  a ← flags_get aa1 n i;
  if (a : bool) then
    aa2 ← mark_producers transpose_deps n i aa1
           (seq 0 (length (dependencies eq)));
    Some (active_J1, aa2, act)
  else if negb (is_Instruction eq) then
    act' ← flags_set act n i false; Some (active_J1, aa1, act')
  else Some (active_J1, aa1, act).

Definition adjoint_prune (transpose_deps : gmap slot slot)
    (items : list (Z * list Equation)) (tp : list (Z * nat * Equation))
    (af : flags) (J : variable) : option flags :=
  snd <$> foldM (adjoint_step transpose_deps (var_id J))
                (true, np_full items false, af) (reverse tp).

(** *** Stored adjoint initial conditions (last traversal) *)

Abbreviation adj_ics_state :=
  (gmap Z (space_type * (Z * nat)) * gmap slot (Z * nat)
   * gmap Z (Z * nat))%type.

(** The body of [for m, x in enumerate(eq.X())]; the state is [last_eq],
    [stored_adj_ics[J_i]] and [adj_ics[J_i]]. *)
Definition adj_ics_output (n : Z) (i : nat) (eq : Equation)
    (st : adj_ics_state) (mx : nat * variable) : adj_ics_state :=
  let '(m, x) := mx in
  let '(last_eq, stored_adj_ics, adj_ics) := st in
  let adj_x_type := var_space_type x (adj_X_type eq m) in
  let x_id := var_id x in
  let stored_adj_ics' :=
    match last_eq !! x_id with
    | Some (adj_x_p_k_m_type, (p, k)) =>
        if decide (adj_x_type = adj_x_p_k_m_type)
        then <[(n, i, m) := (p, k)]> stored_adj_ics
        else stored_adj_ics
    | None => stored_adj_ics
    end in
  if bool_decide (x_id ∈ var_id <$> adjoint_initial_condition_dependencies eq)
  then (<[x_id := (adj_x_type, (n, i))]> last_eq, stored_adj_ics',
        <[x_id := (n, i)]> adj_ics)
  else (delete x_id last_eq, stored_adj_ics', delete x_id adj_ics).

Definition adj_ics_step (st : adj_ics_state) (e : Z * nat * Equation) :
    adj_ics_state :=
  let '(n, i, eq) := e in
  foldl (adj_ics_output n i eq) st (enumerate (X eq)).

(** [(stored_adj_ics[J_i], adj_ics[J_i])]; the traversal does not depend on
    the functional. *)
Definition build_adj_ics (tp : list (Z * nat * Equation)) :
    gmap slot (Z * nat) * gmap Z (Z * nat) :=
  let '(_, stored_adj_ics, adj_ics) := foldl adj_ics_step (∅, ∅, ∅) tp in
  (stored_adj_ics, adj_ics).

(** *** The object *)

Record t : Type := Build_t {
  _transpose_deps : gmap slot slot;
  _active : list flags;
  _solved : list flags;
  _stored_adj_ics : list (gmap slot (Z * nat));
  _adj_ics : list (gmap Z (Z * nat))
}.

Definition __init__ (Js M : list variable) (blocks : Blocks)
    (prune_forward prune_adjoint : bool) : option t :=
  let items := block_items blocks in
  let tp := tape blocks in
  let transpose_deps := build_transpose_deps tp in
  af ← active_forward prune_forward M items tp transpose_deps;
  active ←
    (if prune_adjoint
     then mapM (adjoint_prune transpose_deps items tp af) Js
     else Some ((λ _, af) <$> Js));
  Some {| _transpose_deps := transpose_deps;
          _active := active;
          _solved := active;
          _stored_adj_ics := (λ _, (build_adj_ics tp).1) <$> Js;
          _adj_ics := (λ _, (build_adj_ics tp).2) <$> Js |}.

Definition __contains__ (self : t) (key : slot) : bool :=
  bool_decide (is_Some (_transpose_deps self !! key)).

Definition __getitem__ (self : t) (key : slot) : option slot :=
  _transpose_deps self !! key.

Definition is_active (self : t) (J_i : nat) (n : Z) (i : nat) : option bool :=
  match _active self !! J_i with
  | Some f => flags_get f n i
  | None => None
  end.

Definition is_solved (self : t) (J_i : nat) (n : Z) (i : nat) : option bool :=
  match _solved self !! J_i with
  | Some f => flags_get f n i
  | None => None
  end.

(** [self._solved[J_i][n][i] = False]; the state is unchanged if it raises. *)
Definition set_not_solved (self : t) (J_i : nat) (n : Z) (i : nat) :
    option t :=
  match _solved self !! J_i with
  | Some f =>
      match flags_set f n i false with
      | Some f' =>
          Some {| _transpose_deps := _transpose_deps self;
                  _active := _active self;
                  _solved := <[J_i := f']> (_solved self);
                  _stored_adj_ics := _stored_adj_ics self;
                  _adj_ics := _adj_ics self |}
      | None => None
      end
  | None => None
  end.

(** [for J_i in self._active: if self._active[J_i][n][i]: return True] *)
Fixpoint any_is_active_loop (active : list flags) (n : Z) (i : nat) :
    option bool :=
  match active with
  | [] => Some false
  | f :: active' =>
      match flags_get f n i with
      | Some true => Some true
      | Some false => any_is_active_loop active' n i
      | None => None
      end
  end.

Definition any_is_active (self : t) (n : Z) (i : nat) : option bool :=
  any_is_active_loop (_active self) n i.

(** [has_adj_ic], for [x] given by its id. *)
Definition has_adj_ic (self : t) (J_i : nat) (x_id : Z) : option bool :=
  match _adj_ics self !! J_i with
  | Some adj_ics =>
      match adj_ics !! x_id with
      | Some (n, i) => is_solved self J_i n i
      | None => Some false
      end
  | None => None
  end.

Definition is_stored_adj_ic (self : t) (J_i : nat) (n : Z) (i m : nat) :
    option bool :=
  match _stored_adj_ics self !! J_i with
  | Some stored_adj_ics =>
      match stored_adj_ics !! (n, i, m) with
      | Some (p, k) => is_solved self J_i p k
      | None => Some false
      end
  | None => None
  end.

(** [adj_Bs]: the right-hand sides [B[p][k][m]] of the solved producers of
    the dependencies of [eq]. *)
Definition adj_Bs (self : t) (J_i : nat) (n : Z) (i : nat) (eq : Equation)
    (B : AdjointModelRHS.t) : option (gmap nat AdjointRHS.t) :=
  foldM (λ dep_Bs j,
           if __contains__ self (n, i, j) then
             match __getitem__ self (n, i, j) with
             | Some (p, k, m) =>
                 s ← is_solved self J_i p k;
                 if (s : bool) then
                   block ← AdjointModelRHS._B B !! p;
                   eq_rhs ← AdjointBlockRHS.__getitem__ block k;
                   rhs ← AdjointEquationRHS.__getitem__ eq_rhs m;
                   Some (<[j := rhs]> dep_Bs)
                 else Some dep_Bs
             | None => None
             end
           else Some dep_Bs)
        ∅ (seq 0 (length (dependencies eq))).

(** A client calling [set_not_solved] repeatedly; a call that raises leaves
    the graph as it was. *)
Definition set_not_solved_calls (self : t) (keys : list (nat * Z * nat)) : t :=
  foldl (λ g '(J_i, n, i), default g (set_not_solved g J_i n i)) self keys.

(** *** Vocabulary of the specification *)

(** [(p, k)] comes strictly before [(n, i)] in tape order. *)
Definition earlier (a b : Z * nat) : Prop :=
  (a.1 < b.1)%Z ∨ (a.1 = b.1 ∧ a.2 < b.2).

(** The order of the entries of a tape. *)
Definition tape_lt (a b : Z * nat * Equation) : Prop := earlier a.1 b.1.

(** The equation solves for the variable with this id. *)
Definition produces (eq : Equation) (id : Z) : Prop :=
  id ∈ var_id <$> X eq.

(** Reachability from the controls [M] in the forward dependency graph:
    an equation is reached when it solves for a control, or when the edge
    recorded for one of its dependency slots leads to an equation that is
    reached.  [edges] is the edge map the forward traversal consults
    ([transpose_deps_ics]: the transpose edges and those of adjoint initial
    conditions). *)
Inductive forward_reachable (blocks : Blocks) (M : list variable)
    (edges : gmap (Z * nat * nat) (Z * nat * nat)) : Z → nat → Prop :=
  | reachable_control n i eq id :
      eq_at blocks n i = Some eq → produces eq id → id ∈ var_id <$> M →
      forward_reachable blocks M edges n i
  | reachable_dependency n i eq j p k m :
      eq_at blocks n i = Some eq → j < length (dependencies eq) →
      edges !! (n, i, j) = Some (p, k, m) →
      forward_reachable blocks M edges p k →
      forward_reachable blocks M edges n i.

(** The edge map of the forward traversal, as [__init__] computes it. *)
Definition transpose_deps_ics (blocks : Blocks) :
    option (gmap (Z * nat * nat) (Z * nat * nat)) :=
  build_transpose_deps_ics (tape blocks) (build_transpose_deps (tape blocks)).

(** [(p, k, m)] names an output of an equation of the tape. *)
Definition output_slot (tp : list (Z * nat * Equation)) (e : Z * nat * nat) :
    Prop :=
  ∃ eq, (e.1.1, e.1.2, eq) ∈ tp ∧ is_Some (X eq !! e.2).

(** Two tables of flags with the same entries set to [True] in the first
    only where they are in the second, and of the same shape. *)
Definition flags_le (f f' : gmap Z (list bool)) : Prop :=
  ∀ n i, (is_Some (flags_get f n i) ↔ is_Some (flags_get f' n i))
         ∧ (flags_get f n i = Some true → flags_get f' n i = Some true).

(** Two tables of flags of the same shape that agree except at [(n, i)]. *)
Definition flags_agree_except (n : Z) (i : nat) (f f' : gmap Z (list bool)) :
    Prop :=
  (∀ n' i', is_Some (flags_get f' n' i') ↔ is_Some (flags_get f n' i'))
  ∧ ∀ n' i', ¬ (n' = n ∧ i' = i) → flags_get f' n' i' = flags_get f n' i'.

(** The contract of the equations that [__init__] relies on: the variables
    an equation solves for are distinct and are among its dependencies. *)
Definition well_formed_equation (eq : Equation) : Prop :=
  NoDup (var_id <$> X eq)
  ∧ ∀ x, x ∈ X eq → var_id x ∈ var_id <$> dependencies eq.

(** The entries of [last_eq] in the reverse traversal belong to equations
    after [a], or to the equation at [a] for ids not in [xs]. *)
Definition later_entries (a : Z * nat) (xs : list variable)
    (last_eq : gmap Z (space_type * (Z * nat * nat))) : Prop :=
  ∀ id t n i j, last_eq !! id = Some (t, (n, i, j)) →
                earlier a (n, i) ∨ ((n, i) = a ∧ id ∉ var_id <$> xs).

(** A table of flags with an entry for every equation of the tape. *)
Definition flags_cover (blocks : Blocks) (f : gmap Z (list bool)) : Prop :=
  ∀ n i eq, eq_at blocks n i = Some eq → is_Some (flags_get f n i).

(** The last output slot of [xs], counted from [s], that holds [id]. *)
Fixpoint last_slot_from (s : nat) (id : Z) (xs : list variable) : option nat :=
  match xs with
  | [] => None
  | x :: xs' =>
      match last_slot_from (S s) id xs' with
      | Some m => Some m
      | None => if decide (var_id x = id) then Some s else None
      end
  end.

(** The output slot of the last equation of [tp] that produces [id]. *)
Fixpoint last_producer (tp : list (Z * nat * Equation)) (id : Z) :
    option (Z * nat * nat) :=
  match tp with
  | [] => None
  | (n, i, eq) :: tp' =>
      match last_producer tp' id with
      | Some e => Some e
      | None => (λ m, (n, i, m)) <$> last_slot_from 0 id (X eq)
      end
  end.

(** Reachability in the adjoint sweep, for the functional [J]: an equation
    is reached when it is the last equation of the tape that solves for [J],
    or when an equation that is reached has a transpose edge to it. *)
Inductive adjoint_reachable (blocks : Blocks) (J : variable)
    (edges : gmap (Z * nat * nat) (Z * nat * nat)) : Z → nat → Prop :=
  | reachable_functional n i eq :
      eq_at blocks n i = Some eq → produces eq (var_id J) →
      (∀ q l e, eq_at blocks q l = Some e → earlier (n, i) (q, l) →
                ¬ produces e (var_id J)) →
      adjoint_reachable blocks J edges n i
  | reachable_producer n i j p k m :
      adjoint_reachable blocks J edges n i →
      edges !! (n, i, j) = Some (p, k, m) →
      adjoint_reachable blocks J edges p k.

(** The last equation of [tp] that solves for [id]. *)
Fixpoint last_producing (tp : list (Z * nat * Equation)) (id : Z) :
    option (Z * nat * Equation) :=
  match tp with
  | [] => None
  | (n, i, eq) :: tp' =>
      match last_producing tp' id with
      | Some e => Some e
      | None =>
          if bool_decide (id ∈ var_id <$> X eq) then Some (n, i, eq) else None
      end
  end.

(** The type of the adjoint variable of the last output of [eq] that holds
    the variable [id]. *)
Definition last_output_type (eq : Equation) (id : Z) : option space_type :=
  m ← last_slot_from 0 id (X eq);
  x ← X eq !! m;
  Some (var_space_type x (adj_X_type eq m)).

(** The equations the forward traversal keeps: the [Instruction]s, the
    first equation of the tape that solves for a control, and the equations
    with a dependency slot whose edge in [edges] leads to an equation that
    is kept. *)
Inductive forward_active (blocks : Blocks) (M : list variable)
    (edges : gmap (Z * nat * nat) (Z * nat * nat)) : Z → nat → Prop :=
  | active_instruction n i eq :
      eq_at blocks n i = Some eq → is_Instruction eq = true →
      forward_active blocks M edges n i
  | active_control n i eq id :
      eq_at blocks n i = Some eq → produces eq id → id ∈ var_id <$> M →
      (∀ q l e, eq_at blocks q l = Some e → earlier (q, l) (n, i) →
                ¬ produces e id) →
      forward_active blocks M edges n i
  | active_dependency n i eq j p k m :
      eq_at blocks n i = Some eq → j < length (dependencies eq) →
      edges !! (n, i, j) = Some (p, k, m) →
      forward_active blocks M edges p k →
      forward_active blocks M edges n i.

(** The forward dependency graph of the tape: the equation at [a] depends
    on the equation at [b] when one of its dependencies is a variable that
    the equation at [b] solves for, [b] comes strictly before [a] in tape
    order, and no equation strictly between the two solves for that
    variable (so that the value read at [a] is the one written at [b]). *)
Definition depends_on (blocks : Blocks) (a b : Z * nat) : Prop :=
  ∃ eq eqp dep,
    eq_at blocks a.1 a.2 = Some eq ∧ eq_at blocks b.1 b.2 = Some eqp
    ∧ dep ∈ dependencies eq ∧ produces eqp (var_id dep)
    ∧ earlier b a
    ∧ ∀ q l e, eq_at blocks q l = Some e →
               earlier b (q, l) → earlier (q, l) a →
               ¬ produces e (var_id dep).

(** Reachability from the controls [M] in the forward dependency graph of
    the tape: an equation is reached when it solves for a control, or when
    it depends on an equation that is reached. *)
Inductive reachable_from_controls (blocks : Blocks) (M : list variable) :
    Z → nat → Prop :=
  | reached_control n i eq id :
      eq_at blocks n i = Some eq → produces eq id → id ∈ var_id <$> M →
      reachable_from_controls blocks M n i
  | reached_dependency n i p k :
      depends_on blocks (n, i) (p, k) →
      reachable_from_controls blocks M p k →
      reachable_from_controls blocks M n i.

(** The edge [key -> e] follows the data of the tape [tp]: the dependency
    slot [key] and the output slot [e] hold the same variable, the equation
    of [e] comes strictly before that of [key], and no equation strictly
    between the two solves for the variable. *)
Definition follows_data (tp : list (Z * nat * Equation))
    (key e : Z * nat * nat) : Prop :=
  ∃ eq dep eqp x,
    (key.1.1, key.1.2, eq) ∈ tp ∧ dependencies eq !! key.2 = Some dep
    ∧ (e.1.1, e.1.2, eqp) ∈ tp ∧ X eqp !! e.2 = Some x
    ∧ var_id x = var_id dep
    ∧ earlier e.1 key.1
    ∧ ∀ q l e', (q, l, e') ∈ tp →
                earlier e.1 (q, l) → earlier (q, l) key.1 →
                ¬ produces e' (var_id dep).

(** An entry [last_eq[id] = (_, s)] of the reverse traversal, once the
    equations [post] are visited: [s] is a dependency slot that holds [id],
    of an equation of [post], and no earlier equation of [post] solves for
    [id]. *)
Definition next_reader (post : list (Z * nat * Equation)) (id : Z)
    (s : Z * nat * nat) : Prop :=
  ∃ eq dep,
    (s.1.1, s.1.2, eq) ∈ post ∧ dependencies eq !! s.2 = Some dep
    ∧ var_id dep = id
    ∧ ∀ q l e, (q, l, e) ∈ post → earlier (q, l) s.1 → ¬ produces e id.

End TransposeComputationalGraph.

(** ** [AdjointCache] *)

Module AdjointCache.
Import TransposeComputationalGraph.

(** A cache key [(J_i, n, i)]. *)
Abbreviation key := (nat * Z * nat)%type.

(** The derivative an adjoint variable stores: [(J_root_id, adj_tlm_key)]. *)
Abbreviation adj_key := (Z * tlm_key)%type.

(** Python's ordering of tuples of integers, and of the pairs
    [(J_i, adj_tlm_key)] that [sorted] is applied to. *)
Fixpoint tlm_key_compare (a b : tlm_key) : comparison :=
  match a, b with
  | [], [] => Eq
  | [], _ :: _ => Lt
  | _ :: _, [] => Gt
  | x :: a', y :: b' =>
      match (x ?= y)%Z with
      | Eq => tlm_key_compare a' b'
      | c => c
      end
  end.

Definition entry_leb (a b : nat * tlm_key) : bool :=
  match Nat.compare a.1 b.1 with
  | Lt => true
  | Gt => false
  | Eq =>
      match tlm_key_compare a.2 b.2 with
      | Gt => false
      | _ => true
      end
  end.

Fixpoint sorted_insert (a : nat * tlm_key) (l : list (nat * tlm_key)) :
    list (nat * tlm_key) :=
  match l with
  | [] => [a]
  | b :: l' => if entry_leb a b then a :: l else b :: sorted_insert a l'
  end.

(** [sorted] *)
Definition sorted (l : list (nat * tlm_key)) : list (nat * tlm_key) :=
  foldr sorted_insert [] l.

Section AdjointCache.
Context `{Backend}.

(** [_cache] is a [VariableStateLockDictionary], used here as the dictionary
    it extends; a cached value is a tuple of variable objects. *)
Record t : Type := Build_t {
  _cache : gmap key (list ref);
  _keys : gmap key (list key);
  _cache_key : option (list adj_key)
}.

Definition __init__ : t :=
  {| _cache := ∅; _keys := ∅; _cache_key := None |}.

Definition __len__ (self : t) : nat := size (_cache self).

Definition __contains__ (self : t) (k : key) : bool :=
  bool_decide (is_Some (_cache self !! k)).

Definition clear (self : t) : t :=
  {| _cache := ∅; _keys := ∅; _cache_key := None |}.

Definition get (self : t) (k : key) (copy : bool) (h : store) :
    outcome (list ref) * store :=
  match _cache self !! k with
  | Some adj_X =>
      if copy then
        match var_copy_all adj_X h with
        | Some (adj_X', h') => (Return adj_X', h')
        | None => (Raise, h)
        end
      else (Return adj_X, h)
  | None => (Raise, h)
  end.

Definition pop (self : t) (k : key) (copy : bool) (h : store) :
    outcome (list ref) * t * store :=
  match _cache self !! k with
  | Some adj_X =>
      let self' := {| _cache := delete k (_cache self);
                      _keys := _keys self;
                      _cache_key := _cache_key self |} in
      if copy then
        match var_copy_all adj_X h with
        | Some (adj_X', h') => (Return adj_X', self', h')
        | None => (Raise, self', h)
        end
      else (Return adj_X, self', h)
  | None => (Raise, self, h)
  end.

Definition remove (self : t) (k : key) : outcome unit * t :=
  match _cache self !! k with
  | Some _ =>
      (Return tt, {| _cache := delete k (_cache self);
                     _keys := _keys self;
                     _cache_key := _cache_key self |})
  | None => (Raise, self)
  end.

(** [for J_j, p, k in self._keys[(J_i, n, i)]: self._cache[(J_j, p, k)] = adj_X] *)
Definition store_aliases (adj_X : list ref) (aliases : list key)
    (cache : gmap key (list ref)) : gmap key (list ref) :=
  foldl (λ c a, <[a := adj_X]> c) cache aliases.

Definition cache (self : t) (k : key) (adj_X : list ref) (copy store_ : bool)
    (h : store) : outcome unit * t * store :=
  match _keys self !! k with
  | Some aliases =>
      if store_ || bool_decide (0 < length aliases) then
        let value : option (list ref * store) :=
          match _cache self !! k with
          | Some cached => Some (cached, h)
          | None => if copy then var_copy_all adj_X h else Some (adj_X, h)
          end in
        match value with
        | Some (adj_X', h') =>
            let cache1 :=
              if store_ then <[k := adj_X']> (_cache self)
              else _cache self in
            (Return tt,
             {| _cache := store_aliases adj_X' aliases cache1;
                _keys := _keys self;
                _cache_key := _cache_key self |}, h')
        | None => (Raise, self, h)
        end
      else (Return tt, self, h)
  | None => (Return tt, self, h)
  end.

(** *** [initialize] *)

(** [J_tangent_linears] is defined outside [adjoint.py]; [initialize] takes
    what it returns, [J_roots] and [tlm_adj], as arguments. *)

(** [getattr(J, "_tlm_adjoint__tlm_root_id", var_id(J))] *)
Definition J_root_id (J : variable) : Z :=
  default (var_id J) (var_tlm_root_id J).

(** [cache_key]; [None] when [J_root_ids[J_i]] is out of range. *)
Definition compute_cache_key (J_root_ids : list Z)
    (tlm_adj : gmap tlm_key (list (nat * tlm_key))) : option (list adj_key) :=
  mapM (λ '(J_i, adj_tlm_key),
          (λ r, (r, adj_tlm_key)) <$> J_root_ids !! J_i)
       (sorted (concat (map_to_list tlm_adj).*2)).

(** The state of the traversal: [self._cache], [self._keys] and [eqs]. *)
Abbreviation sharing_state :=
  (gmap key (list ref) * gmap key (list key)
   * gmap Z (list (key * adj_key)))%type.

(** [cache_degree is None or len(adj_tlm_key) < cache_degree] *)
Definition degree_ok (cache_degree : option Z) (adj_tlm_key : tlm_key) : bool :=
  match cache_degree with
  | None => true
  | Some d => bool_decide (Z.of_nat (length adj_tlm_key) < d)%Z
  end.

(** [for J_i, adj_tlm_key in tlm_adj.get(eq_tlm_key, ())] *)
Definition collect_entry (g : TransposeComputationalGraph.t)
    (J_root_ids : list Z) (cache_degree : option Z) (n : Z) (i : nat)
    (eq_tlm_root_id : Z) (cache : gmap key (list ref))
    (eqs : gmap Z (list (key * adj_key))) (e : nat * tlm_key) :
    option (gmap Z (list (key * adj_key))) :=
  let '(J_i, adj_tlm_key) := e in
  s ← is_solved g J_i n i;
  if (s : bool) || bool_decide (is_Some (cache !! (J_i, n, i))) then
    if degree_ok cache_degree adj_tlm_key then
      r ← J_root_ids !! J_i;
      Some (<[eq_tlm_root_id :=
                default [] (eqs !! eq_tlm_root_id)
                ++ [((J_i, n, i), (r, adj_tlm_key))]]> eqs)
    else None
  else Some eqs.

(** [for (J_j, p, k), adj_key in eqs.pop(eq_id, [])]; the state is
    [self._cache], [self._keys] and [eq_root]. *)
Definition share_entry (g : TransposeComputationalGraph.t)
    (st : gmap key (list ref) * gmap key (list key) * gmap adj_key key)
    (e : key * adj_key) :
    option (gmap key (list ref) * gmap key (list key) * gmap adj_key key) :=
  let '(cache, keys, eq_root) := st in
  let '((J_j, p, k), adj_key) := e in
  s ← is_solved g J_j p k;
  if (s : bool) || bool_decide (is_Some (cache !! (J_j, p, k))) then
    match eq_root !! adj_key with
    | Some root =>
        aliases ← keys !! root;
        let keys' := <[root := aliases ++ [(J_j, p, k)]]> keys in
        match cache !! (J_j, p, k), cache !! root with
        | Some v, None => Some (<[root := v]> cache, keys', eq_root)
        | _, _ => Some (cache, keys', eq_root)
        end
    | None =>
        Some (cache, <[(J_j, p, k) := []]> keys,
              <[adj_key := (J_j, p, k)]> eq_root)
    end
  else None.

Definition sharing_step (g : TransposeComputationalGraph.t)
    (J_root_ids : list Z) (tlm_adj : gmap tlm_key (list (nat * tlm_key)))
    (cache_degree : option Z) (st : sharing_state)
    (e : Z * nat * Equation) : option sharing_state :=
  let '(n, i, eq) := e in
  let '(cache, keys, eqs) := st in
  if is_marker eq then Some st
  else
    let eq_tlm_root_id := default (eq_id eq) (_tlm_adjoint__tlm_root_id eq) in
    let eq_tlm_key := default [] (_tlm_adjoint__tlm_key eq) in
    eqs1 ← foldM (collect_entry g J_root_ids cache_degree n i eq_tlm_root_id
                    cache)
                 eqs (default [] (tlm_adj !! eq_tlm_key));
    '(cache', keys', _) ←
      foldM (share_entry g) (cache, keys, ∅)
            (default [] (eqs1 !! eq_id eq));
    Some (cache', keys', delete (eq_id eq) eqs1).

(** [for (J_i, n, i) in ...: transpose_deps.set_not_solved(J_i, n, i)] *)
Definition set_not_solved_all (g : TransposeComputationalGraph.t)
    (ks : list key) : option TransposeComputationalGraph.t :=
  foldM (λ g '(J_i, n, i), set_not_solved g J_i n i) g ks.

(** [initialize] returns the cache and [transpose_deps] as it leaves them;
    [None] when it raises. *)
Definition initialize (self : t) (J_roots : list variable)
    (tlm_adj : gmap tlm_key (list (nat * tlm_key))) (blocks : Blocks)
    (transpose_deps : TransposeComputationalGraph.t)
    (cache_degree : option Z) :
    option (t * TransposeComputationalGraph.t) :=
  let J_root_ids := J_root_id <$> J_roots in
  cache_key ← compute_cache_key J_root_ids tlm_adj;
  let self1 :=
    if decide (_cache_key self = Some cache_key) then self else clear self in
  let self2 := {| _cache := _cache self1; _keys := ∅; _cache_key := None |} in
  self3 ←
    (if match cache_degree with
        | None => true
        | Some d => bool_decide (0 < d)%Z
        end
     then
       '(cache, keys, eqs) ←
         foldM (sharing_step transpose_deps J_root_ids tlm_adj cache_degree)
               (_cache self2, ∅, ∅) (reverse (tape blocks));
       if bool_decide (size eqs = 0)
       then Some {| _cache := cache; _keys := keys;
                    _cache_key := Some cache_key |}
       else None
     else Some self2);
  g1 ← set_not_solved_all transpose_deps (map_to_list (_cache self3)).*1;
  g2 ← set_not_solved_all g1 (concat (map_to_list (_keys self3)).*2);
  Some (self3, g2).

(** What the adjoint sweep does to the cache between two calls of
    [initialize]. *)
Inductive call : Type :=
  | Call_cache (k : key) (adj_X : list ref) (copy store_ : bool)
  | Call_get (k : key) (copy : bool)
  | Call_pop (k : key) (copy : bool)
  | Call_remove (k : key)
  | Call_clear.

Definition step (c : call) (st : t * store) : t * store :=
  match c with
  | Call_cache k adj_X copy store_ =>
      let '(_, s, h) := cache st.1 k adj_X copy store_ st.2 in (s, h)
  | Call_get k copy => (st.1, (get st.1 k copy st.2).2)
  | Call_pop k copy => let '(_, s, h) := pop st.1 k copy st.2 in (s, h)
  | Call_remove k => ((remove st.1 k).2, st.2)
  | Call_clear => (clear st.1, st.2)
  end.

Definition run (cs : list call) (st : t * store) : t * store :=
  foldl (λ st c, step c st) st cs.

(** Between two calls of [initialize]: the cache key is the one the first
    call stored, or the cache has been cleared and holds nothing. *)
Definition keyed_or_cleared (cache_key : list adj_key) (self : t) : Prop :=
  _cache_key self = Some cache_key
  ∨ (_cache_key self = None ∧ _cache self = ∅ ∧ _keys self = ∅).

(** An entry [((J_i, n, i), (J_root_id, adj_tlm_key))] as [initialize]
    collects it under the root id [rid]: the equation at [(n, i)] is not a
    marker and has root id [rid], [tlm_adj] lists [(J_i, adj_tlm_key)]
    for its key, and [J_root_id] is the root id of functional [J_i]. *)
Definition collected (blocks : Blocks) (J_root_ids : list Z)
    (tlm_adj : gmap tlm_key (list (nat * tlm_key))) (rid : Z)
    (e : key * adj_key) : Prop :=
  ∃ eq,
    eq_at blocks e.1.1.2 e.1.2 = Some eq ∧ is_marker eq = false
    ∧ default (eq_id eq) (_tlm_adjoint__tlm_root_id eq) = rid
    ∧ (e.1.1.1, e.2.2)
        ∈ default [] (tlm_adj !! default [] (_tlm_adjoint__tlm_key eq))
    ∧ J_root_ids !! e.1.1.1 = Some e.2.1.

(** Every alias registered in [keys] was collected under the same root id
    and for the same derivative as its root. *)
Definition aliases_share (blocks : Blocks) (J_root_ids : list Z)
    (tlm_adj : gmap tlm_key (list (nat * tlm_key)))
    (keys : gmap key (list key)) : Prop :=
  ∀ root aliases a, keys !! root = Some aliases → a ∈ aliases →
    ∃ rid adj_key,
      collected blocks J_root_ids tlm_adj rid (root, adj_key)
      ∧ collected blocks J_root_ids tlm_adj rid (a, adj_key).
End AdjointCache.
End AdjointCache.

(** ** Worked examples *)

Module Examples.

(** A backend with integer values, [subtract] being subtraction. *)
Definition Z_backend : Backend :=
  {| values := Z; term := Z;
     space_zero := λ _, 0%Z;
     subtract_values := λ v y, Some (v - y)%Z |}.

Definition var (id : Z) : variable :=
  {| var_id := id; var_space := 0; var_own_space_type := Primal;
     var_tlm_root_id := None |}.

Definition equation (c : equation_class) (id : Z) (xs deps adj_ics : list Z) :
    Equation :=
  {| eq_class := c; eq_id := id;
     X := var <$> xs;
     dependencies := var <$> deps;
     adjoint_initial_condition_dependencies := var <$> adj_ics;
     adj_X_type := λ _, Conjugate_dual;
     _tlm_adjoint__tlm_root_id := None;
     _tlm_adjoint__tlm_key := None |}.

(** A tape of three blocks, the last one without equations, and the
    right-hand sides left after one [pop]. *)
Definition model_blocks : Blocks :=
  Sequence [[equation Plain 10 [1] [1] []];
            [equation Plain 11 [2] [2; 1] []; equation Plain 12 [3] [3; 2] []];
            []]%Z.

Definition model_init : AdjointModelRHS.t :=
  default {| AdjointModelRHS._blocks_n := []; AdjointModelRHS._B := ∅ |}
          (AdjointModelRHS.__init__ model_blocks).

Definition model_after_pop : AdjointModelRHS.t :=
  (AdjointModelRHS.pop model_init).2.

(** A tape of two blocks: a control [1], a solve for [2] that is then
    solved for again, an instruction, and the functional [5]. *)
Definition graph_blocks : Blocks :=
  Sequence [[equation Plain 100 [1] [1] [];
             equation Plain 101 [2] [2; 1] [2]];
            [equation Plain 102 [2] [2; 3] [2];
             equation Instruction 103 [] [] [];
             equation Plain 104 [5] [5; 2] []]]%Z.

Definition empty_graph : TransposeComputationalGraph.t :=
  {| TransposeComputationalGraph._transpose_deps := ∅;
     TransposeComputationalGraph._active := [];
     TransposeComputationalGraph._solved := [];
     TransposeComputationalGraph._stored_adj_ics := [];
     TransposeComputationalGraph._adj_ics := [] |}.

Definition graph : TransposeComputationalGraph.t :=
  default empty_graph
    (TransposeComputationalGraph.__init__ [var 5] [var 1] graph_blocks
       true true).

(** A tape on which the solve for [9] does not depend on the control [1]. *)
Definition prune_blocks : Blocks :=
  Sequence [[equation Plain 200 [1] [1] [];
             equation Plain 201 [9] [9] [];
             equation Plain 202 [2] [2; 1] []]]%Z.

Definition prune_graph : TransposeComputationalGraph.t :=
  default empty_graph
    (TransposeComputationalGraph.__init__ [var 2] [var 1] prune_blocks
       true true).

Definition prune_edges : gmap (Z * nat * nat) (Z * nat * nat) :=
  default ∅ (TransposeComputationalGraph.transpose_deps_ics prune_blocks).

(** A cache in which [(0, 0, 0)] is a root slot with the alias [(1, 0, 1)],
    and a store holding one variable. *)
Definition shared_cache : AdjointCache.t :=
  {| AdjointCache._cache := ∅;
     AdjointCache._keys := {[ (0, 0%Z, 0) := [(1, 0%Z, 1)] ]};
     AdjointCache._cache_key := Some [(5%Z, [])] |}.

Definition one_variable : list (@var_obj Z_backend) :=
  [ @Build_var_obj Z_backend 0 Conjugate_dual 7%Z ].

(** A forward equation ([300], solving for the functional [10]) followed by
    its tangent-linear equation ([301], with root [300] and chain key
    [[7]], solving for the tangent-linear functional [11]); the functionals
    [Js = (10, 11)], both with root [10]; and [tlm_adj] as it describes the
    derivatives the adjoint of each kind of equation stores. *)
Definition sharing_blocks : Blocks :=
  Sequence [[equation Plain 300 [10] [10; 1] [];
             {| eq_class := Plain; eq_id := 301;
                X := [var 11];
                dependencies := [var 11; var 10; var 1];
                adjoint_initial_condition_dependencies := [];
                adj_X_type := λ _, Conjugate_dual;
                _tlm_adjoint__tlm_root_id := Some 300;
                _tlm_adjoint__tlm_key := Some [7] |}]]%Z.

Definition sharing_J_roots : list variable :=
  [var 10;
   {| var_id := 11; var_space := 0; var_own_space_type := Primal;
      var_tlm_root_id := Some 10 |}]%Z.

Definition sharing_tlm_adj : gmap tlm_key (list (nat * tlm_key)) :=
  <[ [] := [(0, []); (1, [7%Z])] ]> {[ [7%Z] := [(1, [])] ]}.

Definition sharing_graph : TransposeComputationalGraph.t :=
  default empty_graph
    (TransposeComputationalGraph.__init__ [var 10; var 11] [var 1]
       sharing_blocks false true).

Definition sharing_result :
    AdjointCache.t * TransposeComputationalGraph.t :=
  default (AdjointCache.__init__, empty_graph)
    (AdjointCache.initialize AdjointCache.__init__ sharing_J_roots
       sharing_tlm_adj sharing_blocks sharing_graph None).

(** Two functionals [10] and [20], each solved for by one equation; the
    same two functionals requested in the other order; a value cached under
    the root slot [(0, 0, 0)] between the two requests. *)
Definition swap_blocks : Blocks :=
  Sequence [[equation Plain 400 [10] [10; 1] [];
             equation Plain 401 [20] [20; 1] []]]%Z.

Definition swap_tlm_adj : gmap tlm_key (list (nat * tlm_key)) :=
  {[ [] := [(0, []); (1, [])] ]}.

Definition swap_graph_1 : TransposeComputationalGraph.t :=
  default empty_graph
    (TransposeComputationalGraph.__init__ [var 10; var 20] [var 1]
       swap_blocks false true).

Definition swap_graph_2 : TransposeComputationalGraph.t :=
  default empty_graph
    (TransposeComputationalGraph.__init__ [var 20; var 10] [var 1]
       swap_blocks false true).

Definition swap_first :
    AdjointCache.t * TransposeComputationalGraph.t :=
  default (AdjointCache.__init__, empty_graph)
    (AdjointCache.initialize AdjointCache.__init__ [var 10; var 20]
       swap_tlm_adj swap_blocks swap_graph_1 None).

Definition swap_between : AdjointCache.t * list (@var_obj Z_backend) :=
  @AdjointCache.run Z_backend
    [AdjointCache.Call_cache (0, 0%Z, 0) [0] false true]
    (swap_first.1, one_variable).

Definition swap_second :
    AdjointCache.t * TransposeComputationalGraph.t :=
  default (AdjointCache.__init__, empty_graph)
    (AdjointCache.initialize swap_between.1 [var 20; var 10]
       swap_tlm_adj swap_blocks swap_graph_2 None).

Definition same_second :
    AdjointCache.t * TransposeComputationalGraph.t :=
  default (AdjointCache.__init__, empty_graph)
    (AdjointCache.initialize swap_between.1 [var 10; var 20]
       swap_tlm_adj swap_blocks swap_graph_1 None).

(** The graph of [graph_blocks] without adjoint pruning. *)
Definition graph_forward : TransposeComputationalGraph.t :=
  default empty_graph
    (TransposeComputationalGraph.__init__ [var 5] [var 1] graph_blocks
       true false).

(** The edges the forward traversal of [graph_blocks] consults. *)
Definition graph_edges : gmap (Z * nat * nat) (Z * nat * nat) :=
  default ∅ (TransposeComputationalGraph.transpose_deps_ics graph_blocks).

(** The tape of [model_blocks], split before its last equation. *)
Definition model_kept : list (Z * nat * Equation) :=
  [(0, 0%nat, equation Plain 10 [1] [1] []);
   (1, 0%nat, equation Plain 11 [2] [2; 1] [])]%Z.

Definition model_popped : list (Z * nat * Equation) :=
  [(1, 1%nat, equation Plain 12 [3] [3; 2] [])]%Z.

(** The right-hand sides of [graph_blocks], and what is left of them after
    one [pop]. *)
Definition graph_model : AdjointModelRHS.t :=
  default {| AdjointModelRHS._blocks_n := []; AdjointModelRHS._B := ∅ |}
          (AdjointModelRHS.__init__ graph_blocks).

Definition graph_model_popped : AdjointModelRHS.t :=
  (AdjointModelRHS.pop graph_model).2.

(** The cache of [swap_between], holding one entry, initialised again for
    the same functionals with a cache degree of zero, and once more with the
    default degree. *)
Definition degree_zero_result :
    AdjointCache.t * TransposeComputationalGraph.t :=
  default (AdjointCache.__init__, empty_graph)
    (AdjointCache.initialize swap_between.1 [var 10; var 20]
       swap_tlm_adj swap_blocks swap_graph_1 (Some 0%Z)).

Definition degree_zero_next :
    AdjointCache.t * TransposeComputationalGraph.t :=
  default (AdjointCache.__init__, empty_graph)
    (AdjointCache.initialize degree_zero_result.1 [var 10; var 20]
       swap_tlm_adj swap_blocks swap_graph_1 None).

(** A new right-hand side after [b(copy=True)], and the store then. *)
Definition copied_rhs : AdjointRHS.t :=
  (@AdjointRHS.b Z_backend true (AdjointRHS.__init__ (var 1))
     one_variable).1.2.

Definition copied_store : list (@var_obj Z_backend) :=
  (@AdjointRHS.b Z_backend true (AdjointRHS.__init__ (var 1))
     one_variable).2.

(** A tape whose first equation solves for the variable [2] at both of
    its outputs, followed by an equation that reads [2]. *)
Definition twice_blocks : Blocks :=
  Sequence [[equation Plain 500 [2; 2] [2] [];
             equation Plain 501 [3] [3; 2] []]]%Z.

Definition twice_graph : TransposeComputationalGraph.t :=
  default empty_graph
    (TransposeComputationalGraph.__init__ [var 3] [var 2] twice_blocks
       false false).

(*EXAMPLES*)
End Examples.

(** * Properties *)

(** ** [AdjointRHS] *)

Section AdjointRHS_facts.
Context `{Backend}.
Import AdjointRHS.

Lemma initialize_allocated (self : t) (h : store) (r : ref) :
  _b self = Some r → initialize self h = (self, h).
Proof. intros Hb. unfold initialize. by rewrite Hb. Qed.

Lemma initialize_fresh (self : t) (h : store) :
  _b self = None →
  initialize self h =
    ({| _space := _space self; _space_type := _space_type self;
        _b := Some (length h) |},
     h ++ [ {| obj_space := _space self; obj_space_type := _space_type self;
               obj_values := space_zero (_space self) |} ]).
Proof. intros Hb. unfold initialize. by rewrite Hb. Qed.

Lemma subtract_length (r : ref) (y : term) (h h' : store) :
  subtract_adjoint_derivative_action r y h = Some h' → length h' = length h.
Proof.
  unfold subtract_adjoint_derivative_action. intros Hs.
  destruct (h !! r) as [o|]; [|done].
  destruct (subtract_values (obj_values o) y); [|done].
  injection Hs as <-. apply length_insert.
Qed.

(** Once allocated, the internal variable is never replaced. *)
Lemma step_allocated (c : call) (st : t * store) (r : ref) :
  wf st → _b st.1 = Some r →
  _b (step c st).1 = Some r ∧ wf (step c st).
Proof.
  intros Hwf Hb. destruct st as [self h]. simpl in *.
  assert (Hr : r < length h) by by apply Hwf.
  destruct c as [|copy|[y|]|]; simpl.
  - rewrite (initialize_allocated _ _ r Hb). simpl. done.
  - unfold b. rewrite (initialize_allocated _ _ r Hb), Hb.
    destruct copy; simpl.
    + unfold var_copy.
      destruct (lookup_lt_is_Some_2 h r Hr) as [o Ho]. rewrite Ho. simpl.
      split; [done|]. intros r' Hr'. simpl in *.
      rewrite Hb in Hr'. injection Hr' as <-. rewrite length_app. lia.
    + done.
  - unfold sub. rewrite (initialize_allocated _ _ r Hb), Hb.
    destruct (subtract_adjoint_derivative_action r y h) as [h2|] eqn:Hs;
      simpl; [|done].
    split; [done|]. intros r' Hr'. simpl in *.
    rewrite (subtract_length _ _ _ _ Hs). by apply Hwf.
  - done.
  - done.
Qed.

(** While nothing is allocated, a call either leaves the state alone or
    allocates at the next free address. *)
Lemma step_unallocated (c : call) (st : t * store) :
  _b st.1 = None →
  if allocates c
  then _b (step c st).1 = Some (length st.2) ∧ wf (step c st)
  else step c st = st.
Proof.
  intros Hb. destruct st as [self h]. simpl in *.
  destruct c as [|copy|[y|]|]; simpl; try done.
  - rewrite (initialize_fresh _ _ Hb). simpl. split; [done|].
    intros r [= <-]. simpl. rewrite length_app. simpl. lia.
  - unfold b. rewrite (initialize_fresh _ _ Hb). simpl.
    destruct copy.
    + unfold var_copy. rewrite lookup_app_r, Nat.sub_diag by lia. simpl.
      split; [done|]. intros r [= <-]. simpl. rewrite !length_app. simpl. lia.
    + simpl. split; [done|]. intros r [= <-]. simpl.
      rewrite length_app. simpl. lia.
  - unfold sub. rewrite (initialize_fresh _ _ Hb). simpl.
    match goal with
    | |- context [subtract_adjoint_derivative_action ?r ?y ?h] =>
        destruct (subtract_adjoint_derivative_action r y h) as [h2|] eqn:Hs
    end; simpl.
    + split; [done|]. intros r [= <-]. simpl.
      rewrite (subtract_length _ _ _ _ Hs), length_app. simpl. lia.
    + split; [done|]. intros r [= <-]. simpl. rewrite length_app. simpl. lia.
Qed.

Lemma run_allocated (cs : list call) (st : t * store) (r : ref) :
  wf st → _b st.1 = Some r →
  _b (run cs st).1 = Some r ∧ wf (run cs st).
Proof.
  revert st. induction cs as [|c cs IH]; intros st Hwf Hb; [done|].
  simpl. destruct (step_allocated c st r Hwf Hb) as [Hb' Hwf'].
  by apply IH.
Qed.

Lemma run_is_empty (cs : list call) (st : t * store) :
  _b st.1 = None →
  is_empty (run cs st).1 = forallb (λ c, negb (allocates c)) cs.
Proof.
  revert st. induction cs as [|c cs IH]; intros st Hb; simpl.
  - unfold is_empty. by rewrite Hb.
  - pose proof (step_unallocated c st Hb) as Hs.
    destruct (allocates c); simpl.
    + destruct Hs as [Hb' Hwf'].
      destruct (run_allocated cs _ _ Hwf' Hb') as [Hb'' _].
      unfold is_empty. by rewrite Hb''.
    + rewrite Hs. by apply IH.
Qed.

(** C5, as amended: [is_empty] returns [True] exactly when none of the calls
    made so far reached [initialize], that is when there was no call of
    [initialize], no call of [b], and no call of [sub] with a term other
    than [None]. *)
Theorem AdjointRHS_is_empty_iff_never_allocated
    (x : variable) (h : store) (cs : list call) :
  is_empty (run cs (__init__ x, h)).1 = true
  ↔ Forall (λ c, allocates c = false) cs.
Proof.
  rewrite run_is_empty by done.
  induction cs as [|c cs IH]; simpl.
  - split; [constructor|done].
  - rewrite Forall_cons, andb_true_iff, IH.
    rewrite negb_true_iff. done.
Qed.

(** C6: any number of [sub(None)] leaves the right-hand side empty and
    untouched; a [sub] with a term allocates the internal variable at a
    fresh address and [is_empty] becomes [False]; from then on, whatever
    calls follow, [b(copy=False)] returns that same variable and leaves the
    state alone, while [b(copy=True)] returns a newly allocated variable,
    different from the internal one, holding the same contents. *)
Theorem AdjointRHS_accumulation_scenario
    (x : variable) (h : store) (k : nat) (y : term) (cs : list call) :
  let st0 := (__init__ x, h) in
  let st1 := run (replicate k (Call_sub None)) st0 in
  let st2 := step (Call_sub (Some y)) st1 in
  let st3 := run cs st2 in
  st1 = st0
  ∧ is_empty st1.1 = true
  ∧ is_empty st2.1 = false
  ∧ _b st2.1 = Some (length h)
  ∧ is_empty st3.1 = false
  ∧ b false st3.1 st3.2 = (Return (length h), st3.1, st3.2)
  ∧ ∃ o, st3.2 !! length h = Some o
         ∧ b true st3.1 st3.2 = (Return (length st3.2), st3.1, st3.2 ++ [o])
         ∧ length st3.2 ≠ length h.
Proof.
  intros st0 st1 st2 st3.
  assert (H1 : st1 = st0).
  { subst st1. induction k as [|k IH]; [done|]. simpl. exact IH. }
  assert (H2 : _b st2.1 = Some (length h) ∧ wf st2).
  { subst st2. rewrite H1.
    exact (step_unallocated (Call_sub (Some y)) st0 eq_refl). }
  destruct H2 as [Hb2 Hwf2].
  destruct (run_allocated cs st2 _ Hwf2 Hb2) as [Hb3 Hwf3].
  fold st3 in Hb3, Hwf3.
  assert (Hlt : length h < length st3.2) by by apply Hwf3.
  split; [done|]. split; [by rewrite H1|].
  split; [unfold is_empty; by rewrite Hb2|].
  split; [done|].
  split; [unfold is_empty; by rewrite Hb3|].
  split.
  { unfold b. rewrite (initialize_allocated _ _ _ Hb3), Hb3. done. }
  destruct (lookup_lt_is_Some_2 _ _ Hlt) as [o Ho].
  exists o. split; [done|]. split; [|lia].
  unfold b. rewrite (initialize_allocated _ _ _ Hb3), Hb3.
  unfold var_copy. by rewrite Ho.
Qed.

(** C5, counterexample: after a single [b()] the right-hand side is not
    empty although no contribution was ever added with [sub]. *)
Lemma AdjointRHS_is_empty_b_counterexample :
  ¬ (∀ (B : Backend) (x : variable) (h : store) (cs : list call),
       is_empty (run cs (__init__ x, h)).1 = true
       ↔ Forall (λ c, adds_contribution c = false) cs).
Proof.
  intros Hclaim.
  destruct (Hclaim Examples.Z_backend (Examples.var 1) [] [Call_b false])
    as [_ Hc].
  assert (Hf : Forall (λ c : @call Examples.Z_backend,
                         adds_contribution c = false) [Call_b false])
    by (repeat constructor).
  specialize (Hc Hf). vm_compute in Hc. discriminate.
Qed.

Lemma wf_grow (self : t) (h h' : store) :
  wf (self, h) → length h ≤ length h' → wf (self, h').
Proof. unfold wf. simpl. intros Hwf Hle r Hr. specialize (Hwf r Hr). lia. Qed.

Lemma b_returns (copy : bool) (self : t) (h : store) :
  wf (self, h) →
  ∃ r self' h', b copy self h = (Return r, self', h')
                ∧ length h ≤ length h' ∧ wf (self', h').
Proof.
  intros Hwf. destruct (_b self) as [r|] eqn:Hb.
  - destruct (step_allocated (Call_b copy) (self, h) r Hwf Hb) as [_ Hwf'].
    simpl in Hwf'. unfold b in *.
    rewrite (initialize_allocated _ _ r Hb), Hb in *.
    pose proof (Hwf r Hb) as Hr. simpl in Hr.
    destruct copy.
    + unfold var_copy in *.
      destruct (lookup_lt_is_Some_2 h r Hr) as [o Ho]. rewrite Ho in *.
      simpl in *. eexists _, _, _. split; [done|].
      split; [rewrite length_app; lia|done].
    + eexists _, _, _. split; [done|]. split; [lia|done].
  - pose proof (step_unallocated (Call_b copy) (self, h) Hb) as [_ Hwf'].
    simpl in Hwf'. unfold b in *.
    rewrite (initialize_fresh _ _ Hb) in *. simpl in *.
    destruct copy.
    + unfold var_copy in *.
      rewrite lookup_app_r, Nat.sub_diag in * by lia. simpl in *.
      eexists _, _, _. split; [done|].
      split; [rewrite !length_app; simpl; lia|done].
    + eexists _, _, _. split; [done|].
      split; [rewrite !length_app; simpl; lia|done].
Qed.

End AdjointRHS_facts.

(** ** [AdjointEquationRHS] *)

Section AdjointEquationRHS_facts.
Context `{Backend}.
Import AdjointEquationRHS.

Lemma __init___wf (eq : Equation) (h : store) : wf (__init__ eq) h.
Proof.
  unfold wf, __init__. simpl. apply Forall_fmap, Forall_forall.
  intros x _ r. simpl. discriminate.
Qed.

Lemma B_children_returns (copy : bool) (bs : list AdjointRHS.t) (h : store) :
  Forall (λ c, AdjointRHS.wf (c, h)) bs →
  ∃ rs bs' h', B_children copy bs h = (Return rs, bs', h')
               ∧ length rs = length bs
               ∧ b_of_children copy bs h rs bs' h'.
Proof.
  revert h. induction bs as [|b0 bs IH]; intros h Hwf; simpl.
  - eexists _, _, _. split; [done|]. split; [done|]. constructor.
  - apply Forall_cons in Hwf as [Hb0 Hbs].
    destruct (b_returns copy b0 h Hb0) as (r & b1 & h1 & Hb & Hle & _).
    rewrite Hb.
    destruct (IH h1) as (rs & bs' & h' & HB & Hlen & Hrs).
    { eapply Forall_impl; [exact Hbs|].
      intros c Hc. simpl in Hc. by eapply wf_grow. }
    rewrite HB. eexists _, _, _. split; [done|]. split.
    + simpl. by rewrite Hlen.
    + by econstructor.
Qed.

(** C10: [b] returns only for an equation with exactly one output, and then
    returns what [b] of the single child returns; with no output or with
    several outputs it raises and leaves every child and the store
    untouched.  [B] returns whatever the number of outputs, one variable
    per output: the results of [b] of the children, called with the same
    [copy] on each child in order.  The children of a new
    [AdjointEquationRHS] are the outputs of the equation. *)
Theorem AdjointEquationRHS_b_single_output
    (eq : Equation) (self : t) (h : store) (copy : bool) :
  wf self h →
  (length (_B self) = 1 →
     ∃ b0 r b1 h1, _B self = [b0]
       ∧ AdjointRHS.b copy b0 h = (Return r, b1, h1)
       ∧ b copy self h = (Return r, {| _B := [b1] |}, h1))
  ∧ (length (_B self) ≠ 1 → b copy self h = (Raise, self, h))
  ∧ (∃ rs self' h', B copy self h = (Return rs, self', h')
                    ∧ length rs = length (_B self)
                    ∧ b_of_children copy (_B self) h rs (_B self') h')
  ∧ length (_B (__init__ eq)) = length (X eq)
  ∧ wf (__init__ eq) h.
Proof.
  intros Hwf. split; [|split; [|split; [|split]]].
  - intros Hlen. destruct self as [[|b0 [|b1 bs]]]; simpl in *; try lia.
    apply Forall_cons in Hwf as [Hb0 _].
    destruct (b_returns copy b0 h Hb0) as (r & b1 & h1 & Hb & _).
    exists b0, r, b1, h1. split; [done|]. split; [done|].
    unfold b. simpl. by rewrite Hb.
  - intros Hlen. destruct self as [[|b0 [|b1 bs]]]; simpl in *; try done.
  - destruct (B_children_returns copy (_B self) h Hwf)
      as (rs & bs' & h' & HB & Hlen & Hrs).
    unfold B. rewrite HB. by eexists _, _, _.
  - unfold __init__. simpl. by rewrite length_fmap.
  - apply __init___wf.
Qed.

End AdjointEquationRHS_facts.

Lemma AdjointEquationRHS_b_single_output_witness :
  @AdjointEquationRHS.b Examples.Z_backend false
     (AdjointEquationRHS.__init__
        (Examples.equation Plain 1 [1; 2] [1; 2] [])%Z) []
  = (Raise,
     AdjointEquationRHS.__init__
       (Examples.equation Plain 1 [1; 2] [1; 2] [])%Z, []).
Proof.
  apply (@AdjointEquationRHS_b_single_output Examples.Z_backend
           (Examples.equation Plain 1 [1; 2] [1; 2] [])%Z
           (AdjointEquationRHS.__init__
              (Examples.equation Plain 1 [1; 2] [1; 2] [])%Z)
           [] false).
  - vm_compute. repeat constructor; discriminate.
  - vm_compute. lia.
Defined.

(** ** The tape *)

Section tape_facts.

Lemma StronglySorted_le_lt (l : list Z) :
  StronglySorted Z.le l → NoDup l → StronglySorted Z.lt l.
Proof.
  induction 1 as [|x l Hs IH Hx]; intros Hnd; [constructor|].
  apply NoDup_cons in Hnd as [Hnin Hnd].
  constructor; [by apply IH|].
  apply Forall_forall. intros y Hy.
  rewrite Forall_forall in Hx. specialize (Hx y Hy).
  assert (x ≠ y) by (intros ->; done). lia.
Qed.

Lemma seq_Z_sorted (s len : nat) :
  StronglySorted Z.lt (Z.of_nat <$> seq s len).
Proof.
  revert s. induction len as [|len IH]; intros s; simpl; [constructor|].
  constructor; [apply IH|].
  apply Forall_fmap, Forall_forall. intros y Hy.
  apply elem_of_seq in Hy. simpl. lia.
Qed.

Lemma blocks_n_sorted (blocks : Blocks) :
  StronglySorted Z.lt (blocks_n blocks).
Proof.
  destruct blocks as [l|m]; simpl.
  - apply seq_Z_sorted.
  - apply StronglySorted_le_lt.
    + apply StronglySorted_merge_sort; apply _.
    + rewrite merge_sort_Permutation. apply NoDup_fst_map_to_list.
Qed.

Lemma blocks_n_getitem (blocks : Blocks) (n : Z) :
  n ∈ blocks_n blocks ↔ is_Some (blocks_getitem blocks n).
Proof.
  destruct blocks as [l|m]; simpl.
  - rewrite list_elem_of_fmap. split.
    + intros (k & -> & Hk). apply elem_of_seq in Hk.
      rewrite decide_True by lia. rewrite Nat2Z.id.
      apply lookup_lt_is_Some. lia.
    + destruct (decide (0 ≤ n)%Z) as [Hn|]; [|by intros [? ?]].
      intros Hs. apply lookup_lt_is_Some in Hs.
      exists (Z.to_nat n). split; [lia|]. apply elem_of_seq. lia.
  - rewrite merge_sort_Permutation, list_elem_of_fmap. split.
    + intros ([k v] & -> & Hkv). apply elem_of_map_to_list in Hkv.
      simpl. by exists v.
    + intros [v Hv]. exists (n, v). split; [done|].
      by apply elem_of_map_to_list.
Qed.

Lemma omap_tagged {A B : Type} (f : A → option B) (l : list A) :
  (∀ a, a ∈ l → is_Some (f a)) →
  (omap (λ a, (λ b, (a, b)) <$> f a) l).*1 = l.
Proof.
  induction l as [|a l IH]; intros Hf; simpl; [done|].
  destruct (Hf a) as [b Hb]; [by left|]. rewrite Hb. simpl.
  f_equal. apply IH. intros a' Ha'. apply Hf. by right.
Qed.

Lemma block_items_fst (blocks : Blocks) :
  (block_items blocks).*1 = blocks_n blocks.
Proof.
  unfold block_items. apply omap_tagged.
  intros n Hn. by apply blocks_n_getitem.
Qed.

Lemma block_items_getitem (blocks : Blocks) (n : Z) (block : list Equation) :
  (n, block) ∈ block_items blocks ↔ blocks_getitem blocks n = Some block.
Proof.
  unfold block_items. rewrite list_elem_of_omap. split.
  - intros (n' & Hn' & Hf).
    destruct (blocks_getitem blocks n') as [b'|] eqn:Hg; simpl in Hf; [|done].
    by injection Hf as -> ->.
  - intros Hg. exists n. split.
    + apply blocks_n_getitem. by rewrite Hg.
    + by rewrite Hg.
Qed.

Lemma block_items_NoDup (blocks : Blocks) : NoDup (block_items blocks).*1.
Proof.
  rewrite block_items_fst.
  pose proof (blocks_n_sorted blocks) as Hs.
  induction Hs as [|x l Hs IH Hx]; [constructor|].
  apply NoDup_cons. split; [|done].
  intros Hin. rewrite Forall_forall in Hx. specialize (Hx x Hin). lia.
Qed.

End tape_facts.

(** ** [AdjointModelRHS] *)

Section AdjointModelRHS_facts.
Context `{Backend}.
Import AdjointModelRHS.

Lemma StronglySorted_lt_last (l : list Z) (n x : Z) :
  StronglySorted Z.lt l → last l = Some n → x ∈ l → (x ≤ n)%Z.
Proof.
  intros Hs Hl Hx. apply last_Some in Hl as [l' ->].
  apply StronglySorted_app in Hs as (Hlt & _ & _).
  apply elem_of_app in Hx as [Hx|Hx].
  - specialize (Hlt x n Hx). rewrite list_elem_of_singleton in Hlt.
    specialize (Hlt eq_refl). lia.
  - apply list_elem_of_singleton in Hx. lia.
Qed.

Lemma keys_in_order_delete_last (self : t) (n : Z) :
  keys_in_order self → last (_blocks_n self) = Some n →
  keys_in_order {| _blocks_n := removelast (_blocks_n self);
                   _B := delete n (_B self) |}.
Proof.
  intros [Hs Hk] Hl. apply last_Some in Hl as [l' Hl'].
  unfold keys_in_order. simpl. rewrite Hl' in *. rewrite removelast_last.
  apply StronglySorted_app in Hs as (Hlt & Hs' & _).
  split; [done|]. intros x. rewrite lookup_delete_is_Some, <- Hk.
  rewrite elem_of_app, list_elem_of_singleton. split.
  - intros Hx. split; [|by left].
    specialize (Hlt x n Hx). rewrite list_elem_of_singleton in Hlt.
    specialize (Hlt eq_refl). lia.
  - intros [Hne [Hx|Hx]]; [done|congruence].
Qed.

(** The loop of [_pop_empty] ends within [size _B] rounds, without raising,
    and leaves a non-empty block in the last position. *)
Lemma _pop_empty_loop_fuel (fuel : nat) (self : t) :
  keys_in_order self → size (_B self) ≤ fuel →
  ∃ self', _pop_empty_loop fuel self = (Some (Return tt), self')
           ∧ keys_in_order self' ∧ last_nonempty self'.
Proof.
  revert self. induction fuel as [|fuel IH]; intros self Hk Hsz.
  - assert (Hemp : _B self = ∅) by (apply map_size_empty_iff; lia).
    exists self. simpl. rewrite bool_decide_false by lia.
    split; [done|]. split; [done|].
    intros n block _ Hn. rewrite Hemp in Hn. by rewrite lookup_empty in Hn.
  - simpl. case_bool_decide as Hpos.
    + destruct (map_choose (_B self)) as (n0 & b0 & Hn0).
      { intros Hemp. rewrite Hemp, map_size_empty in Hpos. lia. }
      assert (Hin : n0 ∈ _blocks_n self) by (apply Hk; by rewrite Hn0).
      destruct (last (_blocks_n self)) as [n|] eqn:Hl.
      2:{ apply last_None in Hl. rewrite Hl in Hin. by apply elem_of_nil in Hin. }
      assert (Hn : is_Some (_B self !! n)).
      { apply Hk. apply last_Some in Hl as [l' ->].
        apply elem_of_app. right. by apply list_elem_of_singleton. }
      destruct Hn as [block Hblock]. rewrite Hblock.
      destruct (AdjointBlockRHS.is_empty block) eqn:Hemp.
      * apply IH.
        -- by apply keys_in_order_delete_last.
        -- simpl. rewrite map_size_delete, Hblock. lia.
      * exists self. split; [done|]. split; [done|].
        intros n' block' Hl' Hb'. congruence.
    + exists self. split; [done|]. split; [done|].
      intros n block _ Hn.
      assert (Hemp : _B self = ∅) by (apply map_size_empty_iff; lia).
      rewrite Hemp in Hn. by rewrite lookup_empty in Hn.
Qed.

Lemma _pop_empty_spec (self : t) :
  keys_in_order self →
  ∃ self', _pop_empty self = (Return tt, self')
           ∧ keys_in_order self' ∧ last_nonempty self'.
Proof.
  intros Hk. unfold _pop_empty.
  destruct (_pop_empty_loop_fuel (size (_B self)) self Hk (le_n _))
    as (self' & -> & ?). by exists self'.
Qed.

Lemma __init___keys_in_order (blocks : Blocks) :
  keys_in_order
    {| _blocks_n := blocks_n blocks;
       _B := list_to_map
               ((λ '(n, block), (n, AdjointBlockRHS.__init__ block))
                  <$> block_items blocks) |}.
Proof.
  split; simpl; [apply blocks_n_sorted|].
  intros n. rewrite <- block_items_fst.
  rewrite <- elem_of_dom, dom_list_to_map_L, elem_of_list_to_set.
  rewrite <- list_fmap_compose.
  assert (Heq : (fst ∘ (λ '(n0, block), (n0, AdjointBlockRHS.__init__ block)))
                <$> block_items blocks = (block_items blocks).*1).
  { apply list_fmap_ext. by intros ? [? ?]. }
  by rewrite Heq.
Qed.

(** The constructor always returns. *)
Lemma __init___returns (blocks : Blocks) :
  ∃ self, __init__ blocks = Some self
          ∧ keys_in_order self ∧ last_nonempty self.
Proof.
  unfold __init__.
  destruct (_pop_empty_spec _ (__init___keys_in_order blocks))
    as (self' & -> & ?). by exists self'.
Qed.

Lemma pop_invariant (self self' : t)
    (o : outcome ((Z * nat) * AdjointEquationRHS.t)) :
  keys_in_order self → last_nonempty self → pop self = (o, self') →
  keys_in_order self' ∧ last_nonempty self'.
Proof.
  intros Hk Hne. unfold pop.
  destruct (last (_blocks_n self)) as [n|] eqn:Hl; [|by intros [= <- <-]].
  destruct (_B self !! n) as [block|] eqn:Hblock; [|by intros [= <- <-]].
  destruct (AdjointBlockRHS.pop block) as [[[i B]|] block'] eqn:Hpop;
    [|by intros [= <- <-]].
  set (self1 := {| _blocks_n := _blocks_n self;
                   _B := <[n := block']> (_B self) |}).
  assert (Hk1 : keys_in_order self1).
  { destruct Hk as [Hs Hk]. split; [done|]. intros x. simpl.
    rewrite lookup_insert_is_Some. split.
    - intros Hx. destruct (decide (n = x)) as [->|Hnx]; [by left|].
      right. split; [done|]. by apply Hk.
    - intros [<-|[_ Hx]]; [apply Hk; by rewrite Hblock|by apply Hk]. }
  destruct (_pop_empty_spec self1 Hk1) as (self2 & -> & ?).
  by intros [= <- <-].
Qed.

Lemma reachable_invariant (self : t) :
  reachable self → keys_in_order self ∧ last_nonempty self.
Proof.
  induction 1 as [blocks self Hinit|self o self' _ [Hk Hne] Hpop].
  - destruct (__init___returns blocks) as (self0 & Hinit' & ?).
    rewrite Hinit in Hinit'. by injection Hinit' as ->.
  - by eapply pop_invariant.
Qed.

(** C3: in every state reached from the constructor by calls of [pop], the
    indices kept in [_blocks_n] are exactly those of the retained blocks;
    if a block remains, the one at the last index (the greatest retained
    index) is not empty, so empty trailing blocks have been removed; if
    [_blocks_n] is empty no block remains. *)
Theorem AdjointModelRHS_last_block_nonempty (self : t) :
  reachable self →
  (∀ n', n' ∈ _blocks_n self ↔ is_Some (_B self !! n'))
  ∧ match last (_blocks_n self) with
    | Some n =>
        ∃ block, _B self !! n = Some block
                 ∧ AdjointBlockRHS.is_empty block = false
                 ∧ ∀ n', is_Some (_B self !! n') → (n' ≤ n)%Z
    | None => is_empty self = true
    end.
Proof.
  intros Hr.
  destruct (reachable_invariant self Hr) as [[Hs Hk] Hne].
  split; [done|].
  destruct (last (_blocks_n self)) as [n|] eqn:Hl.
  - assert (Hin : n ∈ _blocks_n self).
    { apply last_Some in Hl as [l' ->].
      apply elem_of_app. right. by apply list_elem_of_singleton. }
    destruct (proj1 (Hk n) Hin) as [block Hblock].
    exists block. split; [done|]. split; [by eapply Hne|].
    intros n' Hn'. apply Hk in Hn'.
    by eapply StronglySorted_lt_last.
  - apply last_None in Hl. unfold is_empty. apply bool_decide_eq_true.
    apply map_size_empty_iff, map_empty. intros n.
    apply eq_None_not_Some. rewrite <- Hk, Hl. apply not_elem_of_nil.
Qed.

End AdjointModelRHS_facts.

Lemma AdjointModelRHS_last_block_nonempty_witness :
  ∃ block,
    AdjointModelRHS._B Examples.model_after_pop !! 1%Z = Some block
    ∧ AdjointBlockRHS.is_empty block = false.
Proof.
  assert (Hr : AdjointModelRHS.reachable Examples.model_after_pop).
  { apply (AdjointModelRHS.reachable_pop Examples.model_init
             (AdjointModelRHS.pop Examples.model_init).1).
    - apply (AdjointModelRHS.reachable_init Examples.model_blocks).
      vm_compute. reflexivity.
    - vm_compute. reflexivity. }
  destruct (AdjointModelRHS_last_block_nonempty _ Hr) as [_ Hlast].
  vm_compute in Hlast. destruct Hlast as (block & Hb & He & _).
  exists block. split; [|exact He]. vm_compute. exact Hb.
Defined.

(** ** [TransposeComputationalGraph]: the flags *)

Section flags_facts.
Import TransposeComputationalGraph.

Lemma flags_get_set (f f' : gmap Z (list bool)) (n n' : Z) (i i' : nat)
    (v : bool) :
  flags_set f n i v = Some f' →
  flags_get f' n' i'
  = if decide (n' = n ∧ i' = i) then Some v else flags_get f n' i'.
Proof.
  unfold flags_set, flags_get. intros Hset.
  destruct (f !! n) as [a|] eqn:Ha; [|done].
  destruct (decide (i < length a)) as [Hi|]; [|done].
  injection Hset as <-.
  destruct (decide (n' = n)) as [->|Hn].
  - rewrite lookup_insert_eq, Ha.
    destruct (decide (i' = i)) as [->|Hi'].
    + rewrite decide_True by done. by apply list_lookup_insert_eq.
    + rewrite decide_False by (intros [_ ?]; done).
      by apply list_lookup_insert_ne.
  - rewrite lookup_insert_ne by done.
    rewrite decide_False by (intros [? _]; done). done.
Qed.

Lemma flags_set_is_Some (f : gmap Z (list bool)) (n : Z) (i : nat) (v : bool) :
  is_Some (flags_set f n i v) ↔ is_Some (flags_get f n i).
Proof.
  unfold flags_set, flags_get. destruct (f !! n) as [a|]; [|done].
  rewrite lookup_lt_is_Some. destruct (decide (i < length a)); [|split].
  - split; [done|]. intros _. by eexists.
  - by intros [? ?].
  - done.
Qed.

Lemma set_not_solved_is_solved (g g' : t) (J_i J_i' : nat) (n n' : Z)
    (i i' : nat) :
  set_not_solved g J_i n i = Some g' →
  is_solved g' J_i' n' i'
  = if decide (J_i' = J_i ∧ n' = n ∧ i' = i) then Some false
    else is_solved g J_i' n' i'.
Proof.
  unfold set_not_solved, is_solved. intros Hset.
  destruct (_solved g !! J_i) as [f|] eqn:Hf; [|done].
  destruct (flags_set f n i false) as [f'|] eqn:Hf'; [|done].
  injection Hset as <-. simpl.
  destruct (decide (J_i' = J_i)) as [->|HJ].
  - rewrite list_lookup_insert_eq by (by eapply lookup_lt_Some).
    rewrite (flags_get_set _ _ _ _ _ _ _ Hf'), Hf.
    destruct (decide (n' = n ∧ i' = i)) as [[-> ->]|Hni].
    + by rewrite decide_True.
    + rewrite decide_False by (intros (_ & ? & ?); by apply Hni). done.
  - rewrite list_lookup_insert_ne by done.
    rewrite decide_False by (intros [? _]; done). done.
Qed.

Lemma set_not_solved_active (g g' : t) (J_i : nat) (n : Z) (i : nat) :
  set_not_solved g J_i n i = Some g' →
  _active g' = _active g ∧ _transpose_deps g' = _transpose_deps g.
Proof.
  unfold set_not_solved. intros Hset.
  destruct (_solved g !! J_i) as [f|]; [|done].
  destruct (flags_set f n i false); [|done].
  by injection Hset as <-.
Qed.

Lemma set_not_solved_calls_invariant (g : t) (keys : list (nat * Z * nat)) :
  (∀ J_i n i, is_solved g J_i n i = Some true →
              is_active g J_i n i = Some true) →
  _active (set_not_solved_calls g keys) = _active g
  ∧ ∀ J_i n i, is_solved (set_not_solved_calls g keys) J_i n i = Some true →
               is_active (set_not_solved_calls g keys) J_i n i = Some true.
Proof.
  revert g. induction keys as [|[[J n] i] keys IH]; intros g Hinv; [done|].
  simpl. destruct (set_not_solved g J n i) as [g'|] eqn:Hset; simpl.
  - destruct (set_not_solved_active _ _ _ _ _ Hset) as [Hact _].
    destruct (IH g') as [Hact' Hinv']; [|split; [congruence|done]].
    intros J' n' i'. rewrite (set_not_solved_is_solved _ _ _ _ _ _ _ _ Hset).
    unfold is_active. rewrite Hact. case_decide; [done|]. apply Hinv.
  - by apply IH.
Qed.

(** C9: for a graph as the constructor builds it, and after any number of
    calls of [set_not_solved] (the only mutation of the solved flags),
    [is_solved] returning [True] implies [is_active] returning [True]; the
    active flags are not changed by [set_not_solved]. *)
Theorem solved_implies_active
    (Js M : list variable) (blocks : Blocks) (prune_forward prune_adjoint : bool)
    (g : t) (keys : list (nat * Z * nat)) (J_i : nat) (n : Z) (i : nat) :
  __init__ Js M blocks prune_forward prune_adjoint = Some g →
  is_solved (set_not_solved_calls g keys) J_i n i = Some true →
  is_active (set_not_solved_calls g keys) J_i n i = Some true
  ∧ is_active g J_i n i = Some true.
Proof.
  intros Hinit Hs.
  assert (Hg : _solved g = _active g).
  { unfold __init__ in Hinit. simpl in Hinit.
    destruct (active_forward _ _ _ _ _); [|done]. simpl in Hinit.
    match type of Hinit with
    | context [mbind _ ?a] => destruct a; [|done]
    end.
    simpl in Hinit. by injection Hinit as <-. }
  destruct (set_not_solved_calls_invariant g keys) as [Hact Hinv].
  { intros J' n' i'. unfold is_solved, is_active. by rewrite Hg. }
  split; [by apply Hinv|].
  apply Hinv in Hs. unfold is_active in *. by rewrite <- Hact.
Qed.

End flags_facts.

Lemma solved_implies_active_witness :
  TransposeComputationalGraph.is_active
    (TransposeComputationalGraph.set_not_solved_calls Examples.graph
       [(0, 1%Z, 0)]) 0 1%Z 2 = Some true
  ∧ TransposeComputationalGraph.is_active Examples.graph 0 1%Z 2 = Some true.
Proof.
  apply (solved_implies_active [Examples.var 5] [Examples.var 1]
           Examples.graph_blocks true true).
  - vm_compute. reflexivity.
  - vm_compute. reflexivity.
Defined.

(** ** [TransposeComputationalGraph]: the transpose edges *)

Section transpose_facts.
Import TransposeComputationalGraph.

Lemma elem_of_enumerate_from {A : Type} (s j : nat) (x : A) (l : list A) :
  (j, x) ∈ enumerate_from s l ↔ s ≤ j ∧ l !! (j - s) = Some x.
Proof.
  revert s. induction l as [|y l IH]; intros s; simpl.
  - rewrite elem_of_nil. split; [done|]. by intros [_ ?].
  - rewrite elem_of_cons, IH. split.
    + intros [[= -> ->]|[Hs Hl]].
      * split; [lia|]. by rewrite Nat.sub_diag.
      * split; [lia|]. by replace (j - s) with (S (j - S s)) by lia.
    + intros [Hs Hl]. destruct (decide (j = s)) as [->|Hne].
      * left. rewrite Nat.sub_diag in Hl. by injection Hl as ->.
      * right. split; [lia|].
        by replace (j - s) with (S (j - S s)) in Hl by lia.
Qed.

Lemma enumerate_from_app {A : Type} (s : nat) (l1 l2 : list A) :
  enumerate_from s (l1 ++ l2)
  = enumerate_from s l1 ++ enumerate_from (s + length l1) l2.
Proof.
  revert s. induction l1 as [|x l1 IH]; intros s; simpl.
  - by rewrite Nat.add_0_r.
  - rewrite IH. do 3 f_equal. lia.
Qed.

Lemma last_slot_from_Some (s : nat) (id : Z) (xs : list variable) (m : nat) :
  last_slot_from s id xs = Some m →
  s ≤ m ∧ ∃ x, xs !! (m - s) = Some x ∧ var_id x = id.
Proof.
  revert s. induction xs as [|x xs IH]; intros s; simpl; [done|].
  destruct (last_slot_from (S s) id xs) as [m'|] eqn:Hl.
  - intros [= ->]. destruct (IH _ Hl) as (Hs & x' & Hx' & Hid).
    split; [lia|]. exists x'.
    by replace (m - s) with (S (m - S s)) by lia.
  - case_decide as Hid; [|done]. intros [= <-].
    split; [lia|]. exists x. by rewrite Nat.sub_diag.
Qed.

Lemma last_slot_from_None (s : nat) (id : Z) (xs : list variable) :
  last_slot_from s id xs = None ↔ id ∉ var_id <$> xs.
Proof.
  revert s. induction xs as [|x xs IH]; intros s; simpl.
  - split; [intros _; apply not_elem_of_nil|done].
  - rewrite not_elem_of_cons, <- (IH (S s)).
    destruct (last_slot_from (S s) id xs) as [m'|].
    + split; [done|]. by intros [_ ?].
    + case_decide as Hid.
      * split; [done|]. intros [Hne _]. by destruct Hne.
      * split; [|done]. intros _. split; [congruence|done].
Qed.

Lemma last_slot_from_NoDup (s : nat) (xs : list variable) (m : nat)
    (x : variable) :
  NoDup (var_id <$> xs) → xs !! m = Some x →
  last_slot_from s (var_id x) xs = Some (s + m).
Proof.
  revert s m. induction xs as [|y xs IH]; intros s m Hnd Hm; [done|].
  simpl in *. apply NoDup_cons in Hnd as [Hy Hnd].
  destruct m as [|m]; simpl in Hm.
  - injection Hm as ->.
    apply (last_slot_from_None (S s)) in Hy. rewrite Hy.
    rewrite decide_True by done. f_equal. lia.
  - rewrite (IH (S s) m Hnd Hm). f_equal. lia.
Qed.

(** [last_eq] after the loop over the outputs of one equation. *)
Lemma record_outputs_lookup (n : Z) (i : nat) (xs : list variable)
    (last_eq : gmap Z (Z * nat * nat)) (id : Z) :
  record_outputs n i xs last_eq !! id
  = match last_slot_from 0 id xs with
    | Some m => Some (n, i, m)
    | None => last_eq !! id
    end.
Proof.
  unfold record_outputs, enumerate. generalize 0.
  revert last_eq. induction xs as [|x xs IH]; intros last_eq s; simpl; [done|].
  rewrite IH. destruct (last_slot_from (S s) id xs); [done|].
  case_decide as Hid.
  - subst id. by rewrite lookup_insert_eq.
  - by rewrite lookup_insert_ne.
Qed.

(** [transpose_deps] after the loop over the dependencies of one equation. *)
Lemma record_dependencies_lookup (n : Z) (i : nat)
    (last_eq : gmap Z (Z * nat * nat)) (deps : list variable)
    (td : gmap (Z * nat * nat) (Z * nat * nat)) (n' : Z) (i' j' : nat) :
  record_dependencies n i last_eq deps td !! (n', i', j')
  = match decide (n' = n ∧ i' = i), deps !! j' with
    | left _, Some dep =>
        match last_eq !! var_id dep with
        | Some (p, k, m) =>
            if bool_decide (p < n)%Z || bool_decide (k < i)
            then Some (p, k, m) else td !! (n', i', j')
        | None => td !! (n', i', j')
        end
    | _, _ => td !! (n', i', j')
    end.
Proof.
  unfold record_dependencies, enumerate.
  assert (Hgen : ∀ s (td : gmap (Z * nat * nat) (Z * nat * nat)),
    foldl (λ td '(j, dep),
             match last_eq !! var_id dep with
             | Some (p, k, m) =>
                 if bool_decide (p < n)%Z || bool_decide (k < i)
                 then <[(n, i, j) := (p, k, m)]> td else td
             | None => td
             end) td (enumerate_from s deps) !! (n', i', j')
    = match decide (n' = n ∧ i' = i), decide (s ≤ j'), deps !! (j' - s) with
      | left _, left _, Some dep =>
          match last_eq !! var_id dep with
          | Some (p, k, m) =>
              if bool_decide (p < n)%Z || bool_decide (k < i)
              then Some (p, k, m) else td !! (n', i', j')
          | None => td !! (n', i', j')
          end
      | _, _, _ => td !! (n', i', j')
      end).
  { induction deps as [|d deps IH]; intros s td0; simpl.
    - by destruct (decide (n' = n ∧ i' = i)), (decide (s ≤ j')).
    - rewrite IH. clear IH.
      destruct (decide (n' = n ∧ i' = i)) as [[-> ->]|Hne].
      + destruct (decide (S s ≤ j')) as [Hs|Hs].
        * rewrite decide_True by lia.
          replace (j' - s) with (S (j' - S s)) by lia. simpl.
          assert (Hk : ∀ v, <[(n, i, s) := v]> td0 !! (n, i, j')
                            = td0 !! (n, i, j')).
          { intros v. apply lookup_insert_ne. intros [=]. lia. }
          destruct (last_eq !! var_id d) as [[[p k] m]|]; [|done].
          destruct (bool_decide (p < n)%Z || bool_decide (k < i)); [|done].
          by rewrite Hk.
        * destruct (decide (s ≤ j')) as [Hs'|Hs'].
          -- assert (j' = s) as -> by lia. rewrite Nat.sub_diag. simpl.
             destruct (last_eq !! var_id d) as [[[p k] m]|]; [|done].
             destruct (bool_decide (p < n)%Z || bool_decide (k < i)); [|done].
             by rewrite lookup_insert_eq.
          -- destruct (last_eq !! var_id d) as [[[p k] m]|]; [|done].
             destruct (bool_decide (p < n)%Z || bool_decide (k < i)); [|done].
             apply lookup_insert_ne. intros [=]. lia.
      + destruct (last_eq !! var_id d) as [[[p k] m]|]; [|done].
        destruct (bool_decide (p < n)%Z || bool_decide (k < i)); [|done].
        apply lookup_insert_ne. intros [=]. by apply Hne. }
  rewrite Hgen. rewrite Nat.sub_0_r.
  destruct (decide (n' = n ∧ i' = i)); [|done].
  by rewrite decide_True by lia.
Qed.

Lemma fold_last_eq (tp : list (Z * nat * Equation))
    (st : gmap Z (Z * nat * nat) * gmap (Z * nat * nat) (Z * nat * nat))
    (id : Z) :
  (foldl transpose_step st tp).1 !! id
  = match last_producer tp id with
    | Some e => Some e
    | None => st.1 !! id
    end.
Proof.
  revert st. induction tp as [|[[n i] eq] tp IH]; intros st; simpl; [done|].
  rewrite IH. destruct (last_producer tp id); [done|].
  simpl. rewrite record_outputs_lookup.
  by destruct (last_slot_from 0 id (X eq)).
Qed.

Lemma fold_transpose_deps_other (tp : list (Z * nat * Equation))
    (st : gmap Z (Z * nat * nat) * gmap (Z * nat * nat) (Z * nat * nat))
    (n : Z) (i j : nat) :
  Forall (λ e, e.1 ≠ (n, i)) tp →
  (foldl transpose_step st tp).2 !! (n, i, j) = st.2 !! (n, i, j).
Proof.
  revert st. induction tp as [|[[n' i'] eq] tp IH]; intros st Hne; [done|].
  apply Forall_cons in Hne as [Hne Htp]. simpl in *.
  rewrite IH by done. simpl. rewrite record_dependencies_lookup.
  rewrite decide_False; [done|]. intros [-> ->]. by apply Hne.
Qed.

Lemma last_producer_app (tp1 tp2 : list (Z * nat * Equation)) (id : Z) :
  last_producer (tp1 ++ tp2) id
  = match last_producer tp2 id with
    | Some e => Some e
    | None => last_producer tp1 id
    end.
Proof.
  induction tp1 as [|[[n i] eq] tp1 IH]; simpl.
  - by destruct (last_producer tp2 id).
  - rewrite IH. by destruct (last_producer tp2 id).
Qed.

Lemma last_producer_None (tp : list (Z * nat * Equation)) (id : Z) :
  last_producer tp id = None ↔ Forall (λ e, ¬ produces e.2 id) tp.
Proof.
  induction tp as [|[[n i] eq] tp IH]; simpl.
  - split; [constructor|done].
  - rewrite Forall_cons, <- IH. simpl. unfold produces.
    rewrite <- (last_slot_from_None 0).
    destruct (last_producer tp id); [split; [done|by intros [_ ?]]|].
    destruct (last_slot_from 0 id (X eq)); simpl; split; try done.
    by intros [? _].
Qed.

Lemma last_producer_Some (tp : list (Z * nat * Equation)) (id : Z)
    (p : Z) (k m : nat) :
  last_producer tp id = Some (p, k, m)
  ↔ ∃ tpa eqp tpb, tp = tpa ++ (p, k, eqp) :: tpb
      ∧ last_slot_from 0 id (X eqp) = Some m
      ∧ Forall (λ e, ¬ produces e.2 id) tpb.
Proof.
  split.
  - induction tp as [|[[n i] eq] tp IH]; simpl; [done|].
    destruct (last_producer tp id) as [e|] eqn:Hl.
    + intros [= ->]. destruct (IH eq_refl) as (tpa & eqp & tpb & -> & ? & ?).
      by exists ((n, i, eq) :: tpa), eqp, tpb.
    + destruct (last_slot_from 0 id (X eq)) as [m'|] eqn:Hs; [|done].
      simpl. intros [= -> -> ->]. exists [], eq, tp.
      split; [done|]. split; [done|]. by apply last_producer_None.
  - intros (tpa & eqp & tpb & -> & Hs & Hb).
    rewrite last_producer_app. simpl.
    apply last_producer_None in Hb. by rewrite Hb, Hs.
Qed.

(** The edge recorded for a dependency slot is decided when its equation is
    visited: it leads to the output the dependency was last produced by. *)
Lemma build_transpose_deps_lookup (tp1 tp2 : list (Z * nat * Equation))
    (n : Z) (i j : nat) (eq : Equation) :
  Forall (λ e, e.1 ≠ (n, i)) tp1 → Forall (λ e, e.1 ≠ (n, i)) tp2 →
  build_transpose_deps (tp1 ++ (n, i, eq) :: tp2) !! (n, i, j)
  = match dependencies eq !! j with
    | Some dep =>
        match last_producer (tp1 ++ [(n, i, eq)]) (var_id dep) with
        | Some (p, k, m) =>
            if bool_decide (p < n)%Z || bool_decide (k < i)
            then Some (p, k, m) else None
        | None => None
        end
    | None => None
    end.
Proof.
  intros H1 H2. unfold build_transpose_deps.
  rewrite foldl_app. simpl.
  rewrite fold_transpose_deps_other by done. simpl.
  rewrite record_dependencies_lookup, decide_True by done.
  rewrite fold_transpose_deps_other by done. simpl. rewrite lookup_empty.
  destruct (dependencies eq !! j) as [dep|]; [|done].
  rewrite record_outputs_lookup, fold_last_eq. simpl. rewrite lookup_empty.
  rewrite last_producer_app. simpl.
  destruct (last_slot_from 0 (var_id dep) (X eq)); simpl; [done|].
  by destruct (last_producer tp1 (var_id dep)) as [[[p k] m]|].
Qed.

Lemma enumerate_from_sorted {A : Type} (s : nat) (l : list A) :
  StronglySorted (λ a b, a.1 < b.1) (enumerate_from s l).
Proof.
  revert s. induction l as [|x l IH]; intros s; simpl; constructor.
  - apply IH.
  - apply Forall_forall. intros [j y] Hj.
    apply elem_of_enumerate_from in Hj. simpl. lia.
Qed.

Lemma elem_of_tape_of_items (items : list (Z * list Equation))
    (n : Z) (i : nat) (eq : Equation) :
  (n, i, eq) ∈ tape_of_items items
  ↔ ∃ block, (n, block) ∈ items ∧ block !! i = Some eq.
Proof.
  unfold tape_of_items. rewrite list_elem_of_bind. split.
  - intros ([n' block] & Hin & Hitem).
    apply list_elem_of_fmap in Hin as ([i' eq'] & [= -> -> ->] & Hin).
    apply elem_of_enumerate_from in Hin as [_ Hin].
    rewrite Nat.sub_0_r in Hin. by exists block.
  - intros (block & Hitem & Hi). exists (n, block). split; [|done].
    apply list_elem_of_fmap. exists (i, eq). split; [done|].
    apply elem_of_enumerate_from. rewrite Nat.sub_0_r. split; [lia|done].
Qed.

Lemma tape_of_items_sorted (items : list (Z * list Equation)) :
  StronglySorted Z.lt items.*1 → StronglySorted tape_lt (tape_of_items items).
Proof.
  induction items as [|[n block] items IH]; simpl; [constructor|].
  intros Hs. apply StronglySorted_cons in Hs as [Hn Hs].
  unfold tape_of_items in *. simpl.
  apply StronglySorted_app. split; [|split].
  - intros [[n1 i1] e1] [[n2 i2] e2] H1 H2.
    apply list_elem_of_fmap in H1 as ([i' eq'] & [= -> -> ->] & _).
    apply (elem_of_tape_of_items items) in H2 as (block2 & Hb2 & _).
    left. simpl. rewrite Forall_forall in Hn. apply Hn.
    apply list_elem_of_fmap. by exists (n2, block2).
  - apply (StronglySorted_fmap _ (λ a b : nat * Equation, a.1 < b.1)).
    + intros [i1 e1] [i2 e2] Hlt. right. simpl in *. done.
    + apply enumerate_from_sorted.
  - by apply IH.
Qed.

Lemma elem_of_tape (blocks : Blocks) (n : Z) (i : nat) (eq : Equation) :
  (n, i, eq) ∈ tape blocks ↔ eq_at blocks n i = Some eq.
Proof.
  unfold tape, eq_at. rewrite elem_of_tape_of_items. split.
  - intros (block & Hb & Hi). apply block_items_getitem in Hb. by rewrite Hb.
  - destruct (blocks_getitem blocks n) as [block|] eqn:Hg; [|done].
    intros Hi. exists block. split; [|done]. by apply block_items_getitem.
Qed.

Lemma tape_sorted (blocks : Blocks) : StronglySorted tape_lt (tape blocks).
Proof.
  apply tape_of_items_sorted. rewrite block_items_fst. apply blocks_n_sorted.
Qed.

Lemma earlier_irrefl (a : Z * nat) : ¬ earlier a a.
Proof. unfold earlier. lia. Qed.

Lemma earlier_asym (a b : Z * nat) : earlier a b → ¬ earlier b a.
Proof. unfold earlier. lia. Qed.

Lemma earlier_test (p n : Z) (k i : nat) :
  earlier (p, k) (n, i) → bool_decide (p < n)%Z || bool_decide (k < i) = true.
Proof.
  unfold earlier. simpl. intros [Hlt|[-> Hlt]].
  - by rewrite bool_decide_true.
  - rewrite (bool_decide_true (k < i)) by done. apply orb_true_r.
Qed.

Lemma tape_lt_split (tp1 tp2 : list (Z * nat * Equation))
    (e : Z * nat * Equation) :
  StronglySorted tape_lt (tp1 ++ e :: tp2) →
  Forall (λ e', earlier e'.1 e.1) tp1 ∧ Forall (λ e', earlier e.1 e'.1) tp2.
Proof.
  intros Hs. apply StronglySorted_app in Hs as (H12 & _ & H2).
  apply StronglySorted_cons in H2 as [H2 _]. split.
  - apply Forall_forall. intros e' He'. apply (H12 e' e He'). by left.
  - exact H2.
Qed.

Lemma earlier_ne (tp : list (Z * nat * Equation)) (a : Z * nat) :
  Forall (λ e, earlier e.1 a ∨ earlier a e.1) tp → Forall (λ e, e.1 ≠ a) tp.
Proof.
  intros Hf. eapply Forall_impl; [exact Hf|].
  intros e [He|He] Heq; simpl in *; rewrite Heq in He;
    by apply earlier_irrefl in He.
Qed.

(** The edges of a tape in order, in terms of the last output slot that
    holds the id of the dependency. *)
Lemma transpose_edge_sorted (tp : list (Z * nat * Equation))
    (n : Z) (i j : nat) (eq : Equation) (dep : variable)
    (p : Z) (k m : nat) :
  StronglySorted tape_lt tp → (n, i, eq) ∈ tp →
  dependencies eq !! j = Some dep →
  build_transpose_deps tp !! (n, i, j) = Some (p, k, m)
  ↔ ∃ eqp, (p, k, eqp) ∈ tp
      ∧ last_slot_from 0 (var_id dep) (X eqp) = Some m
      ∧ earlier (p, k) (n, i)
      ∧ ∀ q l e, (q, l, e) ∈ tp → earlier (p, k) (q, l) →
                 earlier (q, l) (n, i) ∨ (q, l) = (n, i) →
                 ¬ produces e (var_id dep).
Proof.
  intros Hs Hin Hdep. apply list_elem_of_split in Hin as (tp1 & tp2 & ->).
  destruct (tape_lt_split _ _ _ Hs) as [H1 H2]. simpl in H1, H2.
  rewrite build_transpose_deps_lookup.
  2:{ apply earlier_ne. eapply Forall_impl; [exact H1|]. by left. }
  2:{ apply earlier_ne. eapply Forall_impl; [exact H2|]. by right. }
  rewrite Hdep, last_producer_app. simpl.
  split.
  - destruct (last_slot_from 0 (var_id dep) (X eq)) as [m'|] eqn:Hslot; simpl.
    { rewrite !bool_decide_false by lia. done. }
    destruct (last_producer tp1 (var_id dep)) as [[[p' k'] m']|] eqn:Hlp;
      [|done].
    destruct (bool_decide (p' < n)%Z || bool_decide (k' < i)); [|done].
    intros [= -> -> ->].
    apply last_producer_Some in Hlp as (tpa & eqp & tpb & -> & Hm & Hb).
    assert (Hsa : StronglySorted tape_lt (tpa ++ (p, k, eqp) :: tpb)).
    { by apply StronglySorted_app in Hs as (_ & ? & _). }
    destruct (tape_lt_split _ _ _ Hsa) as [Ha Hb']. simpl in Ha, Hb'.
    exists eqp. split; [|split; [done|split]].
    + apply elem_of_app. left. apply elem_of_app. right. by left.
    + rewrite Forall_forall in H1. apply (H1 (p, k, eqp)).
      apply elem_of_app. right. by left.
    + intros q l e Hq Hpq Hqn.
      rewrite elem_of_app, elem_of_cons, elem_of_app, elem_of_cons in Hq.
      destruct Hq as [[Hq|[Hq|Hq]]|[Hq|Hq]].
      * rewrite Forall_forall in Ha. specialize (Ha _ Hq). simpl in Ha.
        by apply earlier_asym in Ha.
      * injection Hq as -> -> ->. by apply earlier_irrefl in Hpq.
      * rewrite Forall_forall in Hb. apply (Hb _ Hq).
      * injection Hq as -> -> ->. by apply (last_slot_from_None 0).
      * rewrite Forall_forall in H2. specialize (H2 _ Hq). simpl in H2.
        destruct Hqn as [Hqn|[= -> ->]].
        -- by apply earlier_asym in Hqn.
        -- by apply earlier_irrefl in H2.
  - intros (eqp & Hinp & Hm & Hearlier & Hbetween).
    assert (Hnone : last_slot_from 0 (var_id dep) (X eq) = None).
    { apply last_slot_from_None. apply (Hbetween n i eq); [|done|by right].
      apply elem_of_app. right. by left. }
    rewrite Hnone. simpl.
    assert (Hp1 : (p, k, eqp) ∈ tp1).
    { rewrite elem_of_app, elem_of_cons in Hinp.
      destruct Hinp as [Hp|[Hp|Hp]]; [done| |].
      - injection Hp as -> -> ->. by apply earlier_irrefl in Hearlier.
      - rewrite Forall_forall in H2. specialize (H2 _ Hp). simpl in H2.
        by apply earlier_asym in H2. }
    apply list_elem_of_split in Hp1 as (tpa & tpb & ->).
    assert (Hsa : StronglySorted tape_lt (tpa ++ (p, k, eqp) :: tpb)).
    { by apply StronglySorted_app in Hs as (_ & ? & _). }
    destruct (tape_lt_split _ _ _ Hsa) as [Ha Hb']. simpl in Ha, Hb'.
    assert (Hlp : last_producer (tpa ++ (p, k, eqp) :: tpb) (var_id dep)
                  = Some (p, k, m)).
    { apply last_producer_Some. exists tpa, eqp, tpb.
      split; [done|]. split; [done|].
      apply Forall_forall. intros [[q l] e] He. simpl.
      apply (Hbetween q l e).
      - apply elem_of_app. left. apply elem_of_app. right. by right.
      - rewrite Forall_forall in Hb'. apply (Hb' _ He).
      - left. rewrite Forall_forall in H1. apply (H1 (q, l, e)).
        apply elem_of_app. right. by right. }
    rewrite Hlp. by rewrite earlier_test.
Qed.

(** The last output slot holding [id]: it holds [id], and no later slot
    does. *)
Lemma last_slot_from_iff (s : nat) (id : Z) (xs : list variable) (m : nat) :
  last_slot_from s id xs = Some m
  ↔ s ≤ m
    ∧ ∃ x, xs !! (m - s) = Some x ∧ var_id x = id
           ∧ ∀ m' x', m < m' → xs !! (m' - s) = Some x' → var_id x' ≠ id.
Proof.
  revert s m. induction xs as [|x0 xs IH]; intros s m; simpl.
  - split; [done|]. by intros (_ & x & Hx & _).
  - destruct (last_slot_from (S s) id xs) as [m0|] eqn:Hrec.
    + apply IH in Hrec as (Hle0 & x & Hx & Hid & Hlast). split.
      * intros [= <-]. split; [lia|]. exists x.
        replace (m0 - s) with (S (m0 - S s)) by lia. simpl.
        split; [done|]. split; [done|]. intros m' x' Hm' Hx'.
        replace (m' - s) with (S (m' - S s)) in Hx' by lia.
        by apply (Hlast m' x').
      * intros (Hle & x1 & Hx1 & Hid1 & Hlast1).
        destruct (decide (m = m0)) as [->|Hne]; [done|]. exfalso.
        destruct (decide (m < m0)) as [Hlt|Hge].
        -- apply (Hlast1 m0 x); [done| |done].
           by replace (m0 - s) with (S (m0 - S s)) by lia.
        -- destruct (decide (m = s)) as [->|Hms].
           ++ apply (Hlast1 m0 x); [lia| |done].
              by replace (m0 - s) with (S (m0 - S s)) by lia.
           ++ apply (Hlast m x1); [lia| |done].
              by replace (m - s) with (S (m - S s)) in Hx1 by lia.
    + pose proof (proj1 (last_slot_from_None (S s) id xs) Hrec) as Hnone.
      assert (Hxs : ∀ l x, xs !! l = Some x → var_id x ≠ id).
      { intros l x Hl Hid. apply Hnone. apply list_elem_of_fmap.
        exists x. split; [done|]. by eapply list_elem_of_lookup_2. }
      destruct (decide (var_id x0 = id)) as [Hid0|Hid0].
      * split.
        -- intros [= <-]. split; [done|]. exists x0. rewrite Nat.sub_diag.
           split; [done|]. split; [done|]. intros m' x' Hm' Hx'.
           replace (m' - s) with (S (m' - S s)) in Hx' by lia.
           by eapply Hxs.
        -- intros (Hle & x1 & Hx1 & Hid1 & _).
           destruct (decide (m = s)) as [->|Hms]; [done|]. exfalso.
           replace (m - s) with (S (m - S s)) in Hx1 by lia.
           by eapply Hxs.
      * split; [done|]. intros (Hle & x1 & Hx1 & Hid1 & _). exfalso.
        destruct (decide (m = s)) as [->|Hms].
        -- rewrite Nat.sub_diag in Hx1. simpl in Hx1. congruence.
        -- replace (m - s) with (S (m - S s)) in Hx1 by lia.
           by eapply Hxs.
Qed.

(** C1, as amended: for every tape, the graph records the edge
    [(n, i, j) -> (p, k, m)] for the dependency slot [j] of the equation at
    [(n, i)] exactly when output [m] of the equation at [(p, k)] is the
    variable consumed at slot [j] and is the last output of that equation
    holding it, [(p, k)] comes strictly before [(n, i)] in tape order, and
    no equation after [(p, k)] up to and including [(n, i)] solves for that
    variable: the edge leads to the most recent earlier producer, and there
    to the last output slot that holds the variable. *)
Theorem transpose_edge_iff_most_recent_producer
    (Js M : list variable) (blocks : Blocks)
    (prune_forward prune_adjoint : bool) (g : t)
    (n : Z) (i j : nat) (eq : Equation) (dep : variable)
    (p : Z) (k m : nat) :
  __init__ Js M blocks prune_forward prune_adjoint = Some g →
  eq_at blocks n i = Some eq →
  dependencies eq !! j = Some dep →
  (__contains__ g (n, i, j) = true ∧ __getitem__ g (n, i, j) = Some (p, k, m))
  ↔ ∃ eqp x, eq_at blocks p k = Some eqp
      ∧ X eqp !! m = Some x ∧ var_id x = var_id dep
      ∧ (∀ m' x', m < m' → X eqp !! m' = Some x' →
                  var_id x' ≠ var_id dep)
      ∧ earlier (p, k) (n, i)
      ∧ ∀ q l e, eq_at blocks q l = Some e → earlier (p, k) (q, l) →
                 earlier (q, l) (n, i) ∨ (q, l) = (n, i) →
                 ¬ produces e (var_id dep).
Proof.
  intros Hinit Heq Hdep.
  assert (Hg : _transpose_deps g = build_transpose_deps (tape blocks)).
  { unfold __init__ in Hinit. simpl in Hinit.
    destruct (active_forward _ _ _ _ _); [|done]. simpl in Hinit.
    match type of Hinit with
    | context [mbind _ ?a] => destruct a; [|done]
    end.
    simpl in Hinit. by injection Hinit as <-. }
  unfold __contains__, __getitem__. rewrite Hg.
  pose proof (transpose_edge_sorted (tape blocks) n i j eq dep p k m
                (tape_sorted blocks) (proj2 (elem_of_tape _ _ _ _) Heq) Hdep)
    as Hedge.
  split.
  - intros [_ Hget]. apply Hedge in Hget as (eqp & Hp & Hm & He & Hb).
    apply elem_of_tape in Hp.
    apply last_slot_from_iff in Hm as (_ & x & Hx & Hid & Hlast).
    rewrite Nat.sub_0_r in Hx. exists eqp, x.
    repeat (split; [done|]). split.
    + intros m' x' Hm' Hx'. apply (Hlast m' x'); [done|].
      by rewrite Nat.sub_0_r.
    + split; [done|]. intros q l e Hq. apply Hb. by apply elem_of_tape.
  - intros (eqp & x & Hp & Hx & Hid & Hlast & He & Hb).
    assert (Hget : build_transpose_deps (tape blocks) !! (n, i, j)
                   = Some (p, k, m)).
    { apply Hedge. exists eqp. split; [by apply elem_of_tape|].
      split; [|split; [done|]].
      - apply last_slot_from_iff. split; [lia|]. exists x.
        rewrite Nat.sub_0_r. split; [done|]. split; [done|].
        intros m' x' Hm' Hx'. rewrite Nat.sub_0_r in Hx'.
        by apply (Hlast m' x').
      - intros q l e Hq. apply Hb. by apply elem_of_tape. }
    rewrite Hget. split; [|done]. apply bool_decide_eq_true. by eexists.
Qed.

End transpose_facts.

Lemma transpose_edge_iff_most_recent_producer_witness :
  ∃ eqp x,
    eq_at Examples.graph_blocks 1 0 = Some eqp
    ∧ X eqp !! 0 = Some x ∧ var_id x = 2%Z
    ∧ (∀ m' x', 0 < m' → X eqp !! m' = Some x' → var_id x' ≠ 2%Z)
    ∧ TransposeComputationalGraph.earlier (1%Z, 0) (1%Z, 2)
    ∧ ∀ q l e, eq_at Examples.graph_blocks q l = Some e →
               TransposeComputationalGraph.earlier (1%Z, 0) (q, l) →
               TransposeComputationalGraph.earlier (q, l) (1%Z, 2)
               ∨ (q, l) = (1%Z, 2) →
               ¬ TransposeComputationalGraph.produces e 2%Z.
Proof.
  apply (proj1 (transpose_edge_iff_most_recent_producer
                  [Examples.var 5] [Examples.var 1] Examples.graph_blocks
                  true true Examples.graph 1 2 1
                  (Examples.equation Plain 104 [5] [5; 2] [])%Z
                  (Examples.var 2) 1 0 0
                  ltac:(vm_compute; reflexivity)
                  ltac:(vm_compute; reflexivity)
                  ltac:(vm_compute; reflexivity))).
  split; vm_compute; reflexivity.
Defined.

(** C1, counterexample: on a tape whose first equation solves for the
    variable [2] at both of its outputs, the dependency of the second
    equation on [2] has an edge to output [1] of the first equation and
    none to output [0], although output [0] is the variable consumed, the
    first equation comes strictly earlier, and no equation after it up to
    the second solves for [2]. *)
Lemma transpose_edge_first_slot_counterexample :
  ¬ (∀ (Js M : list variable) (blocks : Blocks)
       (prune_forward prune_adjoint : bool)
       (g : TransposeComputationalGraph.t)
       (n : Z) (i j : nat) (eq : Equation) (dep : variable)
       (p : Z) (k m : nat),
       TransposeComputationalGraph.__init__ Js M blocks prune_forward
         prune_adjoint = Some g →
       eq_at blocks n i = Some eq →
       dependencies eq !! j = Some dep →
       (TransposeComputationalGraph.__contains__ g (n, i, j) = true
        ∧ TransposeComputationalGraph.__getitem__ g (n, i, j)
          = Some (p, k, m))
       ↔ ∃ eqp x, eq_at blocks p k = Some eqp
           ∧ X eqp !! m = Some x ∧ var_id x = var_id dep
           ∧ TransposeComputationalGraph.earlier (p, k) (n, i)
           ∧ ∀ q l e, eq_at blocks q l = Some e →
                      TransposeComputationalGraph.earlier (p, k) (q, l) →
                      TransposeComputationalGraph.earlier (q, l) (n, i)
                      ∨ (q, l) = (n, i) →
                      ¬ TransposeComputationalGraph.produces e (var_id dep)).
Proof.
  intros Hclaim.
  specialize (Hclaim [Examples.var 3] [Examples.var 2] Examples.twice_blocks
                false false Examples.twice_graph 0%Z 1 1
                (Examples.equation Plain 501 [3] [3; 2] [])%Z
                (Examples.var 2) 0%Z 0 0
                ltac:(vm_compute; reflexivity)
                ltac:(vm_compute; reflexivity)
                ltac:(vm_compute; reflexivity)).
  destruct Hclaim as [_ Hclaim].
  assert (Hget : TransposeComputationalGraph.__getitem__ Examples.twice_graph
                   (0%Z, 1, 1) = Some (0%Z, 0, 0)); [|by vm_compute in Hget].
  apply Hclaim.
  exists (Examples.equation Plain 500 [2; 2] [2] [])%Z, (Examples.var 2).
  split; [vm_compute; reflexivity|]. split; [reflexivity|].
  split; [reflexivity|]. split; [right; simpl; lia|].
  intros q l e He H1 H2.
  assert (Hql : (q, l) = (0%Z, 1)).
  { unfold TransposeComputationalGraph.earlier in H1, H2. simpl in H1, H2.
    destruct H2 as [H2|H2]; [|done].
    assert (q = 0%Z ∧ l = 1) as [-> ->] by lia. done. }
  injection Hql as -> ->. vm_compute in He. injection He as <-.
  unfold TransposeComputationalGraph.produces. simpl.
  intros Hin. apply list_elem_of_singleton in Hin. discriminate.
Qed.

(** ** [TransposeComputationalGraph]: pruning *)

Section pruning_facts.
Import TransposeComputationalGraph.

Lemma foldM_invariant {A S : Type} (P : S → Prop) (f : S → A → option S)
    (l : list A) (s s' : S) :
  P s → (∀ s a s', a ∈ l → P s → f s a = Some s' → P s') →
  foldM f s l = Some s' → P s'.
Proof.
  revert s. induction l as [|a l IH]; intros s Hs Hstep; simpl.
  - by intros [= <-].
  - destruct (f s a) as [s1|] eqn:Hf; [|done].
    apply IH.
    + apply (Hstep s a); [by left|done|done].
    + intros s0 a0 s0' Ha0. apply Hstep. by right.
Qed.

Lemma foldl_invariant {A S : Type} (P : S → Prop) (f : S → A → S)
    (l : list A) (s : S) :
  P s → (∀ s a, a ∈ l → P s → P (f s a)) → P (foldl f s l).
Proof.
  revert s. induction l as [|a l IH]; intros s Hs Hstep; simpl; [done|].
  apply IH.
  - apply Hstep; [by left|done].
  - intros s0 a0 Ha0. apply Hstep. by right.
Qed.

(** Every edge of the transpose graph leads to an output of the tape. *)
Lemma build_transpose_deps_targets (tp : list (Z * nat * Equation))
    (key e : Z * nat * nat) :
  build_transpose_deps tp !! key = Some e → output_slot tp e.
Proof.
  unfold build_transpose_deps.
  set (P := λ st : gmap Z (Z * nat * nat)
                   * gmap (Z * nat * nat) (Z * nat * nat),
              (∀ id e, st.1 !! id = Some e → output_slot tp e)
              ∧ (∀ key e, st.2 !! key = Some e → output_slot tp e)).
  assert (HP : P (foldl transpose_step (∅, ∅) tp)).
  { apply foldl_invariant.
    - split; intros ? ?; simpl; by rewrite lookup_empty.
    - intros [le td] [[n i] eq] Hin [Hle Htd]. simpl in *.
      assert (Hle' : ∀ id e, record_outputs n i (X eq) le !! id = Some e →
                             output_slot tp e).
      { intros id e'. rewrite record_outputs_lookup.
        destruct (last_slot_from 0 id (X eq)) as [m|] eqn:Hm; [|apply Hle].
        intros [= <-]. exists eq. split; [done|]. simpl.
        destruct (last_slot_from_Some _ _ _ _ Hm) as (_ & x & Hx & _).
        rewrite Nat.sub_0_r in Hx. by exists x. }
      split; [done|]. simpl.
      intros [[n' i'] j'] e'. rewrite record_dependencies_lookup.
      destruct (decide (n' = n ∧ i' = i)); [|apply Htd].
      destruct (dependencies eq !! j') as [dep|]; [|apply Htd].
      destruct (record_outputs n i (X eq) le !! var_id dep)
        as [[[p k] m]|] eqn:Hl; [|apply Htd].
      destruct (bool_decide (p < n)%Z || bool_decide (k < i)); [|apply Htd].
      intros [= <-]. by eapply Hle'. }
  intros Hk. by apply (proj2 HP key).
Qed.

(** What one round of the loop over the outputs does to the edge map: it
    is left alone, or gains an edge to the output at hand. *)
Lemma ics_output_edges (p : Z) (k : nat) (eq : Equation)
    (st st' : gmap Z (space_type * (Z * nat * nat))
              * gmap (Z * nat * nat) (Z * nat * nat))
    (m : nat) (x : variable) :
  ics_output p k eq st (m, x) = Some st' →
  st'.2 = st.2 ∨ ∃ key, st'.2 = <[key := (p, k, m)]> st.2.
Proof.
  destruct st as [le ics0]. unfold ics_output. simpl.
  intros Hout. repeat case_match; simplify_eq/=; eauto.
Qed.

Lemma build_transpose_deps_ics_targets (tp : list (Z * nat * Equation))
    (td ics : gmap (Z * nat * nat) (Z * nat * nat)) (key e : Z * nat * nat) :
  (∀ key e, td !! key = Some e → output_slot tp e) →
  build_transpose_deps_ics tp td = Some ics →
  ics !! key = Some e → output_slot tp e.
Proof.
  intros Htd. unfold build_transpose_deps_ics.
  destruct (foldM ics_step (∅, td) (reverse tp)) as [st|] eqn:Hfold; [|done].
  simpl. intros [= <-]. revert key e.
  apply (foldM_invariant
           (λ st : gmap Z (space_type * (Z * nat * nat))
                   * gmap (Z * nat * nat) (Z * nat * nat),
              ∀ key e, st.2 !! key = Some e → output_slot tp e)
           ics_step (reverse tp) (∅, td) st);
    [exact Htd| |exact Hfold].
  intros st0 [[p k] eq] st1 Hin Hst0 Hstep.
  rewrite elem_of_reverse in Hin. unfold ics_step in Hstep.
  apply (foldM_invariant
           (λ st : gmap Z (space_type * (Z * nat * nat))
                   * gmap (Z * nat * nat) (Z * nat * nat),
              ∀ key e, st.2 !! key = Some e → output_slot tp e)
           (ics_output p k eq) (enumerate (X eq)) st0 st1);
    [exact Hst0| |exact Hstep].
  intros st2 [m x] st3 Hmx Hst2 Hout.
  apply elem_of_enumerate_from in Hmx as [_ Hmx]. rewrite Nat.sub_0_r in Hmx.
  destruct (ics_output_edges _ _ _ _ _ _ _ Hout) as [->|[key' ->]]; [done|].
  intros key e. destruct (decide (key' = key)) as [->|Hne].
  - rewrite lookup_insert_eq. intros [= <-]. exists eq. simpl.
    split; [done|]. by exists x.
  - rewrite lookup_insert_ne by done. apply Hst2.
Qed.

Lemma flags_agree_except_refl (n : Z) (i : nat) (f : gmap Z (list bool)) :
  flags_agree_except n i f f.
Proof. by split. Qed.

Lemma flags_agree_except_trans (n : Z) (i : nat)
    (f1 f2 f3 : gmap Z (list bool)) :
  flags_agree_except n i f1 f2 → flags_agree_except n i f2 f3 →
  flags_agree_except n i f1 f3.
Proof.
  intros [S1 E1] [S2 E2]. split.
  - intros n' i'. by rewrite S2, S1.
  - intros n' i' Hne. by rewrite E2, E1.
Qed.

Lemma flags_set_agree (f f' : gmap Z (list bool)) (n : Z) (i : nat) (v : bool) :
  flags_set f n i v = Some f' → flags_agree_except n i f f'.
Proof.
  intros Hset. split.
  - intros n' i'. rewrite (flags_get_set _ _ _ _ _ _ _ Hset).
    destruct (decide (n' = n ∧ i' = i)) as [[-> ->]|]; [|done].
    split; [intros _|by eauto].
    apply (flags_set_is_Some f n i v). by rewrite Hset.
  - intros n' i' Hne. rewrite (flags_get_set _ _ _ _ _ _ _ Hset).
    by rewrite decide_False.
Qed.

Lemma depends_on_active_true (ics : gmap (Z * nat * nat) (Z * nat * nat))
    (af : gmap Z (list bool)) (n : Z) (i : nat) (js : list nat) :
  depends_on_active ics af n i js = Some true →
  ∃ j p k m, j ∈ js ∧ ics !! (n, i, j) = Some (p, k, m)
             ∧ flags_get af p k = Some true.
Proof.
  induction js as [|j js IH]; simpl; [done|].
  destruct (ics !! (n, i, j)) as [[[p k] m]|] eqn:Hedge.
  - destruct (flags_get af p k) as [[|]|] eqn:Hf; [| |done].
    + intros _. exists j, p, k, m. split; [by left|done].
    + intros Hd. destruct (IH Hd) as (j' & p' & k' & m' & Hj' & ?).
      exists j', p', k', m'. split; [by right|done].
  - intros Hd. destruct (IH Hd) as (j' & p' & k' & m' & Hj' & ?).
    exists j', p', k', m'. split; [by right|done].
Qed.

(** The flags after one round of the forward traversal: the shape is kept,
    the set of controls still looked for shrinks, and a flag is newly set
    only for the equation at hand and only for one of the three reasons of
    the code. *)
Lemma forward_step_sound (ics : gmap (Z * nat * nat) (Z * nat * nat))
    (aM aM' : gset Z) (af af' : gmap Z (list bool))
    (n : Z) (i : nat) (eq : Equation) :
  forward_step ics (aM, af) (n, i, eq) = Some (aM', af') →
  aM' ⊆ aM
  ∧ (∀ n' i', is_Some (flags_get af' n' i') ↔ is_Some (flags_get af n' i'))
  ∧ ∀ n' i', flags_get af' n' i' = Some true →
      flags_get af n' i' = Some true
      ∨ (n' = n ∧ i' = i
         ∧ (is_Instruction eq = true
            ∨ (∃ id, produces eq id ∧ id ∈ aM)
            ∨ ∃ j p k m, j < length (dependencies eq)
                ∧ ics !! (n, i, j) = Some (p, k, m)
                ∧ flags_get af p k = Some true)).
Proof.
  unfold forward_step. intros Hstep.
  apply bind_Some in Hstep as (af1 & H1 & Hstep).
  apply bind_Some in Hstep as ([aM2 af2] & H2 & Hstep).
  apply bind_Some in Hstep as (a & Ha & Hstep).
  assert (F1 : flags_agree_except n i af af1
               ∧ (flags_get af1 n i = Some true →
                  is_Instruction eq = true ∨ flags_get af n i = Some true)).
  { destruct (is_Instruction eq).
    - split; [by eapply flags_set_agree|]. intros _. by left.
    - injection H1 as <-. split; [apply flags_agree_except_refl|].
      intros ?. by right. }
  destruct F1 as [A1 R1].
  assert (F2 : aM2 ⊆ aM ∧ flags_agree_except n i af1 af2
               ∧ (flags_get af2 n i = Some true →
                  flags_get af1 n i = Some true
                  ∨ ∃ id, produces eq id ∧ id ∈ aM)).
  { case_bool_decide as Hsz.
    - case_bool_decide as Hdisj.
      + injection H2 as <- <-.
        split; [done|]. split; [apply flags_agree_except_refl|]. by left.
      + apply bind_Some in H2 as (af0 & Hset & [= <- <-]).
        split.
        { intros id Hid. by apply elem_of_difference in Hid as [? _]. }
        split; [by eapply flags_set_agree|].
        intros _. right.
        rewrite disjoint_intersection_L in Hdisj.
        apply set_choose_L in Hdisj as (id & Hid).
        apply elem_of_intersection in Hid as [Hid HidM].
        exists id. split; [|done]. unfold produces.
        by apply elem_of_list_to_set in Hid.
    - injection H2 as <- <-.
      split; [done|]. split; [apply flags_agree_except_refl|]. by left. }
  destruct F2 as (HM & A2 & R2).
  pose proof (flags_agree_except_trans _ _ _ _ _ A1 A2) as A12.
  assert (Hreason2 : flags_get af2 n i = Some true →
                     is_Instruction eq = true
                     ∨ flags_get af n i = Some true
                     ∨ ∃ id, produces eq id ∧ id ∈ aM).
  { intros Ht. destruct (R2 Ht) as [Ht1|?]; [|by right; right].
    destruct (R1 Ht1); [by left|by right; left]. }
  assert (Hfinish : ∀ af3, flags_agree_except n i af af3 →
            (flags_get af3 n i = Some true →
               flags_get af n i = Some true
               ∨ is_Instruction eq = true
               ∨ (∃ id, produces eq id ∧ id ∈ aM)
               ∨ ∃ j p k m, j < length (dependencies eq)
                   ∧ ics !! (n, i, j) = Some (p, k, m)
                   ∧ flags_get af p k = Some true) →
            (∀ n' i', is_Some (flags_get af3 n' i')
                      ↔ is_Some (flags_get af n' i'))
            ∧ ∀ n' i', flags_get af3 n' i' = Some true →
                flags_get af n' i' = Some true
                ∨ (n' = n ∧ i' = i
                   ∧ (is_Instruction eq = true
                      ∨ (∃ id, produces eq id ∧ id ∈ aM)
                      ∨ ∃ j p k m, j < length (dependencies eq)
                          ∧ ics !! (n, i, j) = Some (p, k, m)
                          ∧ flags_get af p k = Some true))).
  { intros af3 [Hshape Hsame] Hni. split; [done|]. intros n' i' Ht.
    destruct (decide (n' = n ∧ i' = i)) as [[-> ->]|Hne].
    - destruct (Hni Ht) as [?|?]; [by left|by right].
    - left. by rewrite <- Hsame. }
  destruct a.
  - injection Hstep as <- <-. split; [done|]. apply Hfinish; [done|].
    intros Ht. destruct (Hreason2 Ht) as [?|[?|?]]; eauto.
  - apply bind_Some in Hstep as (d & Hd & Hstep). destruct d.
    + apply bind_Some in Hstep as (af3 & Hset & [= <- <-]).
      split; [done|]. apply Hfinish.
      { eapply flags_agree_except_trans; [exact A12|].
        by eapply flags_set_agree. }
      intros _. right. right. right.
      apply depends_on_active_true in Hd as (j & p & k & m & Hj & He & Hf).
      apply elem_of_seq in Hj. exists j, p, k, m.
      split; [lia|]. split; [done|].
      destruct A12 as [_ Hsame]. rewrite <- Hsame; [done|].
      intros [-> ->]. congruence.
    + injection Hstep as <- <-. split; [done|]. apply Hfinish; [done|].
      intros Ht. congruence.
Qed.

Lemma np_full_get (items : list (Z * list Equation)) (v b : bool)
    (n : Z) (i : nat) :
  flags_get (np_full items v) n i = Some b → b = v.
Proof.
  unfold flags_get, np_full.
  destruct (list_to_map _ !! n) as [a|] eqn:Ha; [|done].
  apply elem_of_list_to_map_2 in Ha.
  apply list_elem_of_fmap in Ha as ([n' block] & [= -> ->] & _).
  intros Hb. by apply lookup_replicate in Hb as [-> _].
Qed.

Lemma np_full_get_Some (blocks : Blocks) (v : bool) (n : Z) (i : nat)
    (eq : Equation) :
  eq_at blocks n i = Some eq →
  flags_get (np_full (block_items blocks) v) n i = Some v.
Proof.
  unfold eq_at, flags_get, np_full.
  destruct (blocks_getitem blocks n) as [block|] eqn:Hg; [|done].
  intros Hi. apply block_items_getitem in Hg.
  rewrite (elem_of_list_to_map_1 _ n (replicate (length block) v)).
  - apply lookup_replicate. split; [done|]. by eapply lookup_lt_Some.
  - rewrite <- list_fmap_compose.
    assert (Heq : (fst ∘ (λ '(n0, block0), (n0, replicate (length block0) v)))
                  <$> block_items blocks = (block_items blocks).*1).
    { apply list_fmap_ext. by intros ? [? ?]. }
    rewrite Heq. apply block_items_NoDup.
  - apply list_elem_of_fmap. by exists (n, block).
Qed.

(** Forward pruning marks only instructions and equations reached from the
    controls. *)
Lemma forward_prune_sound (blocks : Blocks) (M : list variable)
    (ics : gmap (Z * nat * nat) (Z * nat * nat)) (af : gmap Z (list bool)) :
  Forall (λ e, is_Instruction e.2 = true → X e.2 = []) (tape blocks) →
  transpose_deps_ics blocks = Some ics →
  forward_prune M (block_items blocks) (tape blocks)
    (build_transpose_deps (tape blocks)) = Some af →
  (∀ n i, is_Some (flags_get af n i)
          ↔ is_Some (flags_get (np_full (block_items blocks) false) n i))
  ∧ ∀ n i, flags_get af n i = Some true →
           ∃ eq, eq_at blocks n i = Some eq
                 ∧ (is_Instruction eq = true
                    ∨ forward_reachable blocks M ics n i).
Proof.
  intros Hinstr Hics. unfold forward_prune. unfold transpose_deps_ics in Hics.
  rewrite Hics. simpl.
  destruct (foldM _ _ _) as [st|] eqn:Hfold; [|done]. simpl. intros [= <-].
  set (P := λ st : gset Z * gmap Z (list bool),
    st.1 ⊆ list_to_set (var_id <$> M)
    ∧ (∀ n i, is_Some (flags_get st.2 n i)
              ↔ is_Some (flags_get (np_full (block_items blocks) false) n i))
    ∧ ∀ n i, flags_get st.2 n i = Some true →
             ∃ eq, eq_at blocks n i = Some eq
                   ∧ (is_Instruction eq = true
                      ∨ forward_reachable blocks M ics n i)).
  assert (HP : P st); [|by destruct HP as (_ & ? & ?)].
  apply (foldM_invariant P (forward_step ics) (tape blocks)
           (list_to_set (var_id <$> M),
            np_full (block_items blocks) false) st); [| |exact Hfold].
  - split; [done|]. split; [done|]. simpl. intros n i Ht.
    by apply np_full_get in Ht.
  - intros [aM af0] [[n i] eq] [aM' af'] Hin (HM & Hshape & Hsound) Hstep.
    simpl in *.
    destruct (forward_step_sound _ _ _ _ _ _ _ _ Hstep) as (HM' & Hs' & Hr').
    split; [by etrans|]. split.
    { intros n' i'. by rewrite Hs'. }
    intros n' i' Ht. destruct (Hr' _ _ Ht) as [Hold|(-> & -> & Hwhy)].
    { by apply Hsound. }
    pose proof (proj1 (elem_of_tape _ _ _ _) Hin) as Heq.
    exists eq. split; [done|].
    destruct Hwhy as [?|[(id & Hid & HidM)|(j & p & k & m & Hj & He & Hf)]].
    + by left.
    + right. apply (reachable_control _ _ _ n i eq id); [done|done|].
      apply HM in HidM. by apply elem_of_list_to_set in HidM.
    + right. apply (reachable_dependency _ _ _ n i eq j p k m); [done..|].
      destruct (Hsound _ _ Hf) as (eqp & Hp & [HI|Hreach]); [|done].
      exfalso.
      destruct (build_transpose_deps_ics_targets _ _ _ _ _
                  (build_transpose_deps_targets (tape blocks)) Hics He)
        as (eqp' & Hp' & [x Hx]).
      simpl in *. apply elem_of_tape in Hp'.
      assert (eqp' = eqp) as -> by congruence.
      rewrite Forall_forall in Hinstr.
      assert (Hnil : X eqp = []).
      { apply (Hinstr (p, k, eqp)); [by apply elem_of_tape|done]. }
      by rewrite Hnil in Hx.
Qed.

Lemma flags_le_refl (f : gmap Z (list bool)) : flags_le f f.
Proof. by intros n i. Qed.

Lemma flags_le_trans (f1 f2 f3 : gmap Z (list bool)) :
  flags_le f1 f2 → flags_le f2 f3 → flags_le f1 f3.
Proof.
  intros H12 H23 n i. destruct (H12 n i) as [S1 T1], (H23 n i) as [S2 T2].
  split; [by rewrite S1|]. intros Ht. by apply T2, T1.
Qed.

Lemma flags_set_false_le (f f' : gmap Z (list bool)) (n : Z) (i : nat) :
  flags_set f n i false = Some f' → flags_le f' f.
Proof.
  intros Hset n' i'. destruct (flags_set_agree _ _ _ _ _ Hset) as [Hs He].
  split; [done|]. rewrite (flags_get_set _ _ _ _ _ _ _ Hset).
  by case_decide.
Qed.

Lemma adjoint_prune_le (td : gmap (Z * nat * nat) (Z * nat * nat))
    (items : list (Z * list Equation)) (tp : list (Z * nat * Equation))
    (af act : gmap Z (list bool)) (J : variable) :
  adjoint_prune td items tp af J = Some act → flags_le act af.
Proof.
  unfold adjoint_prune.
  destruct (foldM _ _ _) as [st|] eqn:Hfold; [|done]. simpl. intros [= <-].
  apply (foldM_invariant
           (λ st : bool * gmap Z (list bool) * gmap Z (list bool),
              flags_le st.2 af)
           (adjoint_step td (var_id J)) (reverse tp)
           (true, np_full items false, af) st);
    [apply flags_le_refl| |exact Hfold].
  intros [[aJ aa] act0] [[n i] eq] st' _ Hle Hstep. simpl in *.
  unfold adjoint_step in Hstep.
  apply bind_Some in Hstep as ([aJ1 aa1] & _ & Hstep).
  apply bind_Some in Hstep as (a & _ & Hstep).
  destruct a.
  - apply bind_Some in Hstep as (aa2 & _ & [= <-]). done.
  - destruct (negb (is_Instruction eq)).
    + apply bind_Some in Hstep as (act' & Hset & [= <-]). simpl.
      eapply flags_le_trans; [|exact Hle]. by eapply flags_set_false_le.
    + by injection Hstep as <-.
Qed.

End pruning_facts.

(** The edges of adjoint initial conditions take part in forward pruning: on
    the example tape, the second solve for [2] (at [(1, 0)]) has no
    transpose edge, since it solves for the one produced dependency it
    reads, but it is forward-active through the edge that the reverse
    traversal adds from its slot [0] to the earlier solve for [2]. *)
Example adjoint_initial_condition_edge_activates :
  TransposeComputationalGraph.__contains__ Examples.graph (1%Z, 0, 0) = false
  ∧ TransposeComputationalGraph.__contains__ Examples.graph (1%Z, 0, 1) = false
  ∧ TransposeComputationalGraph.transpose_deps_ics Examples.graph_blocks
      ≫= (λ ics, ics !! (1%Z, 0, 0)) = Some (0%Z, 1, 0)
  ∧ TransposeComputationalGraph.is_active Examples.graph 0 1%Z 0 = Some true.
Proof. vm_compute. repeat split; reflexivity. Qed.

(** ** [AdjointCache]: [cache] *)

Section cache_facts.
Context `{Backend}.
Import AdjointCache.

(** Copying a tuple of variables allocates one new object per variable,
    with the contents of the original, and leaves the old objects alone. *)
Lemma var_copy_all_spec (rs : list ref) (h : store) :
  Forall (λ r, r < length h) rs →
  ∃ h', var_copy_all rs h = Some (seq (length h) (length rs), h')
        ∧ length h' = length h + length rs
        ∧ (∀ r, r < length h → h' !! r = h !! r)
        ∧ ∀ i r, rs !! i = Some r → h' !! (length h + i) = h !! r.
Proof.
  revert h. induction rs as [|r rs IH]; intros h Hv; simpl.
  - exists h. split; [done|]. split; [lia|]. split; [done|]. done.
  - apply Forall_cons in Hv as [Hr Hrs].
    unfold var_copy, alloc.
    destruct (lookup_lt_is_Some_2 h r Hr) as [o Ho]. rewrite Ho.
    destruct (IH (h ++ [o])) as (h' & -> & Hlen & Hold & Hnew).
    { eapply Forall_impl; [exact Hrs|]. intros r' Hr'. simpl in *.
      rewrite length_app. simpl. lia. }
    rewrite length_app in *. simpl in *.
    replace (length h + 1) with (S (length h)) by lia.
    exists h'. split; [done|]. split; [lia|]. split.
    + intros r' Hr'. rewrite Hold by lia. by apply lookup_app_l.
    + intros [|i] r' Hi; simpl in Hi.
      * injection Hi as ->. rewrite Nat.add_0_r, Hold by lia.
        rewrite lookup_app_r, Nat.sub_diag by lia. by rewrite Ho.
      * replace (length h + S i) with (length h + 1 + i) by lia.
        rewrite (Hnew i r' Hi). apply lookup_app_l.
        rewrite Forall_forall in Hrs. apply Hrs.
        by eapply list_elem_of_lookup_2.
Qed.

Lemma store_aliases_lookup (adj_X : list ref) (aliases : list (nat * Z * nat))
    (c : gmap (nat * Z * nat) (list ref)) (k : nat * Z * nat) :
  store_aliases adj_X aliases c !! k
  = if decide (k ∈ aliases) then Some adj_X else c !! k.
Proof.
  unfold store_aliases. revert c.
  induction aliases as [|a aliases IH]; intros c; cbn [foldl].
  - rewrite decide_False; [done|]. apply not_elem_of_nil.
  - rewrite IH. destruct (decide (k ∈ aliases)) as [Hin|Hnin].
    + rewrite decide_True; [done|]. by right.
    + destruct (decide (a = k)) as [->|Hne].
      * rewrite lookup_insert_eq. rewrite decide_True; [done|]. by left.
      * rewrite lookup_insert_ne by done.
        rewrite decide_False; [done|].
        rewrite elem_of_cons. intros [?|?]; [congruence|done].
Qed.

(** C8, as amended: [cache] acts only when the key is registered in [_keys]
    and, in addition, [store=True] or the key has at least one alias.  It
    then takes the value already cached for the key if there is one, else
    copies of [adj_X] when [copy=True], else [adj_X] itself; it stores that
    one value under every alias, under the key itself only when
    [store=True], and changes no other entry.  In every other case, among
    them [store=True] with a key that is not registered, the cache and the
    store are left unchanged. *)
Theorem AdjointCache_cache_storage_condition
    (self : t) (k : nat * Z * nat) (adj_X : list ref) (copy store_ : bool)
    (h : store) :
  Forall (λ r, r < length h) adj_X →
  (_keys self !! k = None → cache self k adj_X copy store_ h = (Return tt, self, h))
  ∧ (_keys self !! k = Some [] → store_ = false →
     cache self k adj_X copy store_ h = (Return tt, self, h))
  ∧ (∀ aliases, _keys self !! k = Some aliases →
       store_ = true ∨ aliases ≠ [] →
       ∃ v self' h',
         cache self k adj_X copy store_ h = (Return tt, self', h')
         ∧ _keys self' = _keys self ∧ _cache_key self' = _cache_key self
         ∧ (∀ cached, _cache self !! k = Some cached → v = cached ∧ h' = h)
         ∧ (_cache self !! k = None → copy = false → v = adj_X ∧ h' = h)
         ∧ (_cache self !! k = None → copy = true →
              v = seq (length h) (length adj_X)
              ∧ (∀ r, r < length h → h' !! r = h !! r)
              ∧ ∀ i r, adj_X !! i = Some r → h' !! (length h + i) = h !! r)
         ∧ (∀ a, a ∈ aliases → _cache self' !! a = Some v)
         ∧ (store_ = true → _cache self' !! k = Some v)
         ∧ (∀ k', k' ∉ aliases → k' ≠ k ∨ store_ = false →
                  _cache self' !! k' = _cache self !! k')).
Proof.
  intros Hvalid. split; [|split].
  - intros Hk. unfold cache. by rewrite Hk.
  - intros Hk ->. unfold cache. by rewrite Hk.
  - intros aliases Hk Hcond. unfold cache. rewrite Hk.
    assert (Hc : store_ || bool_decide (0 < length aliases) = true).
    { destruct Hcond as [->|Hne]; [done|].
      rewrite (bool_decide_true (0 < length aliases)), orb_true_r; [done|].
      destruct aliases; [done|simpl; lia]. }
    rewrite Hc.
    destruct (var_copy_all_spec adj_X h Hvalid)
      as (hc & Hcopy & _ & Hold & Hnew).
    set (value := match _cache self !! k with
                  | Some cached => Some (cached, h)
                  | None => if copy then var_copy_all adj_X h
                            else Some (adj_X, h)
                  end).
    assert (Hv : ∃ v h', value = Some (v, h')
              ∧ (∀ cached, _cache self !! k = Some cached → v = cached ∧ h' = h)
              ∧ (_cache self !! k = None → copy = false → v = adj_X ∧ h' = h)
              ∧ (_cache self !! k = None → copy = true →
                   v = seq (length h) (length adj_X)
                   ∧ (∀ r, r < length h → h' !! r = h !! r)
                   ∧ ∀ i r, adj_X !! i = Some r →
                            h' !! (length h + i) = h !! r)).
    { subst value. destruct (_cache self !! k) as [cached|].
      - exists cached, h. split; [done|]. split; [|done].
        by intros ? [= ->].
      - destruct copy.
        + rewrite Hcopy. eexists _, _. split; [done|]. split; [done|].
          split; [done|]. by intros _ _.
        + exists adj_X, h. split; [done|]. split; [done|]. split; [|done].
          by intros _ _. }
    destruct Hv as (v & h' & -> & Hcached & Hnocopy & Hcopied).
    eexists v, _, h'. split; [done|]. simpl.
    split; [done|]. split; [done|]. split; [done|]. split; [done|].
    split; [done|]. split; [|split].
    + intros a Ha. rewrite store_aliases_lookup. by rewrite decide_True.
    + intros ->. rewrite store_aliases_lookup.
      destruct (decide (k ∈ aliases)); [done|]. by rewrite lookup_insert_eq.
    + intros k' Hk' Hne. rewrite store_aliases_lookup.
      rewrite decide_False by done.
      destruct store_; [|done]. destruct Hne as [Hne|?]; [|done].
      by rewrite lookup_insert_ne.
Qed.

End cache_facts.

(** C8, counterexample: on a new cache, [cache] with [store=True] stores
    nothing, because the key is not registered in [_keys]. *)
Lemma AdjointCache_cache_store_counterexample :
  ¬ (∀ (B : Backend) (self : AdjointCache.t) (k : nat * Z * nat)
       (adj_X : list ref) (copy : bool) (h : store),
       is_Some (AdjointCache._cache
                  (AdjointCache.cache self k adj_X copy true h).1.2 !! k)).
Proof.
  intros Hclaim.
  specialize (Hclaim Examples.Z_backend AdjointCache.__init__ (0, 0%Z, 0)
                [] false []).
  vm_compute in Hclaim. by destruct Hclaim.
Qed.

Lemma AdjointCache_cache_storage_condition_witness :
  ∃ v self' h',
    @AdjointCache.cache Examples.Z_backend Examples.shared_cache (0, 0%Z, 0)
      [0] true false Examples.one_variable = (Return tt, self', h')
    ∧ v = [1]
    ∧ AdjointCache._cache self' !! (1, 0%Z, 1) = Some v
    ∧ AdjointCache._cache self' !! (0, 0%Z, 0) = None
    ∧ h' !! 1 = Examples.one_variable !! 0.
Proof.
  destruct (@AdjointCache_cache_storage_condition Examples.Z_backend
              Examples.shared_cache (0, 0%Z, 0) [0] true false
              Examples.one_variable
              ltac:(repeat constructor))
    as (_ & _ & Hshare).
  destruct (Hshare [(1, 0%Z, 1)] ltac:(vm_compute; reflexivity)
              ltac:(right; discriminate))
    as (v & self' & h' & Hcall & _ & _ & _ & _ & Hcopy & Halias & _ & Hother).
  destruct (Hcopy ltac:(vm_compute; reflexivity) eq_refl) as (Hv & _ & Hnew).
  exists v, self', h'. split; [exact Hcall|]. split; [exact Hv|].
  split; [apply Halias; by left|]. split.
  - rewrite Hother; [vm_compute; reflexivity| |by right].
    intros Hin. apply list_elem_of_singleton in Hin. discriminate.
  - apply (Hnew 0 0). reflexivity.
Defined.

(** ** [AdjointCache]: [initialize] *)

Section initialize_facts.
Import TransposeComputationalGraph AdjointCache.

Lemma elem_of_concat {A : Type} (x : A) (ls : list (list A)) :
  x ∈ concat ls ↔ ∃ l, x ∈ l ∧ l ∈ ls.
Proof.
  induction ls as [|l ls IH]; simpl.
  - split; [by intros ?%elem_of_nil|]. by intros (l & _ & ?%elem_of_nil).
  - rewrite elem_of_app, IH. split.
    + intros [Hx|(l' & Hx & Hl')].
      * exists l. split; [done|by left].
      * exists l'. split; [done|by right].
    + intros (l' & Hx & Hl'). apply elem_of_cons in Hl' as [->|Hl'].
      * by left.
      * right. by exists l'.
Qed.

Lemma set_not_solved_all_spec (g g' : TransposeComputationalGraph.t)
    (ks : list (nat * Z * nat)) :
  set_not_solved_all g ks = Some g' →
  _active g' = _active g
  ∧ ∀ J_i n i, is_solved g' J_i n i
               = if decide ((J_i, n, i) ∈ ks) then Some false
                 else is_solved g J_i n i.
Proof.
  unfold set_not_solved_all. revert g.
  induction ks as [|[[J n] i] ks IH]; intros g; cbn [foldM].
  - intros [= <-]. split; [done|]. intros J_i n i.
    rewrite decide_False; [done|]. apply not_elem_of_nil.
  - destruct (set_not_solved g J n i) as [g1|] eqn:Hset; [|done].
    intros Hfold. destruct (IH _ Hfold) as [Hact Hsol].
    destruct (set_not_solved_active _ _ _ _ _ Hset) as [Hact1 _].
    split; [congruence|]. intros J_i n' i'. rewrite Hsol.
    rewrite (set_not_solved_is_solved _ _ _ _ _ _ _ _ Hset).
    destruct (decide ((J_i, n', i') ∈ ks)) as [Hin|Hnin].
    + rewrite decide_True; [done|]. by right.
    + destruct (decide (J_i = J ∧ n' = n ∧ i' = i)) as [(-> & -> & ->)|Hne].
      * rewrite decide_True; [done|]. by left.
      * rewrite decide_False; [done|]. rewrite elem_of_cons.
        intros [[= -> -> ->]|?]; [by apply Hne|done].
Qed.

(** The keys [initialize] marks as not solved: those present in the cache
    when it returns, and those registered as an alias of a root slot. *)
Lemma initialize_marks (self self' : AdjointCache.t) (J_roots : list variable)
    (tlm_adj : gmap tlm_key (list (nat * tlm_key))) (blocks : Blocks)
    (g g' : TransposeComputationalGraph.t) (cache_degree : option Z) :
  initialize self J_roots tlm_adj blocks g cache_degree = Some (self', g') →
  _active g' = _active g
  ∧ ∀ J_i n i,
      is_solved g' J_i n i
      = if decide ((J_i, n, i) ∈ (map_to_list (_cache self')).*1
                   ∨ (J_i, n, i) ∈ concat (map_to_list (_keys self')).*2)
        then Some false else is_solved g J_i n i.
Proof.
  unfold initialize. intros Hinit.
  apply bind_Some in Hinit as (cache_key & _ & Hinit).
  apply bind_Some in Hinit as (self3 & _ & Hinit).
  apply bind_Some in Hinit as (g1 & H1 & Hinit).
  apply bind_Some in Hinit as (g2 & H2 & [= <- <-]).
  destruct (set_not_solved_all_spec _ _ _ H1) as [Hact1 Hsol1].
  destruct (set_not_solved_all_spec _ _ _ H2) as [Hact2 Hsol2].
  split; [congruence|]. intros J_i n i. rewrite Hsol2, Hsol1.
  repeat case_decide; try done; tauto.
Qed.

(** C7, as amended: when [initialize] returns, every key present in the
    cache and every key registered as an alias (an entry of one of the lists
    of [_keys]) has been marked not solved, so [is_solved] returns [False]
    for it; the solved flag of every other key, and every active flag, is as
    before the call.  A root slot is not marked for having aliases. *)
Theorem initialize_marks_cached_and_aliases_not_solved
    (self self' : AdjointCache.t) (J_roots : list variable)
    (tlm_adj : gmap tlm_key (list (nat * tlm_key))) (blocks : Blocks)
    (g g' : TransposeComputationalGraph.t) (cache_degree : option Z) :
  initialize self J_roots tlm_adj blocks g cache_degree = Some (self', g') →
  (∀ J_i n i, is_Some (_cache self' !! (J_i, n, i)) →
              is_solved g' J_i n i = Some false)
  ∧ (∀ root aliases J_i n i,
       _keys self' !! root = Some aliases → (J_i, n, i) ∈ aliases →
       is_solved g' J_i n i = Some false)
  ∧ (∀ J_i n i,
       _cache self' !! (J_i, n, i) = None →
       (∀ root aliases, _keys self' !! root = Some aliases →
                        (J_i, n, i) ∉ aliases) →
       is_solved g' J_i n i = is_solved g J_i n i)
  ∧ _active g' = _active g.
Proof.
  intros Hinit. destruct (initialize_marks _ _ _ _ _ _ _ _ Hinit) as [Hact Hsol].
  split; [|split; [|split; [|done]]].
  - intros J_i n i [v Hv]. rewrite Hsol. rewrite decide_True; [done|].
    left. apply list_elem_of_fmap. exists ((J_i, n, i), v).
    split; [done|]. by apply elem_of_map_to_list.
  - intros root aliases J_i n i Hroot Hin. rewrite Hsol.
    rewrite decide_True; [done|]. right.
    apply elem_of_concat. exists aliases. split; [done|].
    apply list_elem_of_fmap. exists (root, aliases).
    split; [done|]. by apply elem_of_map_to_list.
  - intros J_i n i Hnone Hnot. rewrite Hsol. rewrite decide_False; [done|].
    intros [Hin|Hin].
    + apply list_elem_of_fmap in Hin as ([k v] & Hk & Hkv).
      apply elem_of_map_to_list in Hkv. simpl in *. congruence.
    + apply elem_of_concat in Hin as (aliases & Hin & Hal).
      apply list_elem_of_fmap in Hal as ([root al] & Hal & Hkv).
      apply elem_of_map_to_list in Hkv. simpl in *. subst al.
      by eapply Hnot.
Qed.

End initialize_facts.

Lemma initialize_marks_cached_and_aliases_not_solved_witness :
  TransposeComputationalGraph.is_solved Examples.sharing_result.2 0 0%Z 0
  = Some false.
Proof.
  apply (proj1 (proj2 (initialize_marks_cached_and_aliases_not_solved
                         AdjointCache.__init__ Examples.sharing_result.1
                         Examples.sharing_J_roots Examples.sharing_tlm_adj
                         Examples.sharing_blocks Examples.sharing_graph
                         Examples.sharing_result.2 None
                         ltac:(vm_compute; reflexivity)))
           (1, 0%Z, 1) [(0, 0%Z, 0)] 0 0%Z 0).
  - vm_compute. reflexivity.
  - by left.
Defined.

(** C7, counterexample: the root slot [(1, 0, 1)] has the alias [(0, 0, 0)]
    when [initialize] returns, and is still solved. *)
Lemma initialize_root_with_alias_counterexample :
  ¬ (∀ (self self' : AdjointCache.t) (J_roots : list variable)
       (tlm_adj : gmap tlm_key (list (nat * tlm_key))) (blocks : Blocks)
       (g g' : TransposeComputationalGraph.t) (cache_degree : option Z)
       (J_i : nat) (n : Z) (i : nat) (aliases : list (nat * Z * nat)),
       AdjointCache.initialize self J_roots tlm_adj blocks g cache_degree
       = Some (self', g') →
       AdjointCache._keys self' !! (J_i, n, i) = Some aliases →
       aliases ≠ [] →
       TransposeComputationalGraph.is_solved g' J_i n i = Some false).
Proof.
  intros Hclaim.
  specialize (Hclaim AdjointCache.__init__ Examples.sharing_result.1
                Examples.sharing_J_roots Examples.sharing_tlm_adj
                Examples.sharing_blocks Examples.sharing_graph
                Examples.sharing_result.2 None 1 0%Z 1 [(0, 0%Z, 0)]
                ltac:(vm_compute; reflexivity)
                ltac:(vm_compute; reflexivity)
                ltac:(discriminate)).
  vm_compute in Hclaim. discriminate.
Qed.

(** ** [AdjointCache]: the cache key *)

Section cache_key_facts.
Context `{Backend}.
Import TransposeComputationalGraph AdjointCache.

(** The traversal of [initialize] keeps every cached entry, and adds none to
    an empty cache. *)
Lemma share_entry_cache (g : TransposeComputationalGraph.t)
    (st st' : gmap (nat * Z * nat) (list ref)
              * gmap (nat * Z * nat) (list (nat * Z * nat))
              * gmap (Z * tlm_key) (nat * Z * nat))
    (e : (nat * Z * nat) * (Z * tlm_key)) :
  share_entry g st e = Some st' →
  (∀ k v, st.1.1 !! k = Some v → st'.1.1 !! k = Some v)
  ∧ (st.1.1 = ∅ → st'.1.1 = ∅).
Proof.
  destruct st as [[cache keys] eq_root], e as [[[J p] k] adj].
  unfold share_entry. intros Hs.
  apply bind_Some in Hs as (s & _ & Hs).
  destruct (s || bool_decide (is_Some (cache !! (J, p, k)))); [|done].
  destruct (eq_root !! adj) as [root|]; [|by injection Hs as <-].
  apply bind_Some in Hs as (aliases & _ & Hs).
  destruct (cache !! (J, p, k)) as [v|] eqn:Hv;
    [|by injection Hs as <-].
  destruct (cache !! root) as [w|] eqn:Hw; [by injection Hs as <-|].
  injection Hs as <-. simpl. split.
  - intros k' v' Hk'. rewrite lookup_insert_ne; [done|]. congruence.
  - intros ->. by rewrite lookup_empty in Hv.
Qed.

Lemma sharing_step_cache (g : TransposeComputationalGraph.t)
    (J_root_ids : list Z) (tlm_adj : gmap tlm_key (list (nat * tlm_key)))
    (cache_degree : option Z)
    (st st' : gmap (nat * Z * nat) (list ref)
              * gmap (nat * Z * nat) (list (nat * Z * nat))
              * gmap Z (list ((nat * Z * nat) * (Z * tlm_key))))
    (e : Z * nat * Equation) :
  sharing_step g J_root_ids tlm_adj cache_degree st e = Some st' →
  (∀ k v, st.1.1 !! k = Some v → st'.1.1 !! k = Some v)
  ∧ (st.1.1 = ∅ → st'.1.1 = ∅).
Proof.
  destruct st as [[cache keys] eqs], e as [[n i] eq].
  unfold sharing_step. destruct (is_marker eq); [by intros [= <-]|].
  intros Hs. apply bind_Some in Hs as (eqs1 & _ & Hs).
  apply bind_Some in Hs as ([[cache' keys'] eq_root'] & Hfold & [= <-]).
  simpl.
  apply (foldM_invariant
           (λ st : gmap (nat * Z * nat) (list ref)
                   * gmap (nat * Z * nat) (list (nat * Z * nat))
                   * gmap (Z * tlm_key) (nat * Z * nat),
              (∀ k v, cache !! k = Some v → st.1.1 !! k = Some v)
              ∧ (cache = ∅ → st.1.1 = ∅))
           (share_entry g) (default [] (eqs1 !! eq_id eq))
           (cache, keys, ∅) (cache', keys', eq_root'));
    [done| |exact Hfold].
  intros st0 a st1 _ [Hkeep Hemp] Hshare.
  destruct (share_entry_cache _ _ _ _ Hshare) as [Hkeep' Hemp'].
  split; [intros k v Hk; by apply Hkeep', Hkeep|].
  intros Hc. by apply Hemp', Hemp.
Qed.

(** What [initialize] does to the cached entries and to the cache key. *)
Lemma initialize_cache (self self' : AdjointCache.t) (J_roots : list variable)
    (tlm_adj : gmap tlm_key (list (nat * tlm_key))) (blocks : Blocks)
    (g g' : TransposeComputationalGraph.t) (cache_degree : option Z) :
  initialize self J_roots tlm_adj blocks g cache_degree = Some (self', g') →
  ∃ cache_key,
    compute_cache_key (J_root_id <$> J_roots) tlm_adj = Some cache_key
    ∧ (_cache_key self = Some cache_key →
       ∀ k v, _cache self !! k = Some v → _cache self' !! k = Some v)
    ∧ (_cache_key self ≠ Some cache_key → _cache self' = ∅)
    ∧ (cache_degree = None → _cache_key self' = Some cache_key).
Proof.
  unfold initialize. intros Hinit.
  apply bind_Some in Hinit as (cache_key & Hkey & Hinit).
  apply bind_Some in Hinit as (self3 & H3 & Hinit).
  apply bind_Some in Hinit as (g1 & _ & Hinit).
  apply bind_Some in Hinit as (g2 & _ & [= <- <-]).
  exists cache_key. split; [done|].
  set (self1 := if decide (_cache_key self = Some cache_key)
                then self else clear self) in *.
  assert (Hloop : (∀ k v, _cache self1 !! k = Some v →
                          _cache self3 !! k = Some v)
                  ∧ (_cache self1 = ∅ → _cache self3 = ∅)
                  ∧ (cache_degree = None → _cache_key self3 = Some cache_key)).
  { destruct (match cache_degree with
              | Some d => bool_decide (0 < d)%Z
              | None => true
              end) eqn:Hdeg.
    - apply bind_Some in H3 as ([[cache keys] eqs] & Hfold & H3).
      destruct (bool_decide (size eqs = 0)); [|done].
      injection H3 as <-. simpl.
      assert (HP : (∀ k v, _cache self1 !! k = Some v → cache !! k = Some v)
                   ∧ (_cache self1 = ∅ → cache = ∅)).
      { apply (foldM_invariant
                 (λ st : gmap (nat * Z * nat) (list ref)
                         * gmap (nat * Z * nat) (list (nat * Z * nat))
                         * gmap Z (list ((nat * Z * nat) * (Z * tlm_key))),
                    (∀ k v, _cache self1 !! k = Some v → st.1.1 !! k = Some v)
                    ∧ (_cache self1 = ∅ → st.1.1 = ∅))
                 (sharing_step g (J_root_id <$> J_roots) tlm_adj cache_degree)
                 (reverse (tape blocks)) (_cache self1, ∅, ∅)
                 (cache, keys, eqs)); [by split| |exact Hfold].
        intros st0 a st1 _ [Hkeep Hemp] Hstep.
        destruct (sharing_step_cache _ _ _ _ _ _ _ Hstep) as [Hkeep' Hemp'].
        split; [intros k v Hk; by apply Hkeep', Hkeep|].
        intros Hc. by apply Hemp', Hemp. }
      destruct HP as [? ?]. by repeat split.
    - injection H3 as <-. simpl. split; [done|]. split; [done|].
      intros ->. done. }
  destruct Hloop as (Hkeep & Hemp & Hck).
  split; [|split; [|done]].
  - intros Hsame. subst self1. by rewrite decide_True in Hkeep.
  - intros Hdiff. subst self1. rewrite decide_False in Hemp by done.
    by apply Hemp.
Qed.

Lemma step_keyed_or_cleared (cache_key : list (Z * tlm_key)) (c : call)
    (st : AdjointCache.t * store) :
  keyed_or_cleared cache_key st.1 → keyed_or_cleared cache_key (step c st).1.
Proof.
  destruct st as [self h]. simpl. intros Hinv.
  destruct c as [k adj_X copy store_|k copy|k copy|k|]; simpl.
  - unfold cache.
    destruct Hinv as [Hkey|(Hkey & Hc & Hk)].
    + destruct (_keys self !! k) as [aliases|]; [|by left].
      destruct (store_ || bool_decide (0 < length aliases)); [|by left].
      match goal with
      | |- context [match ?v with Some _ => _ | None => _ end] =>
          destruct v as [[? ?]|]
      end; by left.
    + rewrite Hk, lookup_empty. by right.
  - done.
  - unfold pop. destruct Hinv as [Hkey|(Hkey & Hc & Hk)].
    + destruct (_cache self !! k) as [adj_X|]; [|by left].
      destruct copy; [|by left].
      destruct (var_copy_all adj_X h) as [[? ?]|]; by left.
    + rewrite Hc, lookup_empty. by right.
  - unfold remove. destruct Hinv as [Hkey|(Hkey & Hc & Hk)].
    + destruct (_cache self !! k); by left.
    + rewrite Hc, lookup_empty. by right.
  - by right.
Qed.

Lemma run_keyed_or_cleared (cache_key : list (Z * tlm_key)) (cs : list call)
    (st : AdjointCache.t * store) :
  keyed_or_cleared cache_key st.1 → keyed_or_cleared cache_key (run cs st).1.
Proof.
  revert st. induction cs as [|c cs IH]; intros st Hinv; [done|].
  simpl. apply IH. by apply step_keyed_or_cleared.
Qed.

(** C2, as amended: take two successive calls of [initialize] with the
    default [cache_degree], with any calls of [cache], [get], [pop],
    [remove] and [clear] in between.  If the cache keys of the two calls
    (the tuples of pairs of root id and derivative-chain key, ordered by
    functional index) differ, and in particular if their sets of pairs
    differ, the second call leaves the cache empty.  If the two tuples are
    equal, every entry cached before the second call is present after it
    with the same value, [get] returns it, and it is marked not solved on
    [transpose_deps]. *)
Theorem AdjointCache_cache_key_invalidation
    (self0 self1 self2 : AdjointCache.t)
    (J_roots1 J_roots2 : list variable)
    (tlm_adj1 tlm_adj2 : gmap tlm_key (list (nat * tlm_key)))
    (blocks1 blocks2 : Blocks)
    (g1 g1' g2 g2' : TransposeComputationalGraph.t)
    (calls : list call) (h1 h : store)
    (key1 key2 : list (Z * tlm_key)) :
  initialize self0 J_roots1 tlm_adj1 blocks1 g1 None = Some (self1, g1') →
  compute_cache_key (J_root_id <$> J_roots1) tlm_adj1 = Some key1 →
  compute_cache_key (J_root_id <$> J_roots2) tlm_adj2 = Some key2 →
  initialize (run calls (self1, h1)).1 J_roots2 tlm_adj2 blocks2 g2 None
  = Some (self2, g2') →
  (key1 ≠ key2 → _cache self2 = ∅)
  ∧ ((list_to_set key1 : gset (Z * tlm_key)) ≠ list_to_set key2 →
     _cache self2 = ∅)
  ∧ (key1 = key2 →
     ∀ J_i n i v,
       _cache (run calls (self1, h1)).1 !! (J_i, n, i) = Some v →
       _cache self2 !! (J_i, n, i) = Some v
       ∧ get self2 (J_i, n, i) false h = (Return v, h)
       ∧ is_solved g2' J_i n i = Some false).
Proof.
  intros Hinit1 Hkey1 Hkey2 Hinit2.
  destruct (initialize_cache _ _ _ _ _ _ _ _ Hinit1)
    as (key1' & Hkey1' & _ & _ & Hstored).
  assert (key1' = key1) as -> by congruence.
  specialize (Hstored eq_refl).
  pose proof (run_keyed_or_cleared key1 calls (self1, h1) (or_introl Hstored))
    as Hinv.
  destruct (initialize_cache _ _ _ _ _ _ _ _ Hinit2)
    as (key2' & Hkey2' & Hkeep & Hclear & _).
  assert (key2' = key2) as -> by congruence.
  assert (Hdiff : key1 ≠ key2 → _cache self2 = ∅).
  { intros Hne. apply Hclear.
    destruct Hinv as [Hk|(Hk & _)]; rewrite Hk; congruence. }
  split; [done|]. split.
  - intros Hsets. apply Hdiff. by intros ->.
  - intros <- J_i n i v Hv.
    assert (Hv2 : _cache self2 !! (J_i, n, i) = Some v).
    { destruct Hinv as [Hk|(_ & Hc & _)].
      - by apply Hkeep.
      - rewrite Hc, lookup_empty in Hv. done. }
    split; [done|]. split.
    + unfold get. by rewrite Hv2.
    + destruct (initialize_marks _ _ _ _ _ _ _ _ Hinit2) as [_ Hsol].
      rewrite Hsol. rewrite decide_True; [done|].
      left. apply list_elem_of_fmap. exists ((J_i, n, i), v).
      split; [done|]. by apply elem_of_map_to_list.
Qed.

End cache_key_facts.

Lemma AdjointCache_cache_key_invalidation_witness :
  AdjointCache._cache Examples.same_second.1 !! (0, 0%Z, 0) = Some [0]
  ∧ @AdjointCache.get Examples.Z_backend Examples.same_second.1 (0, 0%Z, 0)
      false Examples.one_variable
    = (Return [0], Examples.one_variable)
  ∧ TransposeComputationalGraph.is_solved Examples.same_second.2 0 0%Z 0
    = Some false.
Proof.
  apply (proj2 (proj2 (@AdjointCache_cache_key_invalidation Examples.Z_backend
                  AdjointCache.__init__ Examples.swap_first.1
                  Examples.same_second.1
                  [Examples.var 10; Examples.var 20]
                  [Examples.var 10; Examples.var 20]
                  Examples.swap_tlm_adj Examples.swap_tlm_adj
                  Examples.swap_blocks Examples.swap_blocks
                  Examples.swap_graph_1 Examples.swap_first.2
                  Examples.swap_graph_1 Examples.same_second.2
                  [AdjointCache.Call_cache (0, 0%Z, 0) [0] false true]
                  Examples.one_variable Examples.one_variable
                  [(10%Z, []); (20%Z, [])] [(10%Z, []); (20%Z, [])]
                  ltac:(vm_compute; reflexivity)
                  ltac:(vm_compute; reflexivity)
                  ltac:(vm_compute; reflexivity)
                  ltac:(vm_compute; reflexivity)))
           eq_refl 0 0%Z 0 [0]).
  vm_compute. reflexivity.
Defined.

(** C2, counterexample: the functionals [10] and [20] are requested first in
    this order and then in the other.  The sets of pairs of root id and
    derivative-chain key of the two calls are equal, yet the second call
    clears the entry cached in between. *)
Lemma AdjointCache_same_set_cleared_counterexample :
  ¬ (∀ (B : Backend) (self0 self1 self2 : AdjointCache.t)
       (J_roots1 J_roots2 : list variable)
       (tlm_adj1 tlm_adj2 : gmap tlm_key (list (nat * tlm_key)))
       (blocks1 blocks2 : Blocks)
       (g1 g1' g2 g2' : TransposeComputationalGraph.t)
       (calls : list AdjointCache.call) (h1 : store)
       (key1 key2 : list (Z * tlm_key)),
       AdjointCache.initialize self0 J_roots1 tlm_adj1 blocks1 g1 None
       = Some (self1, g1') →
       AdjointCache.compute_cache_key
         (AdjointCache.J_root_id <$> J_roots1) tlm_adj1 = Some key1 →
       AdjointCache.compute_cache_key
         (AdjointCache.J_root_id <$> J_roots2) tlm_adj2 = Some key2 →
       AdjointCache.initialize (AdjointCache.run calls (self1, h1)).1
         J_roots2 tlm_adj2 blocks2 g2 None = Some (self2, g2') →
       (list_to_set key1 : gset (Z * tlm_key)) = list_to_set key2 →
       ∀ J_i n i v,
         AdjointCache._cache (AdjointCache.run calls (self1, h1)).1
           !! (J_i, n, i) = Some v →
         AdjointCache._cache self2 !! (J_i, n, i) = Some v).
Proof.
  intros Hclaim.
  specialize (Hclaim Examples.Z_backend
                AdjointCache.__init__ Examples.swap_first.1
                Examples.swap_second.1
                [Examples.var 10; Examples.var 20]
                [Examples.var 20; Examples.var 10]
                Examples.swap_tlm_adj Examples.swap_tlm_adj
                Examples.swap_blocks Examples.swap_blocks
                Examples.swap_graph_1 Examples.swap_first.2
                Examples.swap_graph_2 Examples.swap_second.2
                [AdjointCache.Call_cache (0, 0%Z, 0) [0] false true]
                Examples.one_variable
                [(10%Z, []); (20%Z, [])] [(20%Z, []); (10%Z, [])]
                ltac:(vm_compute; reflexivity)
                ltac:(vm_compute; reflexivity)
                ltac:(vm_compute; reflexivity)
                ltac:(vm_compute; reflexivity)
                ltac:(vm_compute; reflexivity)
                0 0%Z 0 [0]
                ltac:(vm_compute; reflexivity)).
  vm_compute in Hclaim. discriminate.
Qed.

(** ** [TransposeComputationalGraph]: the constructor returns *)

Section constructor_facts.
Import TransposeComputationalGraph.

Lemma foldM_is_Some {A S : Type} (P : S → Prop) (f : S → A → option S)
    (l : list A) (s : S) :
  P s → (∀ s a, a ∈ l → P s → ∃ s', f s a = Some s' ∧ P s') →
  ∃ s', foldM f s l = Some s' ∧ P s'.
Proof.
  revert s. induction l as [|a l IH]; intros s Hs Hstep; simpl.
  - by exists s.
  - destruct (Hstep s a) as (s1 & -> & Hs1); [by left|done|].
    apply IH; [done|]. intros s0 a0 Ha0. apply Hstep. by right.
Qed.

Lemma dep_map_is_Some (deps : list variable) (id : Z) :
  id ∈ var_id <$> deps → is_Some (dep_map deps !! id).
Proof.
  unfold dep_map, enumerate. generalize 0.
  generalize (∅ : gmap Z nat).
  induction deps as [|d deps IH]; intros dm s; simpl.
  - by intros ?%elem_of_nil.
  - intros Hin. destruct (decide (id ∈ var_id <$> deps)) as [Hd|Hd].
    + by apply IH.
    + apply elem_of_cons in Hin as [->|?]; [|done].
      clear IH Hd. revert s.
      assert (Hkeep : ∀ (dm : gmap Z nat) s,
                is_Some (dm !! var_id d) →
                is_Some (foldl (λ dm '(j, dep), <[var_id dep := j]> dm) dm
                           (enumerate_from s deps) !! var_id d)).
      { clear dm. induction deps as [|d' deps IH]; intros dm s Hs; [done|].
        simpl. apply IH. rewrite lookup_insert_is_Some.
        destruct (decide (var_id d' = var_id d)); [by left|by right]. }
      intros s. apply Hkeep. rewrite lookup_insert_eq. by eexists.
Qed.

Lemma earlier_trans (a b c : Z * nat) : earlier a b → earlier b c → earlier a c.
Proof. unfold earlier. lia. Qed.

Lemma earlier_assert (p n : Z) (k i : nat) :
  earlier (p, k) (n, i) →
  bool_decide (p < n)%Z || (bool_decide (n = p) && bool_decide (k < i)) = true.
Proof.
  unfold earlier. simpl. intros [Hlt|[-> Hlt]].
  - by rewrite bool_decide_true.
  - rewrite (bool_decide_true (n = n)), (bool_decide_true (k < i)) by done.
    apply orb_true_r.
Qed.

(** The loop over the outputs of one equation in the reverse traversal
    returns: its assertion holds and the output is found in [dep_map]. *)
Lemma ics_outputs_return (p : Z) (k : nat) (eq : Equation)
    (xs : list variable) (s : nat)
    (st : gmap Z (space_type * (Z * nat * nat))
          * gmap (Z * nat * nat) (Z * nat * nat)) :
  NoDup (var_id <$> xs) →
  (∀ x, x ∈ xs → var_id x ∈ var_id <$> dependencies eq) →
  later_entries (p, k) xs st.1 →
  ∃ st', foldM (ics_output p k eq) st (enumerate_from s xs) = Some st'
         ∧ later_entries (p, k) [] st'.1.
Proof.
  revert s st. induction xs as [|x xs IH]; intros s [last_eq ics] Hnd Hdeps Hinv.
  - exists (last_eq, ics). split; [done|]. exact Hinv.
  - simpl in Hnd. apply NoDup_cons in Hnd as [Hx Hnd].
    cbn [enumerate_from foldM].
    destruct (dep_map_is_Some (dependencies eq) (var_id x)) as [j' Hj'].
    { apply Hdeps. by left. }
    assert (Hout : ∃ ics', ics_output p k eq (last_eq, ics) (s, x)
                   = Some (<[var_id x :=
                               (var_space_type x (adj_X_type eq s),
                                (p, k, j'))]> last_eq, ics')).
    { unfold ics_output. rewrite Hj'.
      destruct (bool_decide (var_id x ∈ var_id <$>
                  adjoint_initial_condition_dependencies eq));
        [|by eexists].
      destruct (last_eq !! var_id x) as [[t [[n i] j]]|] eqn:Hl; [|by eexists].
      destruct (decide (var_space_type x (adj_X_type eq s) = t));
        [|by eexists].
      destruct (Hinv _ _ _ _ _ Hl) as [He|[_ Hn]].
      - rewrite (earlier_assert _ _ _ _ He). by eexists.
      - exfalso. apply Hn. simpl. by left. }
    destruct Hout as [ics' ->].
    apply IH; [done|intros x' Hx'; apply Hdeps; by right|].
    intros id t n i j. simpl.
    destruct (decide (var_id x = id)) as [<-|Hne].
    + rewrite lookup_insert_eq. intros [= <- <- <- <-]. by right.
    + rewrite lookup_insert_ne by done. intros Hl.
      destruct (Hinv _ _ _ _ _ Hl) as [?|[? Hn]]; [by left|right].
      split; [done|]. intros Hin. apply Hn. simpl. by right.
Qed.

Lemma build_transpose_deps_ics_returns (tp : list (Z * nat * Equation))
    (td : gmap (Z * nat * nat) (Z * nat * nat)) :
  StronglySorted tape_lt tp →
  Forall (λ e, well_formed_equation e.2) tp →
  is_Some (build_transpose_deps_ics tp td).
Proof.
  intros Hs Hwf. unfold build_transpose_deps_ics.
  assert (Hfold : ∀ st : gmap Z (space_type * (Z * nat * nat))
                         * gmap (Z * nat * nat) (Z * nat * nat),
            (∀ id t n i j, st.1 !! id = Some (t, (n, i, j)) →
                           Forall (λ e, earlier e.1 (n, i)) tp) →
            is_Some (foldM ics_step st (reverse tp))).
  { induction tp as [|[[p k] eq] tp IH] using rev_ind; intros st Hinv.
    - by eexists.
    - rewrite reverse_app. simpl.
      apply StronglySorted_app in Hs as (Hlt & Hs & _).
      apply Forall_app in Hwf as [Hwf He].
      apply Forall_singleton in He as [Hnd Hdeps]. simpl in *.
      destruct (ics_outputs_return p k eq (X eq) 0 st Hnd Hdeps)
        as (st' & Hstep & Hinv').
      { intros id t n i j Hl. left.
        specialize (Hinv _ _ _ _ _ Hl).
        apply Forall_app in Hinv as [_ Hinv].
        rewrite Forall_singleton in Hinv. exact Hinv. }
      unfold ics_step at 1. unfold enumerate. rewrite Hstep.
      apply IH; [done|done|].
      intros id t n i j Hl. apply Forall_forall. intros e' He'.
      assert (Hep : earlier e'.1 (p, k)).
      { apply (Hlt e' (p, k, eq) He'). by left. }
      destruct (Hinv' _ _ _ _ _ Hl) as [Hlater|[[= -> ->] _]]; [|done].
      by eapply earlier_trans. }
  destruct (Hfold (∅, td)) as [st ->]; [|by eexists].
  intros id t n i j. simpl. by rewrite lookup_empty.
Qed.

Lemma flags_set_cover (blocks : Blocks) (f : gmap Z (list bool))
    (n : Z) (i : nat) (eq : Equation) (v : bool) :
  flags_cover blocks f → eq_at blocks n i = Some eq →
  ∃ f', flags_set f n i v = Some f' ∧ flags_cover blocks f'.
Proof.
  intros Hc Heq.
  destruct (proj2 (flags_set_is_Some f n i v) (Hc _ _ _ Heq)) as [f' Hset].
  exists f'. split; [done|]. intros n' i' eq' Heq'.
  apply (flags_set_agree _ _ _ _ _ Hset). by eapply Hc.
Qed.

Lemma output_slot_cover (blocks : Blocks) (f : gmap Z (list bool))
    (p : Z) (k m : nat) :
  output_slot (tape blocks) (p, k, m) → flags_cover blocks f →
  is_Some (flags_get f p k).
Proof.
  intros (eqp & Hp & _) Hc. simpl in Hp. apply elem_of_tape in Hp.
  by eapply Hc.
Qed.

Lemma np_full_cover (blocks : Blocks) (v : bool) :
  flags_cover blocks (np_full (block_items blocks) v).
Proof.
  intros n i eq Heq. rewrite (np_full_get_Some _ _ _ _ _ Heq). by eexists.
Qed.

Lemma depends_on_active_is_Some (ics : gmap (Z * nat * nat) (Z * nat * nat))
    (af : gmap Z (list bool)) (n : Z) (i : nat) (js : list nat) :
  (∀ j p k m, ics !! (n, i, j) = Some (p, k, m) → is_Some (flags_get af p k)) →
  is_Some (depends_on_active ics af n i js).
Proof.
  intros Ht. induction js as [|j js IH]; simpl; [by eexists|].
  destruct (ics !! (n, i, j)) as [[[p k] m]|] eqn:He; [|done].
  destruct (Ht _ _ _ _ He) as [[|] ->]; [by eexists|done].
Qed.

Lemma forward_step_returns (blocks : Blocks)
    (ics : gmap (Z * nat * nat) (Z * nat * nat)) (aM : gset Z)
    (af : gmap Z (list bool)) (n : Z) (i : nat) (eq : Equation) :
  eq_at blocks n i = Some eq → flags_cover blocks af →
  (∀ key e, ics !! key = Some e → output_slot (tape blocks) e) →
  ∃ st', forward_step ics (aM, af) (n, i, eq) = Some st'
         ∧ flags_cover blocks st'.2.
Proof.
  intros Heq Hc Hics. unfold forward_step.
  assert (H1 : ∃ af1, (if is_Instruction eq then flags_set af n i true
                       else Some af) = Some af1 ∧ flags_cover blocks af1).
  { destruct (is_Instruction eq); [by eapply flags_set_cover|by exists af]. }
  destruct H1 as (af1 & -> & Hc1). simpl.
  assert (H2 : ∃ aM2 af2,
            (if bool_decide (0 < size aM) then
               if bool_decide (list_to_set (var_id <$> X eq) ## aM)
               then Some (aM, af1)
               else flags_set af1 n i true
                    ≫= λ af', Some (aM ∖ list_to_set (var_id <$> X eq), af')
             else Some (aM, af1)) = Some (aM2, af2)
            ∧ flags_cover blocks af2).
  { destruct (bool_decide (0 < size aM)); [|by exists aM, af1].
    destruct (bool_decide (list_to_set (var_id <$> X eq) ## aM));
      [by exists aM, af1|].
    destruct (flags_set_cover _ _ _ _ _ true Hc1 Heq) as (af' & -> & Hc').
    simpl. by eexists _, af'. }
  destruct H2 as (aM2 & af2 & -> & Hc2). simpl.
  destruct (Hc2 _ _ _ Heq) as [a ->]. simpl.
  destruct a; [by eexists|].
  destruct (depends_on_active_is_Some ics af2 n i
              (seq 0 (length (dependencies eq)))) as [d ->].
  { intros j p k m He. eapply output_slot_cover; [|done]. by eapply Hics. }
  simpl. destruct d; [|by eexists].
  destruct (flags_set_cover _ _ _ _ _ true Hc2 Heq) as (af3 & -> & Hc3).
  simpl. by eexists.
Qed.

Lemma mark_producers_returns (blocks : Blocks)
    (td : gmap (Z * nat * nat) (Z * nat * nat)) (n : Z) (i : nat)
    (aa : gmap Z (list bool)) (js : list nat) :
  flags_cover blocks aa →
  (∀ key e, td !! key = Some e → output_slot (tape blocks) e) →
  ∃ aa', mark_producers td n i aa js = Some aa' ∧ flags_cover blocks aa'.
Proof.
  intros Hc Htd. unfold mark_producers.
  apply (foldM_is_Some (flags_cover blocks)); [done|].
  intros aa0 j _ Hc0.
  destruct (td !! (n, i, j)) as [[[p k] m]|] eqn:He; [|by exists aa0].
  destruct (Htd _ _ He) as (eqp & Hp & _). simpl in Hp.
  apply elem_of_tape in Hp. by eapply flags_set_cover.
Qed.

Lemma adjoint_step_returns (blocks : Blocks)
    (td : gmap (Z * nat * nat) (Z * nat * nat)) (J_id : Z)
    (st : bool * gmap Z (list bool) * gmap Z (list bool))
    (n : Z) (i : nat) (eq : Equation) :
  eq_at blocks n i = Some eq →
  flags_cover blocks st.1.2 → flags_cover blocks st.2 →
  (∀ key e, td !! key = Some e → output_slot (tape blocks) e) →
  ∃ st', adjoint_step td J_id st (n, i, eq) = Some st'
         ∧ flags_cover blocks st'.1.2 ∧ flags_cover blocks st'.2.
Proof.
  destruct st as [[aJ aa] act]. simpl. intros Heq Hca Hcact Htd.
  unfold adjoint_step.
  assert (H1 : ∃ aJ1 aa1,
            (if aJ && bool_decide (J_id ∈ var_id <$> X eq)
             then flags_set aa n i true ≫= λ aa', Some (false, aa')
             else Some (aJ, aa)) = Some (aJ1, aa1)
            ∧ flags_cover blocks aa1).
  { destruct (aJ && bool_decide (J_id ∈ var_id <$> X eq));
      [|by exists aJ, aa].
    destruct (flags_set_cover _ _ _ _ _ true Hca Heq) as (aa' & -> & Hc').
    simpl. by eexists _, aa'. }
  destruct H1 as (aJ1 & aa1 & -> & Hc1). simpl.
  destruct (Hc1 _ _ _ Heq) as [a ->]. simpl. destruct a.
  - destruct (mark_producers_returns blocks td n i aa1
                (seq 0 (length (dependencies eq))) Hc1 Htd)
      as (aa2 & -> & Hc2).
    simpl. by eexists.
  - destruct (negb (is_Instruction eq)); [|by eexists].
    destruct (flags_set_cover _ _ _ _ _ false Hcact Heq) as (act' & -> & Hc').
    simpl. by eexists.
Qed.

(** On a tape of well-formed equations the constructor returns, whatever
    the functionals, the controls and the pruning options. *)
Theorem __init___returns_graph (Js M : list variable) (blocks : Blocks)
    (prune_forward prune_adjoint : bool) :
  Forall (λ e, well_formed_equation e.2) (tape blocks) →
  is_Some (__init__ Js M blocks prune_forward prune_adjoint).
Proof.
  intros Hwf. unfold __init__.
  pose proof (build_transpose_deps_targets (tape blocks)) as Htd.
  assert (Haf : ∃ af, active_forward prune_forward M (block_items blocks)
                        (tape blocks) (build_transpose_deps (tape blocks))
                      = Some af ∧ flags_cover blocks af).
  { destruct prune_forward; simpl;
      [|eexists; split; [done|apply np_full_cover]].
    unfold forward_prune.
    destruct (build_transpose_deps_ics_returns (tape blocks)
                (build_transpose_deps (tape blocks)) (tape_sorted blocks) Hwf)
      as [ics Hics].
    rewrite Hics. simpl.
    destruct (foldM_is_Some
                (λ st : gset Z * gmap Z (list bool), flags_cover blocks st.2)
                (forward_step ics) (tape blocks)
                (list_to_set (var_id <$> M),
                 np_full (block_items blocks) false))
      as (st & -> & Hc); [apply np_full_cover| |by exists st.2].
    intros [aM af] [[n i] eq] Hin Hc. apply elem_of_tape in Hin.
    apply (forward_step_returns blocks); [done|done|].
    intros key e.
    by apply (build_transpose_deps_ics_targets (tape blocks)
                (build_transpose_deps (tape blocks)) ics). }
  destruct Haf as (af & -> & Hc). simpl.
  destruct prune_adjoint; simpl; [|by eexists].
  match goal with
  | |- is_Some (mbind _ ?a) => assert (Hm : is_Some a)
  end.
  { apply mapM_is_Some_2, Forall_forall. intros J _. simpl.
    unfold adjoint_prune.
    destruct (foldM_is_Some
                (λ st : bool * gmap Z (list bool) * gmap Z (list bool),
                   flags_cover blocks st.1.2 ∧ flags_cover blocks st.2)
                (adjoint_step (build_transpose_deps (tape blocks)) (var_id J))
                (reverse (tape blocks))
                (true, np_full (block_items blocks) false, af))
      as (st & -> & _); [split; [apply np_full_cover|done]| |by eexists].
    intros st [[n i] eq] Hin [Hc1 Hc2].
    rewrite elem_of_reverse in Hin. apply elem_of_tape in Hin.
    destruct (adjoint_step_returns blocks
                (build_transpose_deps (tape blocks)) (var_id J) st n i eq
                Hin Hc1 Hc2 Htd) as (st' & -> & ?).
    by exists st'. }
  destruct Hm as [active ->]. simpl. by eexists.
Qed.

End constructor_facts.

(** * Further properties of [adjoint.py] *)

(** ** The transpose edges lead backwards *)

Section transpose_edge_facts.
Import TransposeComputationalGraph.

Lemma build_transpose_deps_key (tp : list (Z * nat * Equation))
    (n : Z) (i j : nat) (e : Z * nat * nat) :
  StronglySorted tape_lt tp →
  build_transpose_deps tp !! (n, i, j) = Some e →
  ∃ eq dep, (n, i, eq) ∈ tp ∧ dependencies eq !! j = Some dep.
Proof.
  intros Hs Hl.
  destruct (decide (Exists (λ e', e'.1 = (n, i)) tp)) as [Hex|Hnex].
  - apply Exists_exists in Hex as ([[n' i'] eq] & Hin & [= -> ->]).
    exists eq. pose proof Hin as Hin'.
    apply list_elem_of_split in Hin as (tp1 & tp2 & ->).
    destruct (tape_lt_split _ _ _ Hs) as [H1 H2]. simpl in H1, H2.
    rewrite build_transpose_deps_lookup in Hl.
    + destruct (dependencies eq !! j) as [dep|]; [|done]. by exists dep.
    + apply earlier_ne. eapply Forall_impl; [exact H1|]. by left.
    + apply earlier_ne. eapply Forall_impl; [exact H2|]. by right.
  - apply not_Exists_Forall in Hnex; [|intros e'; apply _].
    unfold build_transpose_deps in Hl.
    rewrite fold_transpose_deps_other in Hl by exact Hnex.
    simpl in Hl. by rewrite lookup_empty in Hl.
Qed.

(** X1: every edge of a graph the constructor returns starts at a dependency
    slot of an equation of the tape and leads to an output slot, holding the
    variable consumed, of an equation strictly earlier in tape order.  So an
    equation never has an edge to itself or to a later equation. *)
Theorem transpose_edges_lead_backwards
    (Js M : list variable) (blocks : Blocks)
    (prune_forward prune_adjoint : bool) (g : t)
    (n : Z) (i j : nat) (p : Z) (k m : nat) :
  __init__ Js M blocks prune_forward prune_adjoint = Some g →
  __getitem__ g (n, i, j) = Some (p, k, m) →
  ∃ eq dep eqp x,
    eq_at blocks n i = Some eq ∧ dependencies eq !! j = Some dep
    ∧ eq_at blocks p k = Some eqp ∧ X eqp !! m = Some x
    ∧ var_id x = var_id dep
    ∧ earlier (p, k) (n, i).
Proof.
  intros Hinit Hget.
  assert (Hg : _transpose_deps g = build_transpose_deps (tape blocks)).
  { unfold __init__ in Hinit. simpl in Hinit.
    apply bind_Some in Hinit as (af & _ & Hinit).
    apply bind_Some in Hinit as (active & _ & [= <-]). done. }
  unfold __getitem__ in Hget. rewrite Hg in Hget.
  destruct (build_transpose_deps_key _ _ _ _ _ (tape_sorted blocks) Hget)
    as (eq & dep & Hin & Hdep).
  apply (transpose_edge_sorted _ _ _ _ _ _ _ _ _ (tape_sorted blocks) Hin Hdep)
    in Hget as (eqp & Hp & Hm & He & _).
  destruct (last_slot_from_Some _ _ _ _ Hm) as (_ & x & Hx & Hid).
  rewrite Nat.sub_0_r in Hx.
  exists eq, dep, eqp, x. apply elem_of_tape in Hin, Hp. done.
Qed.

End transpose_edge_facts.

Lemma transpose_edges_lead_backwards_witness :
  ∃ eq dep eqp x,
    eq_at Examples.graph_blocks 1 2 = Some eq
    ∧ dependencies eq !! 1 = Some dep
    ∧ eq_at Examples.graph_blocks 1 0 = Some eqp ∧ X eqp !! 0 = Some x
    ∧ var_id x = var_id dep
    ∧ TransposeComputationalGraph.earlier (1%Z, 0) (1%Z, 2).
Proof.
  apply (transpose_edges_lead_backwards [Examples.var 5] [Examples.var 1]
           Examples.graph_blocks true true Examples.graph 1 2 1 1 0 0).
  - vm_compute. reflexivity.
  - vm_compute. reflexivity.
Defined.

(** ** Pruning: what stays active *)

Section active_facts.
Import TransposeComputationalGraph.

Lemma foldM_app_Some {A S : Type} (f : S → A → option S) (l1 l2 : list A)
    (s s'' : S) :
  foldM f s (l1 ++ l2) = Some s''
  ↔ ∃ s', foldM f s l1 = Some s' ∧ foldM f s' l2 = Some s''.
Proof.
  revert s. induction l1 as [|a l1 IH]; intros s; simpl.
  - split; [by exists s|]. by intros (s' & [= <-] & ?).
  - destruct (f s a) as [s1|]; [apply IH|].
    split; [done|]. by intros (s' & ? & _).
Qed.

(** What the constructor stores, in terms of the traversals. *)
Lemma __init___fields (Js M : list variable) (blocks : Blocks)
    (prune_forward prune_adjoint : bool) (g : t) :
  __init__ Js M blocks prune_forward prune_adjoint = Some g →
  ∃ af,
    active_forward prune_forward M (block_items blocks) (tape blocks)
      (build_transpose_deps (tape blocks)) = Some af
    ∧ _transpose_deps g = build_transpose_deps (tape blocks)
    ∧ _solved g = _active g
    ∧ _adj_ics g = (λ _, (build_adj_ics (tape blocks)).2) <$> Js
    ∧ if prune_adjoint
      then Forall2 (λ J act,
                      adjoint_prune (build_transpose_deps (tape blocks))
                        (block_items blocks) (tape blocks) af J = Some act)
                   Js (_active g)
      else _active g = (λ _, af) <$> Js.
Proof.
  unfold __init__. simpl. intros Hinit.
  apply bind_Some in Hinit as (af & Haf & Hinit).
  apply bind_Some in Hinit as (active & Hact & [= <-]). simpl.
  exists af. repeat (split; [done|]).
  destruct prune_adjoint.
  - by apply mapM_Some.
  - by injection Hact as <-.
Qed.

(** One round of the forward traversal touches the flag of the equation it
    visits only, and never clears a flag. *)
Lemma forward_step_own (ics : gmap (Z * nat * nat) (Z * nat * nat))
    (aM aM' : gset Z) (af af' : gmap Z (list bool))
    (n : Z) (i : nat) (eq : Equation) :
  forward_step ics (aM, af) (n, i, eq) = Some (aM', af') →
  flags_agree_except n i af af'
  ∧ (flags_get af n i = Some true → flags_get af' n i = Some true)
  ∧ (is_Instruction eq = true → flags_get af' n i = Some true)
  ∧ (∀ j p k m, j < length (dependencies eq) →
        ics !! (n, i, j) = Some (p, k, m) → (p, k) ≠ (n, i) →
        flags_get af p k = Some true → flags_get af' n i = Some true).
Proof.
  unfold forward_step. intros Hstep.
  apply bind_Some in Hstep as (af1 & H1 & Hstep).
  apply bind_Some in Hstep as ([aM2 af2] & H2 & Hstep).
  apply bind_Some in Hstep as (a & Ha & Hstep).
  assert (F1 : flags_agree_except n i af af1
               ∧ (flags_get af n i = Some true → flags_get af1 n i = Some true)
               ∧ (is_Instruction eq = true → flags_get af1 n i = Some true)).
  { destruct (is_Instruction eq).
    - split; [by eapply flags_set_agree|].
      rewrite (flags_get_set _ _ _ _ _ _ _ H1), decide_True by done. done.
    - injection H1 as <-. split; [apply flags_agree_except_refl|done]. }
  destruct F1 as (A1 & K1 & I1).
  assert (F2 : flags_agree_except n i af1 af2
               ∧ (flags_get af1 n i = Some true →
                  flags_get af2 n i = Some true)).
  { case_bool_decide.
    - case_bool_decide.
      + injection H2 as <- <-. split; [apply flags_agree_except_refl|done].
      + apply bind_Some in H2 as (af0 & Hset & [= <- <-]).
        split; [by eapply flags_set_agree|].
        rewrite (flags_get_set _ _ _ _ _ _ _ Hset), decide_True by done. done.
    - injection H2 as <- <-. split; [apply flags_agree_except_refl|done]. }
  destruct F2 as (A2 & K2).
  pose proof (flags_agree_except_trans _ _ _ _ _ A1 A2) as A12.
  destruct a.
  - injection Hstep as <- <-. split; [done|]. split; [auto|]. split; [auto|].
    intros. done.
  - apply bind_Some in Hstep as (d & Hd & Hstep). destruct d.
    + apply bind_Some in Hstep as (af3 & Hset & [= <- <-]).
      assert (Ht : flags_get af3 n i = Some true).
      { by rewrite (flags_get_set _ _ _ _ _ _ _ Hset), decide_True. }
      split; [|done].
      eapply flags_agree_except_trans; [exact A12|].
      by eapply flags_set_agree.
    + injection Hstep as <- <-. split; [done|]. split; [auto|]. split; [auto|].
      intros j p k m Hj He Hne Hf. exfalso.
      assert (Hf2 : flags_get af2 p k = Some true).
      { destruct A12 as [_ Hsame]. rewrite Hsame; [done|].
        intros [-> ->]. done. }
      clear -Hd He Hj Hf2.
      assert (Hin : j ∈ seq 0 (length (dependencies eq)))
        by (apply elem_of_seq; lia).
      induction (seq 0 (length (dependencies eq))) as [|j' js IH];
        [by apply elem_of_nil in Hin|].
      simpl in Hd. apply elem_of_cons in Hin as [->|Hin].
      * rewrite He, Hf2 in Hd. done.
      * destruct (ics !! (n, i, j')) as [[[p' k'] m']|]; [|by apply IH].
        destruct (flags_get af2 p' k') as [[|]|]; [done|by apply IH|done].
Qed.

(** The rounds for other equations leave a flag as it is. *)
Lemma forward_fold_other (ics : gmap (Z * nat * nat) (Z * nat * nat))
    (tp : list (Z * nat * Equation)) (st st' : gset Z * gmap Z (list bool))
    (n : Z) (i : nat) :
  Forall (λ e, e.1 ≠ (n, i)) tp →
  foldM (forward_step ics) st tp = Some st' →
  flags_get st'.2 n i = flags_get st.2 n i.
Proof.
  revert st. induction tp as [|[[q l] e] tp IH]; intros st Hne; cbn [foldM].
  - by intros [= <-].
  - apply Forall_cons in Hne as [Hne Htp]. simpl in Hne.
    destruct (forward_step ics st (q, l, e)) as [st1|] eqn:Hstep;
      [|intros; discriminate].
    intros Hfold. rewrite (IH _ Htp Hfold).
    destruct st as [aM af], st1 as [aM1 af1].
    destruct (forward_step_own _ _ _ _ _ _ _ _ Hstep) as ((_ & Hsame) & _).
    simpl. apply Hsame. intros [-> ->]. done.
Qed.

(** The forward traversal, split at the round of one equation. *)
Lemma forward_fold_split (ics : gmap (Z * nat * nat) (Z * nat * nat))
    (tp : list (Z * nat * Equation)) (st st' : gset Z * gmap Z (list bool))
    (n : Z) (i : nat) (eq : Equation) :
  StronglySorted tape_lt tp → (n, i, eq) ∈ tp →
  foldM (forward_step ics) st tp = Some st' →
  ∃ s1 s2,
    forward_step ics s1 (n, i, eq) = Some s2
    ∧ flags_get st'.2 n i = flags_get s2.2 n i
    ∧ ∀ p k, earlier (p, k) (n, i) →
             flags_get st'.2 p k = flags_get s1.2 p k.
Proof.
  intros Hs Hin Hfold. apply list_elem_of_split in Hin as (tp1 & tp2 & ->).
  destruct (tape_lt_split _ _ _ Hs) as [H1 H2]. simpl in H1, H2.
  apply foldM_app_Some in Hfold as (s1 & Hf1 & Hfold). cbn [foldM] in Hfold.
  destruct (forward_step ics s1 (n, i, eq)) as [s2|] eqn:Hstep;
    [|discriminate].
  exists s1, s2. split; [done|]. split.
  - apply (forward_fold_other ics tp2); [|done].
    apply earlier_ne. eapply Forall_impl; [exact H2|]. by right.
  - intros p k Hpk.
    rewrite (forward_fold_other ics tp2 s2 st' p k); [|
      eapply Forall_impl; [exact H2|]|done].
    + destruct s1 as [aM1 af1], s2 as [aM2 af2].
      destruct (forward_step_own _ _ _ _ _ _ _ _ Hstep) as ((_ & Hsame) & _).
      simpl. apply Hsame. intros [-> ->]. by apply earlier_irrefl in Hpk.
    + intros e' He' Heq. simpl in *. rewrite Heq in He'.
      by apply (earlier_asym _ _ Hpk).
Qed.

(** The flags [mark_producers] leaves set: those set before, and the
    producers of the dependencies of the equation. *)
Lemma mark_producers_spec (td : gmap (Z * nat * nat) (Z * nat * nat))
    (n : Z) (i : nat) (aa aa' : gmap Z (list bool)) (js : list nat) :
  mark_producers td n i aa js = Some aa' →
  ∀ p k, flags_get aa' p k = Some true
         ↔ flags_get aa p k = Some true
           ∨ ∃ j m, j ∈ js ∧ td !! (n, i, j) = Some (p, k, m).
Proof.
  unfold mark_producers. revert aa.
  induction js as [|j js IH]; intros aa; cbn [foldM].
  - intros [= <-] p k. split; [by left|].
    intros [?|(j & m & Hj & _)]; [done|]. by apply elem_of_nil in Hj.
  - destruct (td !! (n, i, j)) as [[[p0 k0] m0]|] eqn:Hj.
    + destruct (flags_set aa p0 k0 true) as [aa1|] eqn:Hset;
        [|intros; discriminate].
      intros Hfold p k. rewrite (IH _ Hfold p k).
      rewrite (flags_get_set _ _ _ _ _ _ _ Hset). split.
      * intros [Hold|(j' & m & Hj' & He)].
        -- case_decide as Hd; [|by left].
           destruct Hd as [-> ->]. right. exists j, m0. split; [left|done].
        -- right. exists j', m. split; [by right|done].
      * intros [Hold|(j' & m & Hj' & He)].
        -- left. by case_decide.
        -- apply elem_of_cons in Hj' as [->|Hj'].
           ++ left. rewrite Hj in He. injection He as <- <- <-.
              by rewrite decide_True.
           ++ right. by exists j', m.
    + intros Hfold p k. rewrite (IH _ Hfold p k). split.
      * intros [?|(j' & m & Hj' & He)]; [by left|].
        right. exists j', m. split; [by right|done].
      * intros [?|(j' & m & Hj' & He)]; [by left|].
        apply elem_of_cons in Hj' as [->|Hj']; [by rewrite Hj in He|].
        right. by exists j', m.
Qed.

(** The reverse traversal over the equations after [pre]: what is marked
    for the adjoint is reached from the functional, the functional is still
    looked for only while no equation visited solves for it, and an equation
    visited that stays active is an [Instruction] or is reached. *)
Lemma adjoint_fold_sound (blocks : Blocks) (J : variable)
    (td : gmap (Z * nat * nat) (Z * nat * nat)) (af : gmap Z (list bool))
    (pre tp : list (Z * nat * Equation))
    (aJ : bool) (aa act : gmap Z (list bool)) :
  tape blocks = pre ++ tp →
  foldM (adjoint_step td (var_id J))
        (true, np_full (block_items blocks) false, af) (reverse tp)
  = Some (aJ, aa, act) →
  (∀ n i, flags_get aa n i = Some true → adjoint_reachable blocks J td n i)
  ∧ (aJ = true → Forall (λ e, ¬ produces e.2 (var_id J)) tp)
  ∧ (∀ n i eq, (n, i, eq) ∈ tp → flags_get act n i = Some true →
       is_Instruction eq = true ∨ adjoint_reachable blocks J td n i).
Proof.
  revert pre aJ aa act.
  induction tp as [|[[n i] eq] tp IH]; intros pre aJ aa act Htape.
  - cbn. intros [= <- <- <-]. split; [|split].
    + intros n i Hf. by apply np_full_get in Hf.
    + by intros _.
    + intros n i eq Hin. by apply elem_of_nil in Hin.
  - rewrite reverse_cons. intros Hfold.
    apply foldM_app_Some in Hfold as ([[aJ0 aa0] act0] & Hfold & Hstep).
    cbn [foldM] in Hstep.
    destruct (adjoint_step td (var_id J) (aJ0, aa0, act0) (n, i, eq))
      as [st|] eqn:Hs; [|discriminate].
    injection Hstep as ->.
    destruct (IH (pre ++ [(n, i, eq)]) aJ0 aa0 act0) as (Ha & Hb & Hc);
      [by rewrite <- app_assoc|done|].
    pose proof (tape_sorted blocks) as Hsorted. rewrite Htape in Hsorted.
    destruct (tape_lt_split _ _ _ Hsorted) as [Hpre Hpost].
    simpl in Hpre, Hpost.
    assert (Heq : eq_at blocks n i = Some eq).
    { apply elem_of_tape. rewrite Htape. apply elem_of_app. right. left. }
    unfold adjoint_step in Hs.
    apply bind_Some in Hs as ([aJ1 aa1] & H1 & Hs).
    apply bind_Some in Hs as (a & Hget & Hs).
    assert (F1 : (∀ p k, flags_get aa1 p k = Some true →
                         adjoint_reachable blocks J td p k)
                 ∧ (aJ1 = true →
                    aJ0 = true ∧ ¬ produces eq (var_id J))).
    { destruct aJ0; simpl in H1.
      - case_bool_decide as Hprod.
        + apply bind_Some in H1 as (aa' & Hset & [= <- <-]).
          split; [|done]. intros p k.
          rewrite (flags_get_set _ _ _ _ _ _ _ Hset).
          case_decide as Hd; [|apply Ha]. destruct Hd as [-> ->]. intros _.
          apply (reachable_functional blocks J td n i eq); [done|done|].
          intros q l e He Hlater Hp.
          apply elem_of_tape in He. rewrite Htape in He.
          apply elem_of_app in He as [He|He].
          * rewrite Forall_forall in Hpre. apply Hpre in He. simpl in He.
            by apply (earlier_asym _ _ Hlater).
          * apply elem_of_cons in He as [[= -> -> ->]|He];
              [by apply earlier_irrefl in Hlater|].
            specialize (Hb eq_refl). rewrite Forall_forall in Hb.
            by apply Hb in He.
        + injection H1 as <- <-. split; [done|]. by intros _.
      - injection H1 as <- <-. split; [done|]. done. }
    destruct F1 as (Ha1 & Hb1).
    destruct a.
    + apply bind_Some in Hs as (aa2 & Hmark & [= <- <- <-]).
      split; [|split].
      * intros p k Hf.
        apply (mark_producers_spec _ _ _ _ _ _ Hmark) in Hf
          as [Hf|(j & m & _ & He)]; [by apply Ha1|].
        eapply reachable_producer; [|exact He]. by apply Ha1.
      * intros HJ. destruct (Hb1 HJ) as [-> Hnot].
        apply Forall_cons. split; [done|]. by apply Hb.
      * intros p k e Hin Hf. apply elem_of_cons in Hin as [[= -> -> ->]|Hin].
        -- right. by apply Ha1.
        -- by apply (Hc p k e).
    + destruct (is_Instruction eq) eqn:Hinstr; simpl in Hs.
      * injection Hs as <- <- <-. split; [done|]. split.
        -- intros HJ. destruct (Hb1 HJ) as [-> Hnot].
           apply Forall_cons. split; [done|]. by apply Hb.
        -- intros p k e Hin Hf.
           apply elem_of_cons in Hin as [[= -> -> ->]|Hin]; [by left|].
           by apply (Hc p k e).
      * apply bind_Some in Hs as (act' & Hset & [= <- <- <-]).
        split; [done|]. split.
        -- intros HJ. destruct (Hb1 HJ) as [-> Hnot].
           apply Forall_cons. split; [done|]. by apply Hb.
        -- intros p k e Hin.
           rewrite (flags_get_set _ _ _ _ _ _ _ Hset).
           destruct (decide (p = n ∧ k = i)) as [Hd|Hd]; [by intros [=]|].
           apply elem_of_cons in Hin as [[= -> -> ->]|Hin]; [tauto|].
           by apply (Hc p k e).
Qed.

(** One round of the reverse traversal clears the flag of the equation it
    visits only, and only if that equation is not an [Instruction] and is
    not marked for the adjoint. *)
Lemma adjoint_step_act (td : gmap (Z * nat * nat) (Z * nat * nat)) (J_id : Z)
    (aJ aJ' : bool) (aa aa' act act' : gmap Z (list bool))
    (n : Z) (i : nat) (eq : Equation) :
  adjoint_step td J_id (aJ, aa, act) (n, i, eq) = Some (aJ', aa', act') →
  (∀ p k, (p, k) ≠ (n, i) → flags_get act' p k = flags_get act p k)
  ∧ (is_Instruction eq = true → act' = act)
  ∧ (flags_get aa' n i = Some true → act' = act).
Proof.
  unfold adjoint_step. intros Hs.
  apply bind_Some in Hs as ([aJ1 aa1] & H1 & Hs).
  apply bind_Some in Hs as (a & Hget & Hs).
  destruct a.
  - apply bind_Some in Hs as (aa2 & Hmark & [= <- <- <-]). done.
  - destruct (is_Instruction eq); simpl in Hs.
    + injection Hs as <- <- <-. done.
    + apply bind_Some in Hs as (act1 & Hset & [= <- <- <-]).
      split; [|split]; [|done|congruence].
      intros p k Hne. rewrite (flags_get_set _ _ _ _ _ _ _ Hset).
      rewrite decide_False; [done|]. intros [-> ->]. done.
Qed.

(** The reverse traversal keeps the flag of an [Instruction]. *)
Lemma adjoint_fold_instruction (td : gmap (Z * nat * nat) (Z * nat * nat))
    (J_id : Z) (tp : list (Z * nat * Equation))
    (st st' : bool * gmap Z (list bool) * gmap Z (list bool))
    (n : Z) (i : nat) :
  (∀ eq, (n, i, eq) ∈ tp → is_Instruction eq = true) →
  foldM (adjoint_step td J_id) st (reverse tp) = Some st' →
  flags_get st'.2 n i = flags_get st.2 n i.
Proof.
  intros Hinstr.
  apply (foldM_invariant (λ s, flags_get s.2 n i = flags_get st.2 n i)
           (adjoint_step td J_id) (reverse tp) st st'); [done|].
  intros [[aJ aa] act] [[q l] e] [[aJ' aa'] act'] Hin HP Hstep.
  rewrite elem_of_reverse in Hin. simpl in *. rewrite <- HP.
  destruct (adjoint_step_act _ _ _ _ _ _ _ _ _ _ _ Hstep) as (Ho & Hi & _).
  destruct (decide ((n, i) = (q, l))) as [[= <- <-]|Hne]; [|by apply Ho].
  by rewrite (Hi (Hinstr _ Hin)).
Qed.

(** The flags of functional [J_i], when there is such a functional. *)
Lemma __init___active (Js M : list variable) (blocks : Blocks)
    (prune_forward prune_adjoint : bool) (g : t) (af : gmap Z (list bool))
    (J_i : nat) (J : variable) :
  __init__ Js M blocks prune_forward prune_adjoint = Some g →
  active_forward prune_forward M (block_items blocks) (tape blocks)
    (build_transpose_deps (tape blocks)) = Some af →
  Js !! J_i = Some J →
  ∃ act, _active g !! J_i = Some act
         ∧ if prune_adjoint
           then adjoint_prune (build_transpose_deps (tape blocks))
                  (block_items blocks) (tape blocks) af J = Some act
           else act = af.
Proof.
  intros Hinit Haf HJ.
  destruct (__init___fields _ _ _ _ _ _ Hinit) as (af' & Haf' & _ & _ & _ & Ha).
  rewrite Haf in Haf'. injection Haf' as <-.
  destruct prune_adjoint.
  - destruct (Forall2_lookup_l _ _ _ _ _ Ha HJ) as (act & Hact & Hprune).
    by exists act.
  - exists af. split; [|done]. rewrite Ha, list_lookup_fmap, HJ. done.
Qed.

(** The forward flag of an [Instruction] is set. *)
Lemma active_forward_instruction (prune_forward : bool) (M : list variable)
    (blocks : Blocks) (af : gmap Z (list bool))
    (n : Z) (i : nat) (eq : Equation) :
  active_forward prune_forward M (block_items blocks) (tape blocks)
    (build_transpose_deps (tape blocks)) = Some af →
  eq_at blocks n i = Some eq → is_Instruction eq = true →
  flags_get af n i = Some true.
Proof.
  intros Haf Heq Hinstr. destruct prune_forward; simpl in Haf.
  - unfold forward_prune in Haf.
    apply bind_Some in Haf as (ics & Hics & Haf).
    apply fmap_Some in Haf as (st' & Hfold & ->).
    destruct (forward_fold_split ics (tape blocks) _ st' n i eq
                (tape_sorted blocks) (proj2 (elem_of_tape _ _ _ _) Heq) Hfold)
      as ([aM1 af1] & [aM2 af2] & Hstep & Hfin & _).
    rewrite Hfin.
    by apply (forward_step_own _ _ _ _ _ _ _ _ Hstep).
  - injection Haf as <-. by eapply np_full_get_Some.
Qed.

(** X2: an [Instruction] of the tape is active for every functional,
    whatever the pruning options: neither the forward nor the reverse
    traversal of the constructor ever prunes it. *)
Theorem instructions_are_active (Js M : list variable) (blocks : Blocks)
    (prune_forward prune_adjoint : bool) (g : t)
    (J_i : nat) (n : Z) (i : nat) (eq : Equation) :
  __init__ Js M blocks prune_forward prune_adjoint = Some g →
  J_i < length Js →
  eq_at blocks n i = Some eq → is_Instruction eq = true →
  is_active g J_i n i = Some true.
Proof.
  intros Hinit HJ Heq Hinstr.
  destruct (__init___fields _ _ _ _ _ _ Hinit) as (af & Haf & _).
  apply lookup_lt_is_Some_2 in HJ as [J HJ].
  destruct (__init___active _ _ _ _ _ _ _ _ _ Hinit Haf HJ)
    as (act & Hact & Hprune).
  unfold is_active. rewrite Hact.
  pose proof (active_forward_instruction _ _ _ _ _ _ _ Haf Heq Hinstr) as Hf.
  destruct prune_adjoint; [|by subst].
  unfold adjoint_prune in Hprune.
  apply fmap_Some in Hprune as (st' & Hfold & ->).
  rewrite (adjoint_fold_instruction _ _ (tape blocks) _ st' n i
             (λ eq' Hin, eq_ind eq (λ e, is_Instruction e = true) Hinstr eq'
                (Some_inj _ _ (eq_trans (eq_sym Heq)
                                 (proj1 (elem_of_tape _ _ _ _) Hin))))
             Hfold).
  done.
Qed.

(** X3: with [prune_adjoint], an equation that is active for a functional
    and is not an [Instruction] is reached by the adjoint sweep: it is the
    last equation of the tape solving for the functional, or a chain of
    transpose edges leads from that equation to it. *)
Theorem adjoint_pruning_sound (Js M : list variable) (blocks : Blocks)
    (prune_forward : bool) (g : t)
    (J_i : nat) (J : variable) (n : Z) (i : nat) (eq : Equation) :
  __init__ Js M blocks prune_forward true = Some g →
  Js !! J_i = Some J →
  eq_at blocks n i = Some eq → is_Instruction eq = false →
  is_active g J_i n i = Some true →
  adjoint_reachable blocks J (_transpose_deps g) n i.
Proof.
  intros Hinit HJ Heq Hinstr.
  destruct (__init___fields _ _ _ _ _ _ Hinit) as (af & Haf & Htd & _).
  destruct (__init___active _ _ _ _ _ _ _ _ _ Hinit Haf HJ)
    as (act & Hact & Hprune).
  unfold is_active. rewrite Hact, Htd. intros Hflag.
  unfold adjoint_prune in Hprune.
  apply fmap_Some in Hprune as ([[aJ aa] act'] & Hfold & ->).
  destruct (adjoint_fold_sound blocks J _ af [] (tape blocks) aJ aa act'
              eq_refl Hfold) as (_ & _ & Hc).
  destruct (Hc n i eq) as [Hi|Hr]; [by apply elem_of_tape|done| |done].
  congruence.
Qed.

(** An edge of the tape leaves a dependency slot of an equation of the
    tape and leads to an earlier equation. *)
Lemma transpose_edge_backwards (blocks : Blocks) (n : Z) (i j : nat)
    (p : Z) (k m : nat) :
  build_transpose_deps (tape blocks) !! (n, i, j) = Some (p, k, m) →
  ∃ eq, eq_at blocks n i = Some eq ∧ j < length (dependencies eq)
        ∧ earlier (p, k) (n, i).
Proof.
  intros Hget.
  destruct (build_transpose_deps_key _ _ _ _ _ (tape_sorted blocks) Hget)
    as (eq & dep & Hin & Hdep).
  apply (transpose_edge_sorted _ _ _ _ _ _ _ _ _ (tape_sorted blocks) Hin Hdep)
    in Hget as (eqp & _ & _ & He & _).
  exists eq. split; [by apply elem_of_tape|]. split; [|done].
  by eapply lookup_lt_Some.
Qed.

(** One round of the reverse traversal, as to the flag that looks for the
    functional and the marks for the adjoint.  The equation visited is
    marked when it was marked before, or when it is the first equation
    visited that solves for the functional. *)
Lemma adjoint_step_aa (td : gmap (Z * nat * nat) (Z * nat * nat)) (J_id : Z)
    (aJ aJ' : bool) (aa aa' act act' : gmap Z (list bool))
    (n : Z) (i : nat) (eq : Equation) :
  adjoint_step td J_id (aJ, aa, act) (n, i, eq) = Some (aJ', aa', act') →
  let found := aJ = true ∧ produces eq J_id in
  let marked := flags_get aa n i = Some true ∨ found in
  (aJ' = true ↔ aJ = true ∧ ¬ produces eq J_id)
  ∧ (∀ p k, flags_get aa' p k = Some true
            ↔ flags_get aa p k = Some true
              ∨ ((p, k) = (n, i) ∧ found)
              ∨ (marked ∧ ∃ j m, j < length (dependencies eq)
                                 ∧ td !! (n, i, j) = Some (p, k, m)))
  ∧ (marked → act' = act).
Proof.
  intros Hs found marked. unfold adjoint_step in Hs.
  apply bind_Some in Hs as ([aJ1 aa1] & H1 & Hs).
  apply bind_Some in Hs as (a & Hget & Hs).
  assert (F1 : (aJ1 = true ↔ aJ = true ∧ ¬ produces eq J_id)
               ∧ (∀ p k, flags_get aa1 p k = Some true
                         ↔ flags_get aa p k = Some true
                           ∨ ((p, k) = (n, i) ∧ found))).
  { unfold found, produces. destruct aJ; simpl in H1.
    - destruct (decide (J_id ∈ var_id <$> X eq)) as [Hp|Hp].
      + rewrite bool_decide_eq_true_2 in H1 by done.
        apply bind_Some in H1 as (aa0 & Hset & [= <- <-]). split.
        * split; [done|]. by intros [_ ?].
        * intros p k. rewrite (flags_get_set _ _ _ _ _ _ _ Hset).
          destruct (decide (p = n ∧ k = i)) as [[-> ->]|Hd].
          -- split; [|done]. intros _. right. done.
          -- split; [by left|]. intros [?|[[= -> ->] _]]; [done|].
             by destruct Hd.
      + rewrite bool_decide_eq_false_2 in H1 by done.
        injection H1 as <- <-. split; [done|].
        intros p k. split; [by left|]. intros [?|[_ [_ ?]]]; done.
    - injection H1 as <- <-. split.
      + split; [done|]. by intros [? _].
      + intros p k. split; [by left|]. intros [?|[_ [? _]]]; done. }
  destruct F1 as (FJ & Faa).
  assert (Hm : flags_get aa1 n i = Some true ↔ marked).
  { rewrite Faa. unfold marked. split; intros [?|?]; [by left|right|by left|].
    - by destruct H.
    - by right. }
  destruct a.
  - apply bind_Some in Hs as (aa2 & Hmark & [= <- <- <-]).
    split; [done|]. split; [|done].
    intros p k. rewrite (mark_producers_spec _ _ _ _ _ _ Hmark p k), Faa.
    apply Hm in Hget. split.
    + intros [[?|?]|(j & m & Hj & He)]; [by left|by right; left|].
      right. right. split; [done|]. exists j, m. split; [|done].
      apply elem_of_seq in Hj. lia.
    + intros [?|[?|(_ & j & m & Hj & He)]]; [by left; left|by left; right|].
      right. exists j, m. split; [|done]. apply elem_of_seq. lia.
  - assert (Hnm : ¬ marked) by (rewrite <- Hm, Hget; done).
    split; [|split]; [| |done].
    + destruct (is_Instruction eq); simpl in Hs.
      * by injection Hs as <- <- <-.
      * apply bind_Some in Hs as (act1 & Hset & [= <- <- <-]). done.
    + assert (aa' = aa1) as ->.
      { destruct (is_Instruction eq); simpl in Hs.
        - by injection Hs as <- <- <-.
        - apply bind_Some in Hs as (act1 & Hset & [= <- <- <-]). done. }
      intros p k. rewrite Faa. split.
      * intros [?|?]; [by left|by right; left].
      * intros [?|[?|[? _]]]; [by left|by right|done].
Qed.

(** The reverse traversal over the equations after [pre] marks every
    equation visited that the adjoint sweep reaches, and leaves the flags
    of the marked equations, of the [Instruction]s and of the equations not
    visited yet as the forward traversal set them. *)
Lemma adjoint_fold_complete (blocks : Blocks) (J : variable)
    (af : gmap Z (list bool)) (pre tp : list (Z * nat * Equation))
    (aJ : bool) (aa act : gmap Z (list bool)) :
  tape blocks = pre ++ tp →
  foldM (adjoint_step (build_transpose_deps (tape blocks)) (var_id J))
        (true, np_full (block_items blocks) false, af) (reverse tp)
  = Some (aJ, aa, act) →
  (∀ n i eq, (n, i, eq) ∈ tp →
     adjoint_reachable blocks J (build_transpose_deps (tape blocks)) n i →
     flags_get aa n i = Some true)
  ∧ (∀ n i eq j p k m, (n, i, eq) ∈ tp → flags_get aa n i = Some true →
       build_transpose_deps (tape blocks) !! (n, i, j) = Some (p, k, m) →
       flags_get aa p k = Some true)
  ∧ (aJ = false → Exists (λ e, produces e.2 (var_id J)) tp)
  ∧ (∀ n i eq, (n, i, eq) ∈ tp →
       is_Instruction eq = true ∨ flags_get aa n i = Some true →
       flags_get act n i = flags_get af n i)
  ∧ (∀ n i eq, (n, i, eq) ∈ pre → flags_get act n i = flags_get af n i).
Proof.
  set (td := build_transpose_deps (tape blocks)).
  revert pre aJ aa act.
  induction tp as [|[[n i] eq] tp IH]; intros pre aJ aa act Htape.
  - cbn. intros [= <- <- <-].
    split; [|split; [|split; [|split]]]; try done.
    + intros n i eq Hin. by apply elem_of_nil in Hin.
    + intros n i eq j p k m Hin. by apply elem_of_nil in Hin.
  - rewrite reverse_cons. intros Hfold.
    apply foldM_app_Some in Hfold as ([[aJ0 aa0] act0] & Hfold & Hstep).
    cbn [foldM] in Hstep.
    destruct (adjoint_step td (var_id J) (aJ0, aa0, act0) (n, i, eq))
      as [st|] eqn:Hs; [|discriminate].
    injection Hstep as ->.
    destruct (IH (pre ++ [(n, i, eq)]) aJ0 aa0 act0)
      as (C1 & C2 & C3 & C4 & C5); [by rewrite <- app_assoc|done|].
    pose proof (tape_sorted blocks) as Hsorted. rewrite Htape in Hsorted.
    destruct (tape_lt_split _ _ _ Hsorted) as [Hpre Hpost].
    simpl in Hpre, Hpost. rewrite Forall_forall in Hpre, Hpost.
    assert (Heq : eq_at blocks n i = Some eq).
    { apply elem_of_tape. rewrite Htape. apply elem_of_app. right. left. }
    destruct (adjoint_step_aa _ _ _ _ _ _ _ _ _ _ _ Hs) as (SJ & Saa & Sact).
    destruct (adjoint_step_act _ _ _ _ _ _ _ _ _ _ _ Hs) as (So & Si & _).
    (* the marks of the equations after this one are not touched *)
    assert (Hlater : ∀ q l e, (q, l, e) ∈ tp →
              flags_get aa q l = Some true → flags_get aa0 q l = Some true).
    { intros q l e Hin Hf. apply Hpost in Hin. simpl in Hin.
      apply Saa in Hf as [?|[[[= -> ->] _]|(_ & j & m & _ & He)]]; [done| |].
      - by apply earlier_irrefl in Hin.
      - apply transpose_edge_backwards in He as (_ & _ & _ & He).
        by destruct (earlier_asym _ _ Hin). }
    assert (Hmarked : flags_get aa n i = Some true →
              flags_get aa0 n i = Some true
              ∨ aJ0 = true ∧ produces eq (var_id J)).
    { intros Hf.
      apply Saa in Hf as [?|[[_ ?]|(? & _)]]; [by left|by right|done]. }
    split; [|split; [|split; [|split]]].
    + intros q l e Hin Hreach.
      apply elem_of_cons in Hin as [[= -> -> ->]|Hin];
        [|apply Saa; left; by apply (C1 q l e)].
      apply Saa. inversion Hreach as [? ? e0 He0 Hp Hlast|n0 i0 j ? ? m Hr He];
        subst.
      * assert (e0 = eq) as -> by congruence.
        right. left. split; [done|]. split; [|done].
        destruct aJ0; [done|]. exfalso.
        destruct (proj1 (Exists_exists _ _) (C3 eq_refl))
          as ([[q l] e] & Hin & Hprod).
        apply (Hlast q l e); [|by apply (Hpost _ Hin)|done].
        apply elem_of_tape. rewrite Htape. apply elem_of_app. right.
        by right.
      * left. fold td in He.
        pose proof He as He'.
        apply transpose_edge_backwards in He' as (e0 & He0 & _ & Hearlier).
        apply elem_of_tape in He0. rewrite Htape in He0.
        apply elem_of_app in He0 as [He0|He0].
        { apply Hpre in He0. by destruct (earlier_asym _ _ Hearlier). }
        apply elem_of_cons in He0 as [[= -> -> ->]|He0];
          [by apply earlier_irrefl in Hearlier|].
        apply (C2 n0 i0 e0 j n i m He0); [|done]. by apply (C1 n0 i0 e0).
    + intros q l e j p k m Hin Hf He.
      apply elem_of_cons in Hin as [[= -> -> ->]|Hin].
      * apply Saa. right. right. split; [by apply Hmarked|].
        exists j, m. split; [|done].
        apply transpose_edge_backwards in He as (e0 & He0 & Hj & _).
        congruence.
      * apply Saa. left. apply (C2 q l e j p k m Hin); [|done].
        by apply (Hlater q l e).
    + intros ->. destruct aJ0.
      * apply Exists_cons. left. simpl.
        destruct (decide (var_id J ∈ var_id <$> X eq)) as [?|Hn]; [done|].
        pose proof (proj2 SJ (conj eq_refl Hn)). discriminate.
      * apply Exists_cons. right. by apply C3.
    + intros q l e Hin Hor.
      apply elem_of_cons in Hin as [[= -> -> ->]|Hin].
      * assert (act = act0) as ->.
        { destruct Hor as [?|Hf]; [by apply Si|].
          apply Sact. by apply Hmarked. }
        apply (C5 n i eq). apply elem_of_app. right. left.
      * rewrite So.
        -- apply (C4 q l e Hin).
           destruct Hor as [?|?]; [by left|right; by apply (Hlater q l e)].
        -- intros [= -> ->]. apply Hpost in Hin.
           by apply earlier_irrefl in Hin.
    + intros q l e Hin. rewrite So.
      * apply (C5 q l e). apply elem_of_app. by left.
      * intros [= -> ->]. apply Hpre in Hin. by apply earlier_irrefl in Hin.
Qed.

(** An edge the reverse traversal adds leads to the output at hand, from
    a later equation. *)
Lemma ics_output_backwards (p : Z) (k : nat) (eq : Equation)
    (st st' : gmap Z (space_type * (Z * nat * nat))
              * gmap (Z * nat * nat) (Z * nat * nat))
    (m : nat) (x : variable) :
  ics_output p k eq st (m, x) = Some st' →
  st'.2 = st.2
  ∨ ∃ n i j, st'.2 = <[(n, i, j) := (p, k, m)]> st.2 ∧ earlier (p, k) (n, i).
Proof.
  destruct st as [le ics0]. unfold ics_output. simpl.
  intros Hout. repeat case_match; simplify_eq/=; eauto.
  right. eexists _, _, _. split; [done|].
  match goal with H : _ || _ = true |- _ => rename H into Hb end.
  unfold earlier. simpl.
  apply orb_true_iff in Hb as [Hb|Hb].
  - apply bool_decide_eq_true in Hb. by left.
  - apply andb_true_iff in Hb as [Hb1 Hb2].
    apply bool_decide_eq_true in Hb1, Hb2. right. done.
Qed.

(** Every edge the forward traversal consults leads to an earlier
    equation. *)
Lemma transpose_deps_ics_backwards (blocks : Blocks)
    (ics : gmap (Z * nat * nat) (Z * nat * nat))
    (n : Z) (i j : nat) (p : Z) (k m : nat) :
  transpose_deps_ics blocks = Some ics →
  ics !! (n, i, j) = Some (p, k, m) → earlier (p, k) (n, i).
Proof.
  unfold transpose_deps_ics, build_transpose_deps_ics.
  intros Hics. apply fmap_Some in Hics as (st & Hfold & ->).
  revert n i j p k m.
  apply (foldM_invariant
           (λ st : gmap Z (space_type * (Z * nat * nat))
                   * gmap (Z * nat * nat) (Z * nat * nat),
              ∀ n i j p k m, st.2 !! (n, i, j) = Some (p, k, m) →
                             earlier (p, k) (n, i))
           ics_step (reverse (tape blocks))
           (∅, build_transpose_deps (tape blocks)) st);
    [| |exact Hfold].
  - simpl. intros n i j p k m He.
    by apply transpose_edge_backwards in He as (_ & _ & _ & He).
  - intros st0 [[p k] eq] st1 _ Hst0 Hstep. unfold ics_step in Hstep.
    apply (foldM_invariant
             (λ st : gmap Z (space_type * (Z * nat * nat))
                     * gmap (Z * nat * nat) (Z * nat * nat),
                ∀ n i j p k m, st.2 !! (n, i, j) = Some (p, k, m) →
                               earlier (p, k) (n, i))
             (ics_output p k eq) (enumerate (X eq)) st0 st1);
      [exact Hst0| |exact Hstep].
    intros st2 [m x] st3 _ Hst2 Hout.
    destruct (ics_output_backwards _ _ _ _ _ _ _ Hout)
      as [->|(n' & i' & j' & -> & Hearlier)]; [done|].
    intros n i j p0 k0 m0.
    destruct (decide ((n', i', j') = (n, i, j))) as [[= -> -> ->]|Hne].
    + rewrite lookup_insert_eq. by intros [= <- <- <-].
    + rewrite lookup_insert_ne by done. apply Hst2.
Qed.

(** One round of the forward traversal, as to the controls still looked
    for: the ids the equation solves for are struck off, and the equation is
    kept when one of them was still looked for. *)
Lemma forward_step_controls (ics : gmap (Z * nat * nat) (Z * nat * nat))
    (aM aM' : gset Z) (af af' : gmap Z (list bool))
    (n : Z) (i : nat) (eq : Equation) :
  forward_step ics (aM, af) (n, i, eq) = Some (aM', af') →
  (∀ id, id ∈ aM' ↔ id ∈ aM ∧ ¬ produces eq id)
  ∧ ((∃ id, produces eq id ∧ id ∈ aM) → flags_get af' n i = Some true).
Proof.
  unfold forward_step, produces. intros Hstep.
  apply bind_Some in Hstep as (af1 & H1 & Hstep).
  apply bind_Some in Hstep as ([aM2 af2] & H2 & Hstep).
  apply bind_Some in Hstep as (a & Ha & Hstep).
  assert (F2 : (∀ id, id ∈ aM2 ↔ id ∈ aM ∧ id ∉ var_id <$> X eq)
               ∧ ((∃ id, id ∈ var_id <$> X eq ∧ id ∈ aM) →
                  flags_get af2 n i = Some true)).
  { destruct (decide (0 < size aM)) as [Hsz|Hsz].
    - rewrite bool_decide_eq_true_2 in H2 by done.
      destruct (decide (list_to_set (var_id <$> X eq) ## aM)) as [Hd|Hd].
      + rewrite bool_decide_eq_true_2 in H2 by done.
        injection H2 as <- <-. split.
        * intros id. split; [|by intros [? _]]. intros Hin. split; [done|].
          intros Hx. apply (Hd id); [|done]. by apply elem_of_list_to_set.
        * intros (id & Hx & Hin). exfalso. apply (Hd id); [|done].
          by apply elem_of_list_to_set.
      + rewrite bool_decide_eq_false_2 in H2 by done.
        apply bind_Some in H2 as (af0 & Hset & [= <- <-]). split.
        * intros id. rewrite elem_of_difference, elem_of_list_to_set. done.
        * intros _.
          by rewrite (flags_get_set _ _ _ _ _ _ _ Hset), decide_True.
    - rewrite bool_decide_eq_false_2 in H2 by done.
      injection H2 as <- <-.
      assert (aM = ∅) as ->.
      { apply leibniz_equiv, size_empty_iff. lia. }
      split.
      + intros id. split; [intros Hin|intros [Hin _]];
          by apply not_elem_of_empty in Hin.
      + intros (id & _ & Hin). by apply not_elem_of_empty in Hin. }
  destruct F2 as (FM & Fhit).
  assert (aM' = aM2 ∧ (flags_get af2 n i = Some true →
                       flags_get af' n i = Some true)) as [-> Hkeep].
  { destruct a.
    - by injection Hstep as <- <-.
    - apply bind_Some in Hstep as (d & Hd & Hstep). destruct d.
      + apply bind_Some in Hstep as (af3 & Hset & [= <- <-]).
        split; [done|]. intros _.
        by rewrite (flags_get_set _ _ _ _ _ _ _ Hset), decide_True.
      + by injection Hstep as <- <-. }
  split; [done|]. intros H. by apply Hkeep, Fhit.
Qed.

(** The forward traversal over the equations of [pre], the beginning of
    the tape: the controls still looked for are those no equation visited
    solves for, and the flags set are those of the equations to keep. *)
Lemma forward_fold_exact (blocks : Blocks) (M : list variable)
    (ics : gmap (Z * nat * nat) (Z * nat * nat))
    (pre post : list (Z * nat * Equation))
    (aM : gset Z) (af : gmap Z (list bool)) :
  transpose_deps_ics blocks = Some ics →
  tape blocks = pre ++ post →
  foldM (forward_step ics)
        (list_to_set (var_id <$> M), np_full (block_items blocks) false) pre
  = Some (aM, af) →
  (∀ id, id ∈ aM ↔ id ∈ var_id <$> M
                    ∧ Forall (λ e, ¬ produces e.2 id) pre)
  ∧ (∀ n i, flags_get af n i = Some true → forward_active blocks M ics n i)
  ∧ (∀ n i eq, (n, i, eq) ∈ pre → forward_active blocks M ics n i →
       flags_get af n i = Some true).
Proof.
  intros Hics. revert post aM af.
  induction pre as [|[[n i] eq] pre IH] using rev_ind; intros post aM af Htape.
  - cbn. intros [= <- <-]. split; [|split].
    + intros id. rewrite elem_of_list_to_set. split; [|by intros [? _]].
      intros ?. split; [done|]. apply Forall_nil_2.
    + intros n i Hf. by apply np_full_get in Hf.
    + intros n i eq Hin. by apply elem_of_nil in Hin.
  - intros Hfold.
    apply foldM_app_Some in Hfold as ([aM0 af0] & Hfold & Hstep).
    cbn [foldM] in Hstep.
    destruct (forward_step ics (aM0, af0) (n, i, eq)) as [st|] eqn:Hs;
      [|discriminate].
    injection Hstep as ->.
    rewrite <- app_assoc in Htape. simpl in Htape.
    destruct (IH ((n, i, eq) :: post) aM0 af0 Htape Hfold) as (I1 & I2 & I3).
    pose proof (tape_sorted blocks) as Hsorted. rewrite Htape in Hsorted.
    destruct (tape_lt_split _ _ _ Hsorted) as [Hpre Hpost].
    simpl in Hpre, Hpost. rewrite Forall_forall in Hpre, Hpost.
    assert (Heq : eq_at blocks n i = Some eq).
    { apply elem_of_tape. rewrite Htape. apply elem_of_app. right. left. }
    assert (Hbefore : ∀ q l e, eq_at blocks q l = Some e →
              earlier (q, l) (n, i) → (q, l, e) ∈ pre).
    { intros q l e He Hearlier. apply elem_of_tape in He.
      rewrite Htape in He. apply elem_of_app in He as [?|He]; [done|].
      apply elem_of_cons in He as [[= -> -> ->]|He].
      - by apply earlier_irrefl in Hearlier.
      - apply Hpost in He. by destruct (earlier_asym _ _ Hearlier). }
    destruct (forward_step_controls _ _ _ _ _ _ _ _ Hs) as (SM & Shit).
    destruct (forward_step_own _ _ _ _ _ _ _ _ Hs)
      as ((_ & Sother) & Skeep & Sinstr & Sdep).
    destruct (forward_step_sound _ _ _ _ _ _ _ _ Hs) as (_ & _ & Ssound).
    assert (Hfirst : ∀ id, id ∈ aM0 ↔
              id ∈ var_id <$> M
              ∧ ∀ q l e, eq_at blocks q l = Some e → earlier (q, l) (n, i) →
                         ¬ produces e id).
    { intros id. rewrite I1, Forall_forall. split; intros [HM Hno].
      - split; [done|]. intros q l e He Hearlier.
        by apply (Hno (q, l, e)), Hbefore.
      - split; [done|]. intros [[q l] e] Hin. simpl.
        apply (Hno q l e).
        + apply elem_of_tape. rewrite Htape. apply elem_of_app. by left.
        + by apply (Hpre _ Hin). }
    split; [|split].
    + intros id. rewrite SM, I1, Forall_app, Forall_singleton. simpl. tauto.
    + intros q l Hf.
      apply Ssound in Hf
        as [Hf|(-> & -> & [Hi|[(id & Hp & Hin)|(j & p & k & m & Hj & He & Hf)]])].
      * by apply I2.
      * by apply (active_instruction blocks M ics n i eq).
      * apply Hfirst in Hin as [HM Hno].
        by apply (active_control blocks M ics n i eq id).
      * apply (active_dependency blocks M ics n i eq j p k m); try done.
        by apply I2.
    + intros q l e Hin Hact.
      apply elem_of_app in Hin as [Hin|Hin].
      * rewrite Sother; [by apply (I3 q l e)|].
        intros [-> ->]. apply Hpre in Hin. by apply earlier_irrefl in Hin.
      * apply list_elem_of_singleton in Hin as [= -> -> ->].
        inversion Hact as [? ? e0 He0 Hi|? ? e0 id He0 Hp HM Hno
                          |? ? e0 j p k m He0 Hj He Hpk]; subst;
          assert (e0 = eq) as -> by congruence.
        -- by apply Sinstr.
        -- apply Shit. exists id. split; [done|]. by apply Hfirst.
        -- pose proof (transpose_deps_ics_backwards _ _ _ _ _ _ _ _ Hics He)
             as Hearlier.
           apply (Sdep j p k m Hj He).
           { intros [= -> ->]. by apply earlier_irrefl in Hearlier. }
           assert (Hslot : output_slot (tape blocks) (p, k, m)).
           { apply (build_transpose_deps_ics_targets (tape blocks)
                      (build_transpose_deps (tape blocks)) ics (n, i, j));
               [apply build_transpose_deps_targets|exact Hics|exact He]. }
           destruct Hslot as (ep & Hep & _). simpl in Hep.
           apply elem_of_tape in Hep.
           apply (I3 p k ep); [|done]. by apply Hbefore.
Qed.

(** X5: what forward pruning keeps.  In a graph built with [prune_forward]
    and without [prune_adjoint], an equation is active exactly when it is
    an [Instruction], or the first equation of the tape solving for a
    control, or has a dependency slot whose edge (a transpose edge or an
    adjoint initial condition edge) leads to an active equation. *)
Theorem forward_pruning_exact (Js M : list variable) (blocks : Blocks)
    (g : t) (ics : gmap (Z * nat * nat) (Z * nat * nat))
    (J_i : nat) (n : Z) (i : nat) :
  __init__ Js M blocks true false = Some g →
  transpose_deps_ics blocks = Some ics →
  J_i < length Js →
  is_active g J_i n i = Some true ↔ forward_active blocks M ics n i.
Proof.
  intros Hinit Hics HJ.
  destruct (__init___fields _ _ _ _ _ _ Hinit) as (af & Haf & _).
  apply lookup_lt_is_Some_2 in HJ as [J HJ].
  destruct (__init___active _ _ _ _ _ _ _ _ _ Hinit Haf HJ)
    as (act & Hact & ->).
  unfold is_active. rewrite Hact.
  simpl in Haf. unfold forward_prune in Haf.
  apply bind_Some in Haf as (ics' & Hics' & Haf).
  unfold transpose_deps_ics in Hics. rewrite Hics in Hics'.
  injection Hics' as <-.
  apply fmap_Some in Haf as ([aM af'] & Hfold & ->). simpl.
  destruct (forward_fold_exact blocks M ics (tape blocks) [] aM af' Hics
              (eq_sym (app_nil_r _)) Hfold) as (_ & I2 & I3).
  split; [apply I2|]. intros Hact'.
  assert (∃ eq, eq_at blocks n i = Some eq) as [eq Heq].
  { inversion Hact'; subst; eauto. }
  apply (I3 n i eq); [by apply elem_of_tape|done].
Qed.

(** X4: what adjoint pruning keeps.  An equation is active for a functional
    in the graph built with [prune_adjoint] exactly when it is active in
    the graph built without it (same tape, functionals, controls and
    [prune_forward]) and it is an [Instruction] or is reached by the adjoint
    sweep from the last equation solving for the functional. *)
Theorem adjoint_pruning_exact (Js M : list variable) (blocks : Blocks)
    (prune_forward : bool) (g g' : t)
    (J_i : nat) (J : variable) (n : Z) (i : nat) (eq : Equation) :
  __init__ Js M blocks prune_forward true = Some g →
  __init__ Js M blocks prune_forward false = Some g' →
  Js !! J_i = Some J →
  eq_at blocks n i = Some eq →
  is_active g J_i n i = Some true
  ↔ is_active g' J_i n i = Some true
    ∧ (is_Instruction eq = true
       ∨ adjoint_reachable blocks J (_transpose_deps g) n i).
Proof.
  intros Hinit Hinit' HJ Heq.
  destruct (__init___fields _ _ _ _ _ _ Hinit) as (af & Haf & Htd & _).
  destruct (__init___active _ _ _ _ _ _ _ _ _ Hinit Haf HJ)
    as (act & Hact & Hprune).
  destruct (__init___active _ _ _ _ _ _ _ _ _ Hinit' Haf HJ)
    as (act' & Hact' & ->).
  unfold is_active. rewrite Hact, Hact', Htd.
  pose proof (adjoint_prune_le _ _ _ _ _ _ Hprune) as Hle.
  unfold adjoint_prune in Hprune.
  apply fmap_Some in Hprune as ([[aJ aa] act0] & Hfold & ->). simpl in *.
  destruct (adjoint_fold_sound blocks J _ af [] (tape blocks) aJ aa act0
              eq_refl Hfold) as (_ & _ & Hs).
  destruct (adjoint_fold_complete blocks J af [] (tape blocks) aJ aa act0
              eq_refl Hfold) as (C1 & _ & _ & C4 & _).
  apply elem_of_tape in Heq. split.
  - intros Hf. split; [by apply Hle|]. by apply (Hs n i eq).
  - intros [Hf Hor]. rewrite (C4 n i eq Heq); [done|].
    destruct Hor as [?|Hr]; [by left|right]. by apply (C1 n i eq).
Qed.

End active_facts.

(** ** Forward pruning and the forward dependency graph of the tape *)

Section forward_dependency_facts.
Import TransposeComputationalGraph.

(** [dep_map] sends an id to a slot of the dependencies that holds it. *)
Lemma dep_map_lookup (deps : list variable) (id : Z) (j : nat) :
  dep_map deps !! id = Some j →
  ∃ dep, deps !! j = Some dep ∧ var_id dep = id.
Proof.
  unfold dep_map. revert id j.
  apply (foldl_invariant
           (λ dm : gmap Z nat,
              ∀ id j, dm !! id = Some j →
                      ∃ dep, deps !! j = Some dep ∧ var_id dep = id)).
  - intros id j. by rewrite lookup_empty.
  - intros dm [j' dep'] Hin Hdm id j.
    apply elem_of_enumerate_from in Hin as [_ Hin].
    rewrite Nat.sub_0_r in Hin.
    destruct (decide (var_id dep' = id)) as [<-|Hne].
    + rewrite lookup_insert_eq. intros [= <-]. by exists dep'.
    + rewrite lookup_insert_ne by done. apply Hdm.
Qed.

(** A transpose edge follows the data. *)
Lemma transpose_edge_follows_data (tp : list (Z * nat * Equation))
    (key e : Z * nat * nat) :
  StronglySorted tape_lt tp →
  build_transpose_deps tp !! key = Some e → follows_data tp key e.
Proof.
  destruct key as [[n i] j], e as [[p k] m]. intros Hs Hget.
  destruct (build_transpose_deps_key _ _ _ _ _ Hs Hget)
    as (eq & dep & Hin & Hdep).
  apply (transpose_edge_sorted _ _ _ _ _ _ _ _ _ Hs Hin Hdep) in Hget
    as (eqp & Hp & Hm & He & Hb).
  apply last_slot_from_Some in Hm as (_ & x & Hx & Hid).
  rewrite Nat.sub_0_r in Hx.
  exists eq, dep, eqp, x. simpl. repeat (split; [done|]).
  intros q l e' Hq H1 H2. apply (Hb q l e' Hq H1). by left.
Qed.

(** What one round of the loop over the outputs does to [last_eq]. *)
Lemma ics_output_last_eq (p : Z) (k : nat) (eq : Equation)
    (st st' : gmap Z (space_type * (Z * nat * nat))
              * gmap (Z * nat * nat) (Z * nat * nat))
    (m : nat) (x : variable) :
  ics_output p k eq st (m, x) = Some st' →
  ∃ j, dep_map (dependencies eq) !! var_id x = Some j
       ∧ st'.1 = <[var_id x := (var_space_type x (adj_X_type eq m),
                                (p, k, j))]> st.1.
Proof.
  destruct st as [le ics0]. unfold ics_output. simpl.
  intros Hout. repeat case_match; simplify_eq/=; eauto.
Qed.

(** An edge the reverse traversal adds starts at the slot that [last_eq]
    holds for the output at hand. *)
Lemma ics_output_edge (p : Z) (k : nat) (eq : Equation)
    (st st' : gmap Z (space_type * (Z * nat * nat))
              * gmap (Z * nat * nat) (Z * nat * nat))
    (m : nat) (x : variable) :
  ics_output p k eq st (m, x) = Some st' →
  st'.2 = st.2
  ∨ ∃ t n i j, st.1 !! var_id x = Some (t, (n, i, j))
               ∧ earlier (p, k) (n, i)
               ∧ st'.2 = <[(n, i, j) := (p, k, m)]> st.2.
Proof.
  destruct st as [le ics0]. unfold ics_output. simpl.
  intros Hout. repeat case_match; simplify_eq/=; eauto.
  right. eexists _, _, _, _. split; [done|]. split; [|done].
  match goal with H : _ || _ = true |- _ => rename H into Hb end.
  unfold earlier. simpl.
  apply orb_true_iff in Hb as [Hb|Hb].
  - apply bool_decide_eq_true in Hb. by left.
  - apply andb_true_iff in Hb as [Hb1 Hb2].
    apply bool_decide_eq_true in Hb1, Hb2. right. done.
Qed.

(** After the loop over the outputs of the equation at [(p, k)], the
    entries of [last_eq] for the ids it solves for are its own. *)
Lemma ics_outputs_own (p : Z) (k : nat) (eq : Equation)
    (xs : list variable) (s : nat)
    (st st' : gmap Z (space_type * (Z * nat * nat))
              * gmap (Z * nat * nat) (Z * nat * nat)) (id : Z) :
  foldM (ics_output p k eq) st (enumerate_from s xs) = Some st' →
  id ∈ var_id <$> xs ∨ (∃ t j, st.1 !! id = Some (t, (p, k, j))) →
  ∃ t j, st'.1 !! id = Some (t, (p, k, j)).
Proof.
  revert s st. induction xs as [|x xs IH]; intros s st; cbn [enumerate_from foldM].
  - intros [= <-] [Hin|Hown]; [|done]. by apply elem_of_nil in Hin.
  - destruct (ics_output p k eq st (s, x)) as [st1|] eqn:Hout; [|done].
    intros Hfold Hor. apply (IH _ _ Hfold).
    destruct (ics_output_last_eq _ _ _ _ _ _ _ Hout) as (j' & _ & Hle).
    rewrite Hle.
    destruct (decide (var_id x = id)) as [<-|Hne].
    + right. rewrite lookup_insert_eq. by eexists _, _.
    + rewrite lookup_insert_ne by done.
      destruct Hor as [Hin|Hown]; [|by right].
      left. rewrite fmap_cons in Hin.
      apply elem_of_cons in Hin as [?|?]; [congruence|done].
Qed.

(** The loop over the outputs of one equation of the tape, in the reverse
    traversal: the edges follow the data, and [last_eq] holds, for an id,
    a slot of the next equation that solves for it. *)
Lemma ics_outputs_follow_data (tp pre post : list (Z * nat * Equation))
    (p : Z) (k : nat) (eq0 : Equation)
    (st st' : gmap Z (space_type * (Z * nat * nat))
              * gmap (Z * nat * nat) (Z * nat * nat)) :
  StronglySorted tape_lt tp → tp = pre ++ (p, k, eq0) :: post →
  (∀ key e, st.2 !! key = Some e → follows_data tp key e) →
  (∀ id t s, st.1 !! id = Some (t, s) → next_reader post id s) →
  foldM (ics_output p k eq0) st (enumerate (X eq0)) = Some st' →
  (∀ key e, st'.2 !! key = Some e → follows_data tp key e)
  ∧ ∀ id t s, st'.1 !! id = Some (t, s) →
              next_reader ((p, k, eq0) :: post) id s.
Proof.
  intros Hs -> Hedges Hlast Hfold.
  destruct (tape_lt_split _ _ _ Hs) as [Hpre Hpost]. simpl in Hpre, Hpost.
  rewrite Forall_forall in Hpre. rewrite Forall_forall in Hpost.
  set (tp := pre ++ (p, k, eq0) :: post) in *.
  set (Q := λ st : gmap Z (space_type * (Z * nat * nat))
                   * gmap (Z * nat * nat) (Z * nat * nat),
         (∀ key e, st.2 !! key = Some e → follows_data tp key e)
         ∧ ∀ id t s, st.1 !! id = Some (t, s) →
             next_reader post id s
             ∨ (s.1 = (p, k)
                ∧ ∃ dep, dependencies eq0 !! s.2 = Some dep
                         ∧ var_id dep = id)).
  assert (HQ : Q st').
  { apply (foldM_invariant Q (ics_output p k eq0) (enumerate (X eq0)) st st');
      [| |exact Hfold].
    { split; [done|]. intros id t s Hl. left. by eapply Hlast. }
    intros [le ics0] [m x] [le' ics'] Hmx [HE HL] Hout. simpl in HE, HL.
    apply elem_of_enumerate_from in Hmx as [_ Hmx].
    rewrite Nat.sub_0_r in Hmx.
    split; simpl.
    - destruct (ics_output_edge _ _ _ _ _ _ _ Hout)
        as [Heq|(t & n & i & j & Hl & Hearlier & Heq)]; simpl in *; subst ics';
        [done|].
      intros key e. destruct (decide ((n, i, j) = key)) as [<-|Hne].
      2:{ rewrite lookup_insert_ne by done. apply HE. }
      rewrite lookup_insert_eq. intros [= <-].
      destruct (HL _ _ _ Hl) as [(eq & dep & Hin & Hdep & Hid & Hnone)|[Hpk _]].
      2:{ simpl in Hpk. injection Hpk as -> ->.
          by apply earlier_irrefl in Hearlier. }
      simpl in Hin, Hdep, Hnone.
      exists eq, dep, eq0, x. simpl.
      split; [apply elem_of_app; right; by right|]. split; [done|].
      split; [apply elem_of_app; right; by left|]. split; [done|].
      split; [done|]. split; [done|].
      intros q l e' Hq H1 H2. rewrite Hid.
      apply elem_of_app in Hq as [Hq|Hq].
      + apply Hpre in Hq. simpl in Hq. by apply earlier_asym in Hq.
      + apply elem_of_cons in Hq as [[= -> -> ->]|Hq].
        * by apply earlier_irrefl in H1.
        * by apply (Hnone q l e').
    - destruct (ics_output_last_eq _ _ _ _ _ _ _ Hout) as (j' & Hj' & Hle).
      simpl in Hle. subst le'. intros id t s.
      destruct (decide (var_id x = id)) as [<-|Hne].
      + rewrite lookup_insert_eq. intros [= <- <-]. right. split; [done|].
        simpl. by apply dep_map_lookup in Hj'.
      + rewrite lookup_insert_ne by done. apply HL. }
  destruct HQ as [HE HL]. split; [done|].
  intros id t [[n i] j] Hl.
  destruct (HL _ _ _ Hl) as [(eq & dep & Hin & Hdep & Hid & Hnone)
                            |(Hpk & dep & Hdep & Hid)]; simpl in *.
  - exists eq, dep. simpl. split; [by right|]. split; [done|]. split; [done|].
    intros q l e Hq Hearlier.
    apply elem_of_cons in Hq as [[= -> -> ->]|Hq]; [|by apply (Hnone q l e)].
    intros Hprod.
    destruct (ics_outputs_own p k eq0 (X eq0) 0 st st' id Hfold)
      as (t' & j' & Hown); [by left|].
    rewrite Hl in Hown. injection Hown as _ -> -> _.
    apply Hpost in Hin. simpl in Hin. by apply earlier_irrefl in Hin.
  - injection Hpk as -> ->. exists eq0, dep. simpl.
    split; [by left|]. split; [done|]. split; [done|].
    intros q l e Hq Hearlier.
    apply elem_of_cons in Hq as [[= -> -> ->]|Hq].
    + by apply earlier_irrefl in Hearlier.
    + apply Hpost in Hq. simpl in Hq. by apply earlier_asym in Hq.
Qed.

(** The reverse traversal, visiting the equations [post] at the end of the
    tape. *)
Lemma ics_fold_follows_data (tp : list (Z * nat * Equation))
    (td : gmap (Z * nat * nat) (Z * nat * nat)) :
  StronglySorted tape_lt tp →
  (∀ key e, td !! key = Some e → follows_data tp key e) →
  ∀ post pre st,
    tp = pre ++ post →
    foldM ics_step (∅, td) (reverse post) = Some st →
    (∀ key e, st.2 !! key = Some e → follows_data tp key e)
    ∧ ∀ id t s, st.1 !! id = Some (t, s) → next_reader post id s.
Proof.
  intros Hs Htd. induction post as [|[[p k] eq0] post IH]; intros pre st Htp.
  - rewrite reverse_nil. cbn [foldM]. intros [= <-]. split; [done|].
    intros id t s. simpl. by rewrite lookup_empty.
  - rewrite reverse_cons. intros Hfold.
    apply foldM_app_Some in Hfold as (st1 & Hfold1 & Hstep).
    cbn [foldM] in Hstep.
    destruct (ics_step st1 (p, k, eq0)) as [st2|] eqn:Hstep2; [|done].
    injection Hstep as ->. unfold ics_step in Hstep2.
    destruct (IH (pre ++ [(p, k, eq0)]) st1) as [HE HL]; [|done|].
    { by rewrite <- app_assoc. }
    by apply (ics_outputs_follow_data tp pre post p k eq0 st1 st).
Qed.

(** Every edge the forward traversal consults joins an equation to one it
    depends on. *)
Lemma transpose_deps_ics_depends_on (blocks : Blocks)
    (ics : gmap (Z * nat * nat) (Z * nat * nat))
    (n : Z) (i j : nat) (p : Z) (k m : nat) :
  transpose_deps_ics blocks = Some ics →
  ics !! (n, i, j) = Some (p, k, m) →
  depends_on blocks (n, i) (p, k).
Proof.
  unfold transpose_deps_ics, build_transpose_deps_ics.
  intros Hics He. apply fmap_Some in Hics as (st & Hfold & ->).
  destruct (ics_fold_follows_data (tape blocks)
              (build_transpose_deps (tape blocks)) (tape_sorted blocks)
              (λ key e, transpose_edge_follows_data _ key e
                          (tape_sorted blocks))
              (tape blocks) [] st eq_refl Hfold) as [HE _].
  destruct (HE _ _ He) as (eq & dep & eqp & x & Hin & Hdep & Hp & Hx & Hid
                           & Hearlier & Hnone).
  simpl in *. exists eq, eqp, dep. simpl.
  split; [by apply elem_of_tape|]. split; [by apply elem_of_tape|].
  split; [by eapply list_elem_of_lookup_2|].
  split.
  { unfold produces. rewrite <- Hid. apply list_elem_of_fmap.
    exists x. split; [done|]. by eapply list_elem_of_lookup_2. }
  split; [done|].
  intros q l e Hq. apply Hnone. by apply elem_of_tape.
Qed.

(** An equation reached along the edges the forward traversal consults is
    reached in the forward dependency graph of the tape. *)
Lemma forward_reachable_from_controls (blocks : Blocks) (M : list variable)
    (ics : gmap (Z * nat * nat) (Z * nat * nat)) (n : Z) (i : nat) :
  transpose_deps_ics blocks = Some ics →
  forward_reachable blocks M ics n i → reachable_from_controls blocks M n i.
Proof.
  intros Hics Hr.
  induction Hr as [n i eq id Heq Hp HM|n i eq j p k m Heq Hj He _ IH].
  - by eapply reached_control.
  - apply (reached_dependency _ _ n i p k); [|done].
    by eapply transpose_deps_ics_depends_on.
Qed.

(** C4: on a tape whose instructions have no outputs, with
    [prune_forward=True] an equation that is not an [Instruction] and is not
    reached from the controls [M] in the forward dependency graph of the
    tape (an equation depends on the most recent earlier equation that
    solves for one of its dependencies) is inactive for every functional
    (whatever [prune_adjoint] is); with [prune_forward=False] every equation
    is marked forward-active, and with [prune_adjoint=False] as well the
    constructor returns a graph in which every equation is active for every
    functional. *)
Theorem forward_pruning_sound (Js M : list variable) (blocks : Blocks) :
  Forall (λ e, is_Instruction e.2 = true → X e.2 = []) (tape blocks) →
  (∀ prune_adjoint g J_i n i eq,
     __init__ Js M blocks true prune_adjoint = Some g →
     J_i < length Js → eq_at blocks n i = Some eq →
     is_Instruction eq = false →
     ¬ reachable_from_controls blocks M n i →
     is_active g J_i n i = Some false)
  ∧ (∃ af, active_forward false M (block_items blocks) (tape blocks)
             (build_transpose_deps (tape blocks)) = Some af
           ∧ ∀ n i eq, eq_at blocks n i = Some eq →
                       flags_get af n i = Some true)
  ∧ ∃ g, __init__ Js M blocks false false = Some g
         ∧ ∀ J_i n i eq, J_i < length Js → eq_at blocks n i = Some eq →
                         is_active g J_i n i = Some true.
Proof.
  intros Hinstr. split; [|split].
  - intros prune_adjoint g J_i n i eq Hinit HJ Heq HI Hnr.
    unfold __init__ in Hinit. simpl in Hinit.
    apply bind_Some in Hinit as (af & Haf & Hinit).
    apply bind_Some in Hinit as (active & Hact & [= <-]).
    assert (Hics : ∃ ics, transpose_deps_ics blocks = Some ics).
    { unfold forward_prune in Haf.
      apply bind_Some in Haf as (ics & Hics & _). by exists ics. }
    destruct Hics as [ics Hics].
    destruct (forward_prune_sound _ _ _ _ Hinstr Hics Haf) as [Hshape Hsound].
    assert (Haf_ni : flags_get af n i = Some false).
    { destruct (proj2 (Hshape n i)) as [b Hb].
      { rewrite (np_full_get_Some _ _ _ _ _ Heq). by eexists. }
      destruct b; [|done].
      destruct (Hsound _ _ Hb) as (eq' & Heq' & [HI'|Hr]); [congruence|].
      exfalso. apply Hnr. by eapply forward_reachable_from_controls. }
    assert (Hle : ∃ act, active !! J_i = Some act ∧ flags_le act af).
    { destruct prune_adjoint.
      - apply mapM_Some in Hact.
        destruct (lookup_lt_is_Some_2 active J_i) as [act Hlook].
        { by rewrite <- (Forall2_length _ _ _ Hact). }
        destruct (Forall2_lookup_r _ _ _ _ _ Hact Hlook) as (J & _ & HJp).
        exists act. split; [done|]. by eapply adjoint_prune_le.
      - injection Hact as <-. exists af. split; [|apply flags_le_refl].
        rewrite list_lookup_fmap.
        destruct (lookup_lt_is_Some_2 Js J_i HJ) as [J ->]. done. }
    destruct Hle as (act & Hlook & Hle).
    unfold is_active. simpl. rewrite Hlook.
    destruct (Hle n i) as [Hs Ht].
    destruct (proj2 Hs) as [b Hb]; [by rewrite Haf_ni; eexists|].
    destruct b; [|done]. specialize (Ht Hb). congruence.
  - exists (np_full (block_items blocks) true). split; [done|].
    intros n i eq Heq. by eapply np_full_get_Some.
  - eexists. split; [reflexivity|].
    intros J_i n i eq HJ Heq. unfold is_active. simpl.
    rewrite list_lookup_fmap.
    destruct (lookup_lt_is_Some_2 Js J_i HJ) as [J ->]. simpl.
    by eapply np_full_get_Some.
Qed.

End forward_dependency_facts.

Lemma forward_pruning_sound_witness :
  TransposeComputationalGraph.is_active Examples.prune_graph 0 0%Z 1
  = Some false.
Proof.
  assert (Hnr : ¬ TransposeComputationalGraph.reachable_from_controls
                    Examples.prune_blocks [Examples.var 1] 0%Z 1).
  { intros Hr.
    inversion Hr as [n i eq id Heq Hp HM
                    |n i p k (eq & eqp & dep & Heq & Heqp & Hdep & Hp & He & _)
                       _]; subst; simpl in *;
      vm_compute in Heq; injection Heq as <-.
    - apply list_elem_of_fmap in Hp as (x & -> & Hx).
      apply list_elem_of_singleton in Hx as ->.
      apply list_elem_of_singleton in HM. discriminate.
    - apply list_elem_of_singleton in Hdep as ->.
      apply elem_of_tape in Heqp.
      assert (Ht : tape Examples.prune_blocks
                   = [(0, 0%nat, Examples.equation Plain 200 [1] [1] []);
                      (0, 1%nat, Examples.equation Plain 201 [9] [9] []);
                      (0, 2%nat, Examples.equation Plain 202 [2] [2; 1] [])]%Z)
        by (vm_compute; reflexivity).
      rewrite Ht in Heqp. unfold TransposeComputationalGraph.earlier in He.
      simpl in He.
      repeat (apply elem_of_cons in Heqp as [Heqp|Heqp]);
        [injection Heqp as -> -> ->..|by apply elem_of_nil in Heqp];
        [|lia|lia].
      apply list_elem_of_singleton in Hp. discriminate. }
  apply (proj1 (forward_pruning_sound [Examples.var 2] [Examples.var 1]
                  Examples.prune_blocks
                  ltac:(refine (bool_decide_unpack _ _); vm_compute; exact I))
           true Examples.prune_graph 0 0%Z 1
           (Examples.equation Plain 201 [9] [9] [])%Z
           ltac:(vm_compute; reflexivity)
           ltac:(simpl; lia) ltac:(vm_compute; reflexivity)
           ltac:(vm_compute; reflexivity) Hnr).
Defined.

(** ** The queries of a constructed graph *)

Section query_facts.
Import TransposeComputationalGraph.

Lemma np_full_is_Some (blocks : Blocks) (v : bool) (n : Z) (i : nat) :
  is_Some (flags_get (np_full (block_items blocks) v) n i)
  ↔ is_Some (eq_at blocks n i).
Proof.
  split.
  - intros [b Hb]. unfold flags_get, np_full in Hb. unfold eq_at.
    destruct (list_to_map _ !! n) as [a|] eqn:Ha; [|done].
    apply elem_of_list_to_map_2 in Ha.
    apply list_elem_of_fmap in Ha as ([n' block] & [= -> ->] & Hin).
    apply block_items_getitem in Hin. rewrite Hin.
    apply lookup_replicate in Hb as [_ Hi]. by apply lookup_lt_is_Some_2.
  - intros [eq Heq]. exists v. by eapply np_full_get_Some.
Qed.

(** The tables of flags of a constructed graph have one entry for each
    equation of the tape, and no other. *)
Lemma __init___shape (Js M : list variable) (blocks : Blocks)
    (prune_forward prune_adjoint : bool) (g : t)
    (J_i : nat) (act : gmap Z (list bool)) (n : Z) (i : nat) :
  __init__ Js M blocks prune_forward prune_adjoint = Some g →
  _active g !! J_i = Some act →
  is_Some (flags_get act n i) ↔ is_Some (eq_at blocks n i).
Proof.
  intros Hinit Hact.
  destruct (__init___fields _ _ _ _ _ _ Hinit) as (af & Haf & _ & _ & _ & Ha).
  assert (Hshape : is_Some (flags_get af n i) ↔ is_Some (eq_at blocks n i)).
  { rewrite <- (np_full_is_Some blocks false).
    destruct prune_forward; simpl in Haf.
    - unfold forward_prune in Haf.
      apply bind_Some in Haf as (ics & _ & Haf).
      apply fmap_Some in Haf as (st & Hfold & ->).
      apply (foldM_invariant
               (λ st : gset Z * gmap Z (list bool),
                  is_Some (flags_get st.2 n i)
                  ↔ is_Some (flags_get (np_full (block_items blocks) false)
                               n i))
               (forward_step ics) (tape blocks)
               (list_to_set (var_id <$> M), np_full (block_items blocks) false)
               st); [done| |exact Hfold].
      intros [aM0 af0] [[q l] e] [aM1 af1] _ HP Hstep. simpl in *.
      rewrite <- HP.
      by destruct (forward_step_sound _ _ _ _ _ _ _ _ Hstep) as (_ & Hs & _).
    - injection Haf as <-. by rewrite !np_full_is_Some. }
  destruct prune_adjoint.
  - destruct (Forall2_lookup_r _ _ _ _ _ Ha Hact) as (J & _ & Hprune).
    apply adjoint_prune_le in Hprune. rewrite <- Hshape. apply Hprune.
  - rewrite Ha, list_lookup_fmap in Hact.
    destruct (Js !! J_i); [|done]. by injection Hact as <-.
Qed.

Lemma __init___length (Js M : list variable) (blocks : Blocks)
    (prune_forward prune_adjoint : bool) (g : t) :
  __init__ Js M blocks prune_forward prune_adjoint = Some g →
  length (_active g) = length Js.
Proof.
  intros Hinit.
  destruct (__init___fields _ _ _ _ _ _ Hinit) as (af & _ & _ & _ & _ & Ha).
  destruct prune_adjoint.
  - symmetry. by eapply Forall2_length.
  - by rewrite Ha, length_fmap.
Qed.

Lemma is_active_defined_aux (Js M : list variable) (blocks : Blocks)
    (prune_forward prune_adjoint : bool) (g : t)
    (J_i : nat) (n : Z) (i : nat) :
  __init__ Js M blocks prune_forward prune_adjoint = Some g →
  (is_Some (is_solved g J_i n i)
   ↔ J_i < length Js ∧ is_Some (eq_at blocks n i))
  ∧ is_active g J_i n i = is_solved g J_i n i.
Proof.
  intros Hinit.
  destruct (__init___fields _ _ _ _ _ _ Hinit) as (af & _ & _ & Hs & _).
  unfold is_solved, is_active. rewrite Hs. split; [|done].
  rewrite <- (__init___length _ _ _ _ _ _ Hinit).
  destruct (_active g !! J_i) as [act|] eqn:Hact.
  - rewrite (__init___shape _ _ _ _ _ _ _ _ n i Hinit Hact).
    apply lookup_lt_Some in Hact. tauto.
  - apply lookup_ge_None in Hact. split.
    + by intros [? ?].
    + intros [? _]. lia.
Qed.

(** X6: on a constructed graph [is_active] and [is_solved] return a flag
    exactly for the functional indices below [len(Js)] and the positions of
    equations of the tape, where the two agree; for any other index they
    raise. *)
Theorem is_active_defined (Js M : list variable) (blocks : Blocks)
    (prune_forward prune_adjoint : bool) (g : t)
    (J_i : nat) (n : Z) (i : nat) :
  __init__ Js M blocks prune_forward prune_adjoint = Some g →
  (is_Some (is_active g J_i n i)
   ↔ J_i < length Js ∧ is_Some (eq_at blocks n i))
  ∧ is_solved g J_i n i = is_active g J_i n i.
Proof.
  intros Hinit. split.
  - unfold is_active. rewrite <- (__init___length _ _ _ _ _ _ Hinit).
    destruct (_active g !! J_i) as [act|] eqn:Hact.
    + rewrite (__init___shape _ _ _ _ _ _ _ _ n i Hinit Hact).
      apply lookup_lt_Some in Hact. tauto.
    + apply lookup_ge_None in Hact. split.
      * by intros [? ?].
      * intros [? _]. lia.
  - destruct (__init___fields _ _ _ _ _ _ Hinit) as (af & _ & _ & Hs & _).
    unfold is_solved, is_active. by rewrite Hs.
Qed.

Lemma any_is_active_loop_spec (active : list (gmap Z (list bool)))
    (n : Z) (i : nat) :
  Forall (λ f, is_Some (flags_get f n i)) active →
  ∃ b, any_is_active_loop active n i = Some b
       ∧ (b = true ↔ ∃ J_i f, active !! J_i = Some f
                              ∧ flags_get f n i = Some true).
Proof.
  induction active as [|f active IH]; intros Hall; simpl.
  - exists false. split; [done|]. split; [done|]. by intros (J_i & f & ? & _).
  - apply Forall_cons in Hall as [[b Hb] Hall]. rewrite Hb. destruct b.
    + exists true. split; [done|]. split; [|done]. intros _. by exists 0, f.
    + destruct (IH Hall) as (b & Hloop & Hiff). exists b. split; [done|].
      rewrite Hiff. split.
      * intros (J_i & f' & ? & ?). by exists (S J_i), f'.
      * intros ([|J_i] & f' & Hl & Hf); simpl in Hl.
        -- injection Hl as <-. congruence.
        -- by exists J_i, f'.
Qed.

(** X7: at the position of an equation of the tape, [any_is_active] of a
    constructed graph returns, and returns [True] exactly when the equation
    is active for at least one functional. *)
Theorem any_is_active_iff (Js M : list variable) (blocks : Blocks)
    (prune_forward prune_adjoint : bool) (g : t)
    (n : Z) (i : nat) (eq : Equation) :
  __init__ Js M blocks prune_forward prune_adjoint = Some g →
  eq_at blocks n i = Some eq →
  ∃ b, any_is_active g n i = Some b
       ∧ (b = true ↔ ∃ J_i, is_active g J_i n i = Some true).
Proof.
  intros Hinit Heq. unfold any_is_active, is_active.
  destruct (any_is_active_loop_spec (_active g) n i) as (b & Hb & Hiff).
  { apply Forall_lookup. intros J_i act Hact.
    by apply (__init___shape _ _ _ _ _ _ _ _ n i Hinit Hact). }
  exists b. split; [done|]. rewrite Hiff. split.
  - intros (J_i & f & Hl & Hf). exists J_i. by rewrite Hl.
  - intros (J_i & Hf). destruct (_active g !! J_i) as [f|] eqn:Hl; [|done].
    by exists J_i, f.
Qed.

(** *** Adjoint initial conditions *)

Lemma last_producing_snoc (tp : list (Z * nat * Equation))
    (n : Z) (i : nat) (eq : Equation) (id : Z) :
  last_producing (tp ++ [(n, i, eq)]) id
  = if bool_decide (id ∈ var_id <$> X eq) then Some (n, i, eq)
    else last_producing tp id.
Proof.
  induction tp as [|[[q l] e] tp IH]; simpl.
  - done.
  - rewrite IH. by case_bool_decide.
Qed.

(** On a tape in order, [last_producing] finds the equation solving for
    [id] that no later equation solving for [id] follows. *)
Lemma last_producing_Some (tp : list (Z * nat * Equation)) (id : Z)
    (n : Z) (i : nat) (eq : Equation) :
  StronglySorted tape_lt tp →
  last_producing tp id = Some (n, i, eq)
  ↔ (n, i, eq) ∈ tp ∧ produces eq id
    ∧ ∀ q l e, (q, l, e) ∈ tp → earlier (n, i) (q, l) → ¬ produces e id.
Proof.
  unfold produces.
  induction tp as [|[[q l] e] tp IH] using rev_ind; intros Hs.
  - simpl. split; [done|]. intros (Hin & _). by apply elem_of_nil in Hin.
  - rewrite last_producing_snoc.
    assert (Hs' : StronglySorted tape_lt (tp ++ (q, l, e) :: [])) by done.
    destruct (tape_lt_split _ _ _ Hs') as [Hpre _]. simpl in Hpre.
    rewrite Forall_forall in Hpre.
    assert (Hs0 : StronglySorted tape_lt tp).
    { clear -Hs. induction tp as [|a tp IH]; [constructor|].
      simpl in Hs. apply StronglySorted_inv in Hs as [Hs Ha].
      constructor; [by apply IH|].
      apply Forall_app in Ha as [Ha _]. done. }
    case_bool_decide as Hp.
    + split.
      * intros [= -> -> ->]. split; [apply elem_of_app; right; left|].
        split; [done|]. intros q' l' e' Hin Hlater.
        apply elem_of_app in Hin as [Hin|Hin].
        -- apply Hpre in Hin. by destruct (earlier_asym _ _ Hlater).
        -- apply list_elem_of_singleton in Hin as [= -> -> ->].
           by apply earlier_irrefl in Hlater.
      * intros (Hin & Hprod & Hlast).
        apply elem_of_app in Hin as [Hin|Hin].
        -- exfalso. apply (Hlast q l e); [|by apply (Hpre _ Hin)|done].
           apply elem_of_app. right. left.
        -- by apply list_elem_of_singleton in Hin as [= -> -> ->].
    + rewrite (IH Hs0). split.
      * intros (Hin & Hprod & Hlast). split; [apply elem_of_app; by left|].
        split; [done|]. intros q' l' e' Hin' Hlater.
        apply elem_of_app in Hin' as [Hin'|Hin']; [by eapply Hlast|].
        by apply list_elem_of_singleton in Hin' as [= -> -> ->].
      * intros (Hin & Hprod & Hlast).
        apply elem_of_app in Hin as [Hin|Hin].
        -- split; [done|]. split; [done|]. intros q' l' e' Hin' Hlater.
           apply (Hlast q' l' e'); [|done]. apply elem_of_app. by left.
        -- by apply list_elem_of_singleton in Hin as [= -> -> ->].
Qed.

(** The loop over the outputs of one equation, as to [adj_ics]. *)
Lemma adj_ics_outputs_lookup (n : Z) (i : nat) (eq : Equation)
    (xs : list variable) (s : nat)
    (st : gmap Z (space_type * (Z * nat)) * gmap (Z * nat * nat) (Z * nat)
          * gmap Z (Z * nat)) (id : Z) :
  (foldl (adj_ics_output n i eq) st (enumerate_from s xs)).2 !! id
  = if bool_decide (id ∈ var_id <$> xs)
    then if bool_decide
              (id ∈ var_id <$> adjoint_initial_condition_dependencies eq)
         then Some (n, i) else None
    else st.2 !! id.
Proof.
  revert s st. induction xs as [|x xs IH]; intros s st.
  - done.
  - cbn [enumerate_from foldl]. rewrite IH.
    assert (Hc : id ∈ var_id <$> x :: xs
                 ↔ id = var_id x ∨ id ∈ var_id <$> xs)
      by (rewrite fmap_cons; apply elem_of_cons).
    rewrite (bool_decide_ext _ _ Hc).
    destruct st as [[le stored] adj]. unfold adj_ics_output.
    destruct (decide (id ∈ var_id <$> xs)) as [Hin|Hin].
    + rewrite (bool_decide_eq_true_2 (id ∈ var_id <$> xs)) by done.
      rewrite (bool_decide_eq_true_2 (_ ∨ _)) by (by right). done.
    + rewrite (bool_decide_eq_false_2 (id ∈ var_id <$> xs)) by done.
      destruct (decide (id = var_id x)) as [->|Hne].
      * rewrite (bool_decide_eq_true_2 (_ ∨ _)) by (by left).
        destruct (bool_decide
                    (var_id x ∈ var_id
                       <$> adjoint_initial_condition_dependencies eq)); simpl.
        -- by rewrite lookup_insert_eq.
        -- by rewrite lookup_delete_eq.
      * rewrite (bool_decide_eq_false_2 (_ ∨ _)) by tauto.
        destruct (bool_decide
                    (var_id x ∈ var_id
                       <$> adjoint_initial_condition_dependencies eq)); simpl.
        -- by rewrite lookup_insert_ne.
        -- by rewrite lookup_delete_ne.
Qed.

(** [adj_ics[J_i]]: the last equation solving for [id], if [id] is among
    its adjoint initial condition dependencies. *)
Lemma build_adj_ics_lookup (tp : list (Z * nat * Equation)) (id : Z) :
  (build_adj_ics tp).2 !! id
  = match last_producing tp id with
    | Some (n, i, eq) =>
        if bool_decide
             (id ∈ var_id <$> adjoint_initial_condition_dependencies eq)
        then Some (n, i) else None
    | None => None
    end.
Proof.
  unfold build_adj_ics.
  assert (H : (foldl adj_ics_step (∅, ∅, ∅) tp).2 !! id
              = match last_producing tp id with
                | Some (n, i, eq) =>
                    if bool_decide
                         (id ∈ var_id
                            <$> adjoint_initial_condition_dependencies eq)
                    then Some (n, i) else None
                | None => None
                end).
  { induction tp as [|[[n i] eq] tp IH] using rev_ind.
    - simpl. apply lookup_empty.
    - rewrite foldl_app, last_producing_snoc. simpl.
      unfold enumerate. rewrite adj_ics_outputs_lookup.
      by case_bool_decide. }
  by destruct (foldl adj_ics_step (∅, ∅, ∅) tp) as [[le stored] adj].
Qed.

Lemma set_not_solved_calls_fields (g : t) (keys : list (nat * Z * nat)) :
  _adj_ics (set_not_solved_calls g keys) = _adj_ics g
  ∧ _stored_adj_ics (set_not_solved_calls g keys) = _stored_adj_ics g
  ∧ _transpose_deps (set_not_solved_calls g keys) = _transpose_deps g
  ∧ ∀ J_i n i, is_Some (is_solved (set_not_solved_calls g keys) J_i n i)
               ↔ is_Some (is_solved g J_i n i).
Proof.
  revert g. induction keys as [|[[J n] i] keys IH]; intros g; [done|].
  simpl. destruct (set_not_solved g J n i) as [g'|] eqn:Hset; simpl; [|done].
  destruct (IH g') as (-> & -> & -> & Hs).
  assert (Hg' : _adj_ics g' = _adj_ics g
                ∧ _stored_adj_ics g' = _stored_adj_ics g
                ∧ _transpose_deps g' = _transpose_deps g).
  { unfold set_not_solved in Hset. repeat case_match; simplify_eq/=. done. }
  destruct Hg' as (-> & -> & ->). repeat (split; [done|]).
  intros J' n' i'. rewrite Hs.
  rewrite (set_not_solved_is_solved _ _ _ _ _ _ _ _ Hset).
  case_decide as Hd; [|done]. destruct Hd as (-> & -> & ->).
  split; [intros _|by eauto].
  unfold set_not_solved in Hset. unfold is_solved.
  destruct (_solved g !! J) as [f|]; [|done].
  apply (flags_set_is_Some f n i false).
  destruct (flags_set f n i false); [eauto|done].
Qed.

(** X8: [has_adj_ic] on a constructed graph, after any calls of
    [set_not_solved].  For a functional index below [len(Js)] it returns,
    and returns [True] exactly when the last equation of the tape that
    solves for the variable lists it among its adjoint initial condition
    dependencies and the adjoint of that equation is still to be solved. *)
Theorem has_adj_ic_iff (Js M : list variable) (blocks : Blocks)
    (prune_forward prune_adjoint : bool) (g : t)
    (keys : list (nat * Z * nat)) (J_i : nat) (x_id : Z) :
  __init__ Js M blocks prune_forward prune_adjoint = Some g →
  J_i < length Js →
  ∃ b, has_adj_ic (set_not_solved_calls g keys) J_i x_id = Some b
       ∧ (b = true
          ↔ ∃ n i eq,
              eq_at blocks n i = Some eq ∧ produces eq x_id
              ∧ (∀ q l e, eq_at blocks q l = Some e →
                          earlier (n, i) (q, l) → ¬ produces e x_id)
              ∧ x_id ∈ var_id <$> adjoint_initial_condition_dependencies eq
              ∧ is_solved (set_not_solved_calls g keys) J_i n i = Some true).
Proof.
  intros Hinit HJ.
  destruct (__init___fields _ _ _ _ _ _ Hinit) as (af & _ & _ & _ & Hics & _).
  destruct (set_not_solved_calls_fields g keys) as (Hadj & _ & _ & Hshape).
  set (g' := set_not_solved_calls g keys) in *.
  unfold has_adj_ic. rewrite Hadj, Hics, list_lookup_fmap.
  apply lookup_lt_is_Some_2 in HJ as HJ'. destruct HJ' as [J HJ'].
  rewrite HJ'. simpl. rewrite build_adj_ics_lookup.
  assert (Hlast : ∀ n i eq,
            last_producing (tape blocks) x_id = Some (n, i, eq)
            ↔ eq_at blocks n i = Some eq ∧ produces eq x_id
              ∧ ∀ q l e, eq_at blocks q l = Some e →
                         earlier (n, i) (q, l) → ¬ produces e x_id).
  { intros n i eq.
    rewrite (last_producing_Some _ _ _ _ _ (tape_sorted blocks)).
    rewrite elem_of_tape. split; intros (? & ? & Hl); (split; [done|]);
      (split; [done|]); intros q l e He; apply Hl; by apply elem_of_tape. }
  destruct (last_producing (tape blocks) x_id) as [[[n i] eq]|].
  - destruct (proj1 (Hlast n i eq) eq_refl) as (Heq & Hprod & Hno).
    case_bool_decide as Hic.
    + assert (Hsome : is_Some (is_solved g' J_i n i)).
      { apply Hshape.
        destruct (is_active_defined_aux Js M blocks prune_forward
                    prune_adjoint g J_i n i Hinit) as [Hd _].
        apply Hd. split; [done|by eexists]. }
      destruct Hsome as [b Hb]. exists b. split; [done|]. split.
      * intros ->. by exists n, i, eq.
      * intros (n' & i' & eq' & Heq' & Hprod' & Hno' & _ & Hs').
        assert (Some (n, i, eq) = Some (n', i', eq')) as [= <- <- <-]
          by (by apply Hlast).
        congruence.
    + exists false. split; [done|]. split; [done|].
      intros (n' & i' & eq' & Heq' & Hprod' & Hno' & Hic' & _).
      assert (Some (n, i, eq) = Some (n', i', eq')) as [= <- <- <-]
        by (by apply Hlast).
      done.
  - exists false. split; [done|]. split; [done|].
    intros (n' & i' & eq' & Heq' & Hprod' & Hno' & _).
    assert (None = Some (n', i', eq')) by (by apply Hlast).
    done.
Qed.

(** *** Stored adjoint initial conditions *)

(** The loop over the outputs of one equation, as to [last_eq]. *)
Lemma adj_ics_outputs_last_eq (n : Z) (i : nat) (eq : Equation)
    (xs : list variable) (s : nat)
    (st : gmap Z (space_type * (Z * nat)) * gmap (Z * nat * nat) (Z * nat)
          * gmap Z (Z * nat)) (id : Z) :
  (foldl (adj_ics_output n i eq) st (enumerate_from s xs)).1.1 !! id
  = match last_slot_from s id xs with
    | Some m =>
        if bool_decide
             (id ∈ var_id <$> adjoint_initial_condition_dependencies eq)
        then (λ x, (var_space_type x (adj_X_type eq m), (n, i)))
               <$> xs !! (m - s)
        else None
    | None => st.1.1 !! id
    end.
Proof.
  revert s st. induction xs as [|x xs IH]; intros s st; [done|].
  cbn [enumerate_from foldl last_slot_from]. rewrite IH.
  destruct (last_slot_from (S s) id xs) as [m|] eqn:Hm.
  - apply last_slot_from_Some in Hm as [Hle _].
    replace (m - s) with (S (m - S s)) by lia. done.
  - destruct st as [[le stored] adj]. unfold adj_ics_output.
    destruct (decide (var_id x = id)) as [<-|Hne].
    + rewrite Nat.sub_diag.
      destruct (bool_decide
                  (var_id x ∈ var_id
                     <$> adjoint_initial_condition_dependencies eq)); simpl.
      * by rewrite lookup_insert_eq.
      * by rewrite lookup_delete_eq.
    + destruct (bool_decide
                  (var_id x ∈ var_id
                     <$> adjoint_initial_condition_dependencies eq)); simpl.
      * by rewrite lookup_insert_ne.
      * by rewrite lookup_delete_ne.
Qed.

(** The loop over the outputs of the equation at [(n, i)] writes the
    entries of [stored_adj_ics] for the outputs of that equation only. *)
Lemma adj_ics_outputs_stored_other (n : Z) (i : nat) (eq : Equation)
    (xs : list variable) (s : nat)
    (st : gmap Z (space_type * (Z * nat)) * gmap (Z * nat * nat) (Z * nat)
          * gmap Z (Z * nat)) (key : Z * nat * nat) :
  (∀ m, m < length xs → key ≠ (n, i, s + m)) →
  (foldl (adj_ics_output n i eq) st (enumerate_from s xs)).1.2 !! key
  = st.1.2 !! key.
Proof.
  revert s st. induction xs as [|x xs IH]; intros s st Hkey; [done|].
  cbn [enumerate_from foldl]. rewrite IH.
  - destruct st as [[le stored] adj]. unfold adj_ics_output.
    assert (Hs : (n, i, s) ≠ key).
    { intros <-. apply (Hkey 0); [simpl; lia|]. by rewrite Nat.add_0_r. }
    destruct (le !! var_id x) as [[t [p k]]|];
      destruct (bool_decide
                  (var_id x ∈ var_id
                     <$> adjoint_initial_condition_dependencies eq));
      simpl; try done;
      (destruct (decide (var_space_type x (adj_X_type eq s) = t));
       [by rewrite lookup_insert_ne|done]).
  - intros m Hm. replace (S s + m) with (s + S m) by lia.
    apply Hkey. simpl. lia.
Qed.

(** The entry written for output [m], when the outputs hold distinct
    variables: it is decided by the entry of [last_eq] before the loop. *)
Lemma adj_ics_outputs_stored (n : Z) (i : nat) (eq : Equation)
    (xs : list variable) (s : nat)
    (st : gmap Z (space_type * (Z * nat)) * gmap (Z * nat * nat) (Z * nat)
          * gmap Z (Z * nat)) (m : nat) (x : variable) :
  NoDup (var_id <$> xs) → xs !! m = Some x →
  (foldl (adj_ics_output n i eq) st (enumerate_from s xs)).1.2
    !! (n, i, s + m)
  = match st.1.1 !! var_id x with
    | Some (t, pk) =>
        if decide (var_space_type x (adj_X_type eq (s + m)) = t)
        then Some pk else st.1.2 !! (n, i, s + m)
    | None => st.1.2 !! (n, i, s + m)
    end.
Proof.
  revert s st m. induction xs as [|x0 xs IH]; intros s st m Hnd Hx; [done|].
  rewrite fmap_cons in Hnd. apply NoDup_cons in Hnd as [Hx0 Hnd].
  cbn [enumerate_from foldl]. destruct m as [|m]; simpl in Hx.
  - injection Hx as ->. rewrite Nat.add_0_r.
    rewrite adj_ics_outputs_stored_other by (intros m _ [=]; lia).
    destruct st as [[le stored] adj]. unfold adj_ics_output. simpl.
    destruct (le !! var_id x) as [[t [p k]]|];
      destruct (bool_decide
                  (var_id x ∈ var_id
                     <$> adjoint_initial_condition_dependencies eq));
      simpl; try done;
      (destruct (decide (var_space_type x (adj_X_type eq s) = t));
       [by rewrite lookup_insert_eq|done]).
  - replace (s + S m) with (S s + m) by lia.
    rewrite (IH (S s) _ m Hnd Hx).
    assert (Hne : var_id x0 ≠ var_id x).
    { intros Heq. apply Hx0. rewrite Heq. apply list_elem_of_fmap.
      exists x. split; [done|]. by eapply list_elem_of_lookup_2. }
    assert (Hkey : (n, i, s) ≠ (n, i, S s + m)) by (intros [=]; lia).
    destruct st as [[le stored] adj]. unfold adj_ics_output. simpl.
    destruct (le !! var_id x0) as [[t0 [p0 k0]]|];
      destruct (bool_decide
                  (var_id x0 ∈ var_id
                     <$> adjoint_initial_condition_dependencies eq));
      simpl;
      rewrite ?lookup_insert_ne, ?lookup_delete_ne by done;
      try (destruct (decide (var_space_type x0 (adj_X_type eq s) = t0)));
      rewrite ?lookup_insert_ne by done; done.
Qed.

(** [last_eq] after the equations of [tp]: the last equation solving for
    [id], if [id] is among its adjoint initial condition dependencies, with
    the type of the adjoint variable of its last output holding [id]. *)
Lemma adj_ics_last_eq (tp : list (Z * nat * Equation)) (id : Z) :
  (foldl adj_ics_step (∅, ∅, ∅) tp).1.1 !! id
  = match last_producing tp id with
    | Some (p, k, eqp) =>
        if bool_decide
             (id ∈ var_id <$> adjoint_initial_condition_dependencies eqp)
        then (λ t, (t, (p, k))) <$> last_output_type eqp id
        else None
    | None => None
    end.
Proof.
  induction tp as [|[[n i] eq] tp IH] using rev_ind.
  - simpl. apply lookup_empty.
  - rewrite foldl_app, last_producing_snoc. simpl.
    unfold enumerate. rewrite adj_ics_outputs_last_eq.
    unfold last_output_type.
    destruct (decide (id ∈ var_id <$> X eq)) as [Hin|Hin].
    + rewrite (bool_decide_eq_true_2 (id ∈ var_id <$> X eq)) by done.
      destruct (last_slot_from 0 id (X eq)) as [m|] eqn:Hm.
      2:{ apply last_slot_from_None in Hm. done. }
      rewrite Nat.sub_0_r. simpl.
      destruct (bool_decide
                  (id ∈ var_id <$> adjoint_initial_condition_dependencies eq));
        [|done].
      by destruct (X eq !! m).
    + rewrite (bool_decide_eq_false_2 (id ∈ var_id <$> X eq)) by done.
      apply (last_slot_from_None 0) in Hin. by rewrite Hin.
Qed.

(** The traversal writes no entry of [stored_adj_ics] for an equation it
    does not visit. *)
Lemma adj_ics_stored_other (tp : list (Z * nat * Equation))
    (st : gmap Z (space_type * (Z * nat)) * gmap (Z * nat * nat) (Z * nat)
          * gmap Z (Z * nat)) (n : Z) (i m : nat) :
  Forall (λ e, e.1 ≠ (n, i)) tp →
  (foldl adj_ics_step st tp).1.2 !! (n, i, m) = st.1.2 !! (n, i, m).
Proof.
  revert st. induction tp as [|[[q l] e] tp IH]; intros st Hne; [done|].
  apply Forall_cons in Hne as [Hne Htp]. simpl in Hne.
  cbn [foldl]. rewrite IH by done. unfold adj_ics_step, enumerate.
  apply adj_ics_outputs_stored_other. intros m' _ [= -> -> _]. done.
Qed.

(** [stored_adj_ics[J_i]] at an output of an equation of the tape whose
    outputs hold distinct variables. *)
Lemma build_adj_ics_stored (blocks : Blocks)
    (pre post : list (Z * nat * Equation))
    (n : Z) (i : nat) (eq : Equation) (m : nat) (x : variable) :
  tape blocks = pre ++ (n, i, eq) :: post →
  NoDup (var_id <$> X eq) → X eq !! m = Some x →
  (build_adj_ics (tape blocks)).1 !! (n, i, m)
  = match last_producing pre (var_id x) with
    | Some (p, k, eqp) =>
        if bool_decide
             (var_id x
                ∈ var_id <$> adjoint_initial_condition_dependencies eqp)
        then
          match last_output_type eqp (var_id x) with
          | Some t =>
              if decide (var_space_type x (adj_X_type eq m) = t)
              then Some (p, k) else None
          | None => None
          end
        else None
    | None => None
    end.
Proof.
  intros Htape Hnd Hx.
  pose proof (tape_sorted blocks) as Hs. rewrite Htape in Hs.
  destruct (tape_lt_split _ _ _ Hs) as [Hpre Hpost]. simpl in Hpre, Hpost.
  assert (H1 : Forall (λ e, e.1 ≠ (n, i)) pre).
  { apply earlier_ne. eapply Forall_impl; [exact Hpre|]. by left. }
  assert (H2 : Forall (λ e, e.1 ≠ (n, i)) post).
  { apply earlier_ne. eapply Forall_impl; [exact Hpost|]. by right. }
  unfold build_adj_ics.
  assert (Hgoal : (foldl adj_ics_step (∅, ∅, ∅) (tape blocks)).1.2
                    !! (n, i, m)
                  = match (foldl adj_ics_step (∅, ∅, ∅) pre).1.1
                            !! var_id x with
                    | Some (t, pk) =>
                        if decide (var_space_type x (adj_X_type eq m) = t)
                        then Some pk else None
                    | None => None
                    end).
  { rewrite Htape, foldl_app. cbn [foldl].
    rewrite adj_ics_stored_other by done.
    unfold adj_ics_step at 1, enumerate.
    rewrite <- (Nat.add_0_l m) at 1.
    rewrite (adj_ics_outputs_stored n i eq (X eq) 0 _ m x Hnd Hx).
    simpl.
    rewrite (adj_ics_stored_other pre (∅, ∅, ∅) n i m H1). simpl.
    rewrite lookup_empty.
    destruct (_ !! var_id x) as [[t pk]|]; [|done].
    by destruct (decide _). }
  destruct (foldl adj_ics_step (∅, ∅, ∅) (tape blocks))
    as [[le stored] adj] eqn:Hfold.
  simpl in *. rewrite Hgoal, adj_ics_last_eq.
  destruct (last_producing pre (var_id x)) as [[[p k] eqp]|]; [|done].
  destruct (bool_decide _); [|done].
  destruct (last_output_type eqp (var_id x)); done.
Qed.

Lemma __init___stored (Js M : list variable) (blocks : Blocks)
    (prune_forward prune_adjoint : bool) (g : t) :
  __init__ Js M blocks prune_forward prune_adjoint = Some g →
  _stored_adj_ics g = (λ _, (build_adj_ics (tape blocks)).1) <$> Js.
Proof.
  unfold __init__. simpl. intros Hinit.
  apply bind_Some in Hinit as (af & Haf & Hinit).
  by apply bind_Some in Hinit as (active & Hact & [= <-]).
Qed.

(** X18: [is_stored_adj_ic] on a constructed graph, after any calls of
    [set_not_solved], for output [m] of an equation of the tape whose
    outputs hold distinct variables and for a functional index below
    [len(Js)].  It returns without raising, and returns [True] exactly when
    the last equation before [(n, i)] that solves for the variable of
    output [m] lists that variable among its adjoint initial condition
    dependencies, the adjoint variable of its last output holding the
    variable has the type of the adjoint variable of output [m], and its
    adjoint is still to be solved. *)
Theorem is_stored_adj_ic_iff (Js M : list variable) (blocks : Blocks)
    (prune_forward prune_adjoint : bool) (g : t)
    (keys : list (nat * Z * nat)) (J_i : nat)
    (n : Z) (i : nat) (eq : Equation) (m : nat) (x : variable) :
  __init__ Js M blocks prune_forward prune_adjoint = Some g →
  J_i < length Js →
  eq_at blocks n i = Some eq → NoDup (var_id <$> X eq) →
  X eq !! m = Some x →
  ∃ b,
    is_stored_adj_ic (set_not_solved_calls g keys) J_i n i m = Some b
    ∧ (b = true
       ↔ ∃ p k eqp,
           eq_at blocks p k = Some eqp ∧ earlier (p, k) (n, i)
           ∧ produces eqp (var_id x)
           ∧ (∀ q l e, eq_at blocks q l = Some e → earlier (p, k) (q, l) →
                       earlier (q, l) (n, i) → ¬ produces e (var_id x))
           ∧ var_id x
               ∈ var_id <$> adjoint_initial_condition_dependencies eqp
           ∧ last_output_type eqp (var_id x)
             = Some (var_space_type x (adj_X_type eq m))
           ∧ is_solved (set_not_solved_calls g keys) J_i p k = Some true).
Proof.
  intros Hinit HJ Heq Hnd Hx.
  destruct (set_not_solved_calls_fields g keys) as (_ & Hst & _ & Hshape).
  set (g' := set_not_solved_calls g keys) in *.
  pose proof Heq as Hin. apply elem_of_tape in Hin.
  apply list_elem_of_split in Hin as (pre & post & Htape).
  pose proof (tape_sorted blocks) as Hs. rewrite Htape in Hs.
  destruct (tape_lt_split _ _ _ Hs) as [Hpre Hpost]. simpl in Hpre, Hpost.
  rewrite Forall_forall in Hpre, Hpost.
  apply StronglySorted_app in Hs as (_ & Hspre & _).
  assert (Hmem : ∀ p k eqp, (p, k, eqp) ∈ pre
                 ↔ eq_at blocks p k = Some eqp ∧ earlier (p, k) (n, i)).
  { intros p k eqp. rewrite <- elem_of_tape, Htape. split.
    - intros Hp. split; [apply elem_of_app; by left|]. by apply (Hpre _ Hp).
    - intros [Hp Hearlier]. apply elem_of_app in Hp as [?|Hp]; [done|].
      apply elem_of_cons in Hp as [[= -> -> ->]|Hp].
      + by apply earlier_irrefl in Hearlier.
      + apply Hpost in Hp. by destruct (earlier_asym _ _ Hearlier). }
  assert (Hlast : ∀ p k eqp,
            last_producing pre (var_id x) = Some (p, k, eqp)
            ↔ eq_at blocks p k = Some eqp ∧ earlier (p, k) (n, i)
              ∧ produces eqp (var_id x)
              ∧ ∀ q l e, eq_at blocks q l = Some e → earlier (p, k) (q, l) →
                         earlier (q, l) (n, i) → ¬ produces e (var_id x)).
  { intros p k eqp. rewrite (last_producing_Some _ _ _ _ _ Hspre), Hmem.
    split.
    - intros ((? & ?) & ? & Hno). repeat (split; [done|]).
      intros q l e He Ha Hb. apply (Hno q l e); [|done]. by apply Hmem.
    - intros (? & ? & ? & Hno). repeat (split; [done|]).
      intros q l e He Ha. apply Hmem in He as [He Hb].
      by apply (Hno q l e). }
  unfold is_stored_adj_ic.
  rewrite Hst, (__init___stored _ _ _ _ _ _ Hinit), list_lookup_fmap.
  apply lookup_lt_is_Some_2 in HJ as HJ'. destruct HJ' as [J HJ'].
  rewrite HJ'. simpl.
  rewrite (build_adj_ics_stored blocks pre post n i eq m x Htape Hnd Hx).
  destruct (last_producing pre (var_id x)) as [[[p k] eqp]|].
  - destruct (proj1 (Hlast p k eqp) eq_refl) as (Hp & Hearlier & Hprod & Hno).
    assert (Hsome : is_Some (is_solved g' J_i p k)).
    { apply Hshape.
      destruct (is_active_defined_aux Js M blocks prune_forward
                  prune_adjoint g J_i p k Hinit) as [Hd _].
      apply Hd. split; [done|by eexists]. }
    assert (Huniq : ∀ p' k' eqp',
              eq_at blocks p' k' = Some eqp' ∧ earlier (p', k') (n, i)
              ∧ produces eqp' (var_id x)
              ∧ (∀ q l e, eq_at blocks q l = Some e →
                          earlier (p', k') (q, l) → earlier (q, l) (n, i) →
                          ¬ produces e (var_id x)) →
              (p', k', eqp') = (p, k, eqp)).
    { intros p' k' eqp' Hc. apply Hlast in Hc. congruence. }
    case_bool_decide as Hic.
    + destruct (last_output_type eqp (var_id x)) as [t|] eqn:Ht.
      * destruct (decide (var_space_type x (adj_X_type eq m) = t))
          as [<-|Hne].
        -- destruct Hsome as [b Hb]. exists b. split; [done|]. split.
           ++ intros ->. by exists p, k, eqp.
           ++ intros (p' & k' & eqp' & Hc1 & Hc2 & Hc3 & Hc4 & _ & _ & Hsv).
              assert ((p', k', eqp') = (p, k, eqp)) as [= -> -> ->]
                by (by apply Huniq).
              congruence.
        -- exists false. split; [done|]. split; [done|].
           intros (p' & k' & eqp' & Hc1 & Hc2 & Hc3 & Hc4 & _ & Ht' & _).
           assert ((p', k', eqp') = (p, k, eqp)) as [= -> -> ->]
             by (by apply Huniq).
           congruence.
      * exists false. split; [done|]. split; [done|].
        intros (p' & k' & eqp' & Hc1 & Hc2 & Hc3 & Hc4 & _ & Ht' & _).
        assert ((p', k', eqp') = (p, k, eqp)) as [= -> -> ->]
          by (by apply Huniq).
        congruence.
    + exists false. split; [done|]. split; [done|].
      intros (p' & k' & eqp' & Hc1 & Hc2 & Hc3 & Hc4 & Hic' & _).
      assert ((p', k', eqp') = (p, k, eqp)) as [= -> -> ->]
        by (by apply Huniq).
      done.
  - exists false. split; [done|]. split; [done|].
    intros (p' & k' & eqp' & Hc1 & Hc2 & Hc3 & Hc4 & _).
    assert (None = Some (p', k', eqp')) by (by apply Hlast).
    done.
Qed.

End query_facts.

(** ** Popping the right-hand sides of a model *)

Section pop_facts.
Context `{Backend}.
Import AdjointModelRHS.

Lemma block_contents_bind_ext (B1 B2 : gmap Z AdjointBlockRHS.t)
    (ns : list Z) :
  (∀ n, n ∈ ns → B1 !! n = B2 !! n) →
  ns ≫= block_contents B1 = ns ≫= block_contents B2.
Proof.
  induction ns as [|n ns IH]; intros Hext; [done|].
  rewrite !bind_cons. rewrite IH by (intros; apply Hext; by right).
  unfold block_contents at 1 3. rewrite (Hext n) by left. done.
Qed.

Lemma StronglySorted_lt_snoc (l : list Z) (n : Z) :
  StronglySorted Z.lt (l ++ [n]) → n ∉ l.
Proof.
  intros Hs Hin. apply StronglySorted_app in Hs as (Hlt & _ & _).
  specialize (Hlt n n Hin). rewrite list_elem_of_singleton in Hlt.
  specialize (Hlt eq_refl). lia.
Qed.

(** Removing trailing empty blocks removes no right-hand side. *)
Lemma _pop_empty_loop_contents (fuel : nat) (self self' : t)
    (o : option (outcome unit)) :
  keys_in_order self → _pop_empty_loop fuel self = (o, self') →
  contents self' = contents self.
Proof.
  revert self. induction fuel as [|fuel IH]; intros self Hk; simpl;
    repeat case_match; try (by intros [= <- <-]).
  intros Hloop.
  match goal with Hl : last _ = Some ?n |- _ =>
    rewrite (IH _ (keys_in_order_delete_last _ _ Hk Hl) Hloop);
    pose proof Hl as Hl'; apply last_Some in Hl' as [ns Hns]
  end.
  unfold contents. simpl. rewrite Hns, removelast_last, bind_app.
  destruct Hk as [Hs _]. rewrite Hns in Hs.
  apply StronglySorted_lt_snoc in Hs.
  rewrite (block_contents_bind_ext (delete _ (_B self)) (_B self)).
  - simpl.
    match goal with Hb : _B self !! ?n = Some ?b,
                    He : AdjointBlockRHS.is_empty ?b = true |- _ =>
      assert (block_contents (_B self) n = []) as ->
    end.
    { unfold block_contents.
      match goal with Hb : _B self !! _ = Some ?b,
                      He : AdjointBlockRHS.is_empty ?b = true |- _ =>
        rewrite Hb; unfold AdjointBlockRHS.is_empty in He;
        apply bool_decide_eq_true in He; apply nil_length_inv in He;
        by rewrite He
      end. }
    by rewrite !app_nil_r.
  - intros x Hx. apply lookup_delete_ne. by intros <-.
Qed.

Lemma _pop_empty_contents (self self' : t) (o : outcome unit) :
  keys_in_order self → _pop_empty self = (o, self') →
  contents self' = contents self.
Proof.
  intros Hk. unfold _pop_empty.
  destruct (_pop_empty_loop (size (_B self)) self) as [o' s'] eqn:Hloop.
  apply _pop_empty_loop_contents in Hloop; [|done].
  destruct o'; by intros [= <- <-].
Qed.

Lemma block_contents_items (B : gmap Z AdjointBlockRHS.t)
    (items : list (Z * list Equation)) :
  (∀ n block, (n, block) ∈ items →
              B !! n = Some (AdjointBlockRHS.__init__ block)) →
  items.*1 ≫= block_contents B
  = (λ '(n, i, eq), (n, i, AdjointEquationRHS.__init__ eq))
      <$> tape_of_items items.
Proof.
  unfold tape_of_items. induction items as [|[n block] items IH]; intros HB.
  - done.
  - rewrite fmap_cons, !bind_cons, fmap_app. simpl.
    rewrite IH by (intros; apply HB; by right). f_equal.
    unfold block_contents. rewrite (HB n block) by left. simpl.
    unfold enumerate. generalize 0. clear HB IH.
    induction block as [|eq block IHb]; intros s; simpl; [done|].
    f_equal. apply IHb.
Qed.

(** What the constructor holds: one fresh right-hand side per equation of
    the tape. *)
Lemma __init___contents (blocks : Blocks) (self : t) :
  __init__ blocks = Some self →
  contents self
  = (λ '(n, i, eq), (n, i, AdjointEquationRHS.__init__ eq)) <$> tape blocks.
Proof.
  unfold __init__.
  set (self0 := {| _blocks_n := blocks_n blocks; _B := _ |}).
  destruct (_pop_empty self0) as [[[]|] self'] eqn:Hpop; [|done].
  intros [= <-].
  rewrite (_pop_empty_contents _ _ _ (__init___keys_in_order blocks) Hpop).
  unfold contents, self0. simpl.
  set (B := list_to_map _).
  assert (HB : ∀ n block, (n, block) ∈ block_items blocks →
                          B !! n = Some (AdjointBlockRHS.__init__ block)).
  { intros n block Hin. apply elem_of_list_to_map_1.
    - rewrite <- list_fmap_compose.
      assert (Heq : (fst ∘ (λ '(n0, block0),
                              (n0, AdjointBlockRHS.__init__ block0)))
                    <$> block_items blocks = (block_items blocks).*1).
      { apply list_fmap_ext. by intros ? [? ?]. }
      rewrite Heq. apply block_items_NoDup.
    - apply list_elem_of_fmap. by exists (n, block). }
  rewrite <- block_items_fst. by apply block_contents_items.
Qed.

(** One [pop]: it raises on a model that holds nothing and leaves it as it
    was; otherwise it returns the last right-hand side with its position
    and removes it. *)
Lemma pop_contents (self : t) :
  keys_in_order self → last_nonempty self →
  (contents self = [] ∧ pop self = (Raise, self) ∧ is_empty self = true)
  ∨ ∃ l n i e self',
      contents self = l ++ [(n, i, e)]
      ∧ pop self = (Return ((n, i), e), self')
      ∧ contents self' = l ∧ keys_in_order self' ∧ last_nonempty self'.
Proof.
  intros Hk Hne. pose proof Hk as [Hs Hkeys].
  destruct (last (_blocks_n self)) as [n|] eqn:Hl.
  - right. pose proof Hl as Hl'. apply last_Some in Hl' as [ns Hns].
    assert (Hn : is_Some (_B self !! n)).
    { apply Hkeys. rewrite Hns. apply elem_of_app. right. left. }
    destruct Hn as [block Hblock].
    pose proof (Hne n block Hl Hblock) as Hnon.
    unfold AdjointBlockRHS.is_empty in Hnon.
    apply bool_decide_eq_false in Hnon.
    destruct (last (AdjointBlockRHS._B block)) as [e|] eqn:Hlast.
    2:{ apply last_None in Hlast. by rewrite Hlast in Hnon. }
    pose proof Hlast as Hlast'. apply last_Some in Hlast' as [es Hes].
    set (self1 := {| _blocks_n := _blocks_n self;
                     _B := <[n := {| AdjointBlockRHS._B := es |}]>
                             (_B self) |}).
    assert (Hk1 : keys_in_order self1).
    { split; [done|]. intros x. simpl.
      rewrite lookup_insert_is_Some. split.
      - intros Hx. destruct (decide (n = x)) as [->|Hnx]; [by left|].
        right. split; [done|]. by apply Hkeys.
      - intros [<-|[_ Hx]]; [apply Hkeys; by rewrite Hblock|by apply Hkeys]. }
    destruct (_pop_empty_spec self1 Hk1) as (self2 & Hpop & Hk2 & Hne2).
    exists ((ns ≫= block_contents (_B self))
            ++ ((λ '(i, e), (n, i, e)) <$> enumerate es)),
           n, (length es), e, self2.
    assert (Hnotin : n ∉ ns).
    { apply StronglySorted_lt_snoc. by rewrite <- Hns. }
    split; [|split; [|split; [|done]]].
    + unfold contents. rewrite Hns, bind_app, <- app_assoc. f_equal. simpl.
      unfold block_contents. rewrite Hblock, Hes. unfold enumerate.
      rewrite enumerate_from_app, fmap_app. simpl. by rewrite app_nil_r.
    + unfold pop. rewrite Hl, Hblock. unfold AdjointBlockRHS.pop.
      rewrite Hlast, Hes, removelast_last, length_app. simpl.
      replace (length es + 1 - 1) with (length es) by lia.
      fold self1. by rewrite Hpop.
    + rewrite (_pop_empty_contents _ _ _ Hk1 Hpop).
      unfold contents, self1. simpl. rewrite Hns, bind_app. simpl.
      unfold block_contents at 2. rewrite lookup_insert_eq. simpl.
      rewrite app_nil_r.
      rewrite (block_contents_bind_ext (<[n:=_]> (_B self)) (_B self));
        [done|].
      intros x Hx. apply lookup_insert_ne. by intros <-.
  - left. apply last_None in Hl. unfold contents, pop, is_empty.
    rewrite Hl. simpl. split; [done|]. split; [done|].
    apply bool_decide_eq_true, map_size_empty_iff, map_empty. intros n.
    apply eq_None_not_Some. rewrite <- Hkeys, Hl. apply not_elem_of_nil.
Qed.

(** As many calls of [pop] as [c2] has entries return the entries of [c2]
    from the last to the first, and leave those of [c1]. *)
Lemma pops_suffix (c1 c2 : list (Z * nat * AdjointEquationRHS.t))
    (self : t) :
  keys_in_order self → last_nonempty self → contents self = c1 ++ c2 →
  ∃ self',
    pops (length c2) self
    = ((λ '(n, i, e), Return ((n, i), e)) <$> reverse c2, self')
    ∧ contents self' = c1 ∧ keys_in_order self' ∧ last_nonempty self'.
Proof.
  revert self. induction c2 as [|x c2 IH] using rev_ind;
    intros self Hk Hne Hc.
  - exists self. rewrite app_nil_r in Hc. done.
  - destruct (pop_contents self Hk Hne)
      as [(Hc' & Hpop & Hemp)|(l & n & i & e & self1 & Hc' & Hpop & Hl & Hk1
                               & Hne1)].
    + rewrite Hc in Hc'. apply app_eq_nil in Hc' as [_ Hc'].
      by destruct c2.
    + rewrite Hc, app_assoc in Hc'. apply app_inj_tail in Hc' as [<- ->].
      destruct (IH self1 Hk1 Hne1 Hl) as (self' & Hpops & Hfin).
      exists self'. split; [|done].
      rewrite length_app, Nat.add_1_r, reverse_snoc. simpl.
      by rewrite Hpop, Hpops.
Qed.

Lemma pops_all (c : list (Z * nat * AdjointEquationRHS.t)) (self : t) :
  keys_in_order self → last_nonempty self → contents self = c →
  ∃ self',
    pops (length c) self
    = ((λ '(n, i, e), Return ((n, i), e)) <$> reverse c, self')
    ∧ is_empty self' = true ∧ pop self' = (Raise, self').
Proof.
  intros Hk Hne Hc.
  destruct (pops_suffix [] c self Hk Hne Hc)
    as (self' & Hpops & Hc' & Hk' & Hne').
  exists self'. split; [done|].
  destruct (pop_contents self' Hk' Hne')
    as [(_ & Hpop & Hemp)|(l & n & i & e & self1 & Hc1 & _)]; [done|].
  rewrite Hc' in Hc1. by destruct l.
Qed.

(** X9: popping a freshly constructed [AdjointModelRHS] as many times as
    the tape has equations returns, in reverse tape order, the position of
    every equation together with a right-hand side as constructed for that
    equation; afterwards the model is empty and a further [pop] raises and
    leaves it unchanged. *)
Theorem AdjointModelRHS_pop_order (blocks : Blocks) (self : t) :
  __init__ blocks = Some self →
  ∃ self',
    pops (length (tape blocks)) self
    = ((λ '(n, i, eq), Return ((n, i), AdjointEquationRHS.__init__ eq))
         <$> reverse (tape blocks), self')
    ∧ is_empty self' = true ∧ pop self' = (Raise, self').
Proof.
  intros Hinit.
  destruct (__init___returns blocks) as (self0 & Hinit0 & Hk & Hne).
  rewrite Hinit in Hinit0. injection Hinit0 as <-.
  destruct (pops_all _ self Hk Hne (__init___contents _ _ Hinit))
    as (self' & Hpops & Hfin).
  exists self'. split; [|done].
  rewrite length_fmap in Hpops. rewrite Hpops. f_equal.
  rewrite <- fmap_reverse, <- list_fmap_compose.
  apply list_fmap_ext. by intros ? [[n i] eq].
Qed.

(** With the keys in order, [self[(p, k)]] reads the entry of [contents]
    at [(p, k)]. *)
Lemma getitem_contents (self : t) (p : Z) (k : nat)
    (e : AdjointEquationRHS.t) :
  keys_in_order self →
  __getitem___2 self p k = Some e ↔ (p, k, e) ∈ contents self.
Proof.
  intros [_ Hkeys]. unfold __getitem___2, contents.
  rewrite list_elem_of_bind. split.
  - intros Hget. apply bind_Some in Hget as (block & Hblock & Hk).
    exists p. split; [|apply Hkeys; by rewrite Hblock].
    unfold block_contents. rewrite Hblock.
    apply list_elem_of_fmap. exists (k, e). split; [done|].
    apply elem_of_enumerate_from. split; [lia|]. by rewrite Nat.sub_0_r.
  - intros (n & Hin & _). unfold block_contents in Hin.
    destruct (_B self !! n) as [block|] eqn:Hblock;
      [|by apply elem_of_nil in Hin].
    apply list_elem_of_fmap in Hin as ([k' e'] & [= -> -> ->] & Hin).
    apply elem_of_enumerate_from in Hin as [_ Hin].
    rewrite Nat.sub_0_r in Hin. rewrite Hblock. done.
Qed.

(** The right-hand sides left after popping those of the end of the
    tape. *)
Lemma getitem_after_pops (blocks : Blocks) (self self' : t)
    (pre post : list (Z * nat * Equation))
    (os : list (outcome ((Z * nat) * AdjointEquationRHS.t)))
    (p : Z) (k m : nat) (rhs : AdjointRHS.t) :
  __init__ blocks = Some self →
  tape blocks = pre ++ post →
  pops (length post) self = (os, self') →
  __getitem___3 self' p k m = Some rhs
  ↔ ∃ eq x, (p, k, eq) ∈ pre ∧ X eq !! m = Some x
            ∧ rhs = AdjointRHS.__init__ x.
Proof.
  intros Hinit Htape Hpops.
  destruct (__init___returns blocks) as (self0 & Hinit0 & Hk & Hne).
  rewrite Hinit in Hinit0. injection Hinit0 as <-.
  pose proof (__init___contents _ _ Hinit) as Hc.
  rewrite Htape, fmap_app in Hc.
  destruct (pops_suffix _ _ self Hk Hne Hc) as (self1 & Hpops1 & Hc1 & Hk1 & _).
  rewrite length_fmap, Hpops in Hpops1. injection Hpops1 as _ <-.
  assert (H3 : __getitem___3 self' p k m
               = __getitem___2 self' p k
                 ≫= λ e, AdjointEquationRHS.__getitem__ e m).
  { unfold __getitem___3, __getitem___2.
    by destruct (_B self' !! p) as [block|]. }
  rewrite H3. split.
  - intros Hget. apply bind_Some in Hget as (e & He & Hm).
    apply (getitem_contents _ _ _ _ Hk1) in He. rewrite Hc1 in He.
    apply list_elem_of_fmap in He as ([[p' k'] eq] & [= -> -> ->] & Hin).
    unfold AdjointEquationRHS.__getitem__ in Hm. simpl in Hm.
    rewrite list_lookup_fmap in Hm.
    destruct (X eq !! m) as [x|] eqn:Hx; [|done].
    injection Hm as <-. by exists eq, x.
  - intros (eq & x & Hin & Hx & ->).
    assert (He : __getitem___2 self' p k
                 = Some (AdjointEquationRHS.__init__ eq)).
    { apply (getitem_contents _ _ _ _ Hk1). rewrite Hc1.
      apply list_elem_of_fmap. by exists (p, k, eq). }
    rewrite He. simpl. unfold AdjointEquationRHS.__getitem__. simpl.
    by rewrite list_lookup_fmap, Hx.
Qed.

(** X10: after constructing an [AdjointModelRHS] and popping the
    right-hand sides of the last equations of the tape, [self[(p, k, m)]]
    returns a right-hand side exactly for the output slots of the equations
    that were not popped, namely the one constructed for that output; for
    any other key it raises. *)
Theorem AdjointModelRHS_getitem_after_pops (blocks : Blocks)
    (self self' : t) (pre post : list (Z * nat * Equation))
    (os : list (outcome ((Z * nat) * AdjointEquationRHS.t)))
    (p : Z) (k m : nat) (rhs : AdjointRHS.t) :
  __init__ blocks = Some self →
  tape blocks = pre ++ post →
  pops (length post) self = (os, self') →
  __getitem___3 self' p k m = Some rhs
  ↔ ∃ eq x, (p, k, eq) ∈ pre ∧ X eq !! m = Some x
            ∧ rhs = AdjointRHS.__init__ x.
Proof.
  intros Hinit Htape Hpops.
  split.
  - intros Hget.
    by apply (getitem_after_pops _ _ _ _ _ _ _ _ _ _ Hinit Htape Hpops)
      in Hget.
  - intros Hex.
    by apply (getitem_after_pops _ _ _ _ _ _ _ _ _ _ Hinit Htape Hpops).
Qed.

End pop_facts.

(** ** The right-hand sides an adjoint equation contributes to *)

Section adj_Bs_facts.
Import TransposeComputationalGraph.

(** X11: [adj_Bs] in the adjoint sweep.  Let the graph and the model of
    right-hand sides be constructed from the same tape, let the
    right-hand sides of the equation at [(n, i)] and of the later ones have
    been popped, and let [B] hold right-hand sides at the same keys as the
    model popped so far.  Then, after any calls of [set_not_solved] and for
    a functional index below [len(Js)], [adj_Bs] returns without raising,
    and the dictionary returned maps [j] to [B[p][k][m]] exactly for the
    dependency slots [j] with a transpose edge to an output [(p, k, m)] of
    an equation whose adjoint is still to be solved. *)
Theorem adj_Bs_spec (Js M : list variable) (blocks : Blocks)
    (prune_forward prune_adjoint : bool) (g : t)
    (keys : list (nat * Z * nat)) (J_i : nat)
    (n : Z) (i : nat) (eq : Equation)
    (pre post : list (Z * nat * Equation))
    (B0 B1 B : AdjointModelRHS.t)
    (os : list (outcome ((Z * nat) * AdjointEquationRHS.t))) :
  __init__ Js M blocks prune_forward prune_adjoint = Some g →
  J_i < length Js →
  AdjointModelRHS.__init__ blocks = Some B0 →
  tape blocks = pre ++ (n, i, eq) :: post →
  AdjointModelRHS.pops (S (length post)) B0 = (os, B1) →
  (∀ p k m, is_Some (AdjointModelRHS.__getitem___3 B p k m)
            ↔ is_Some (AdjointModelRHS.__getitem___3 B1 p k m)) →
  ∃ dep_Bs,
    adj_Bs (set_not_solved_calls g keys) J_i n i eq B = Some dep_Bs
    ∧ ∀ j rhs,
        dep_Bs !! j = Some rhs
        ↔ ∃ p k m,
            __getitem__ (set_not_solved_calls g keys) (n, i, j)
            = Some (p, k, m)
            ∧ is_solved (set_not_solved_calls g keys) J_i p k = Some true
            ∧ AdjointModelRHS.__getitem___3 B p k m = Some rhs.
Proof.
  intros Hinit HJ HB0 Htape Hpops Hshape.
  destruct (__init___fields _ _ _ _ _ _ Hinit) as (af & _ & Htd & _).
  destruct (set_not_solved_calls_fields g keys) as (_ & _ & Htd' & Hsolved).
  set (g' := set_not_solved_calls g keys) in *.
  pose proof (tape_sorted blocks) as Hsorted. rewrite Htape in Hsorted.
  destruct (tape_lt_split _ _ _ Hsorted) as [_ Hpost]. simpl in Hpost.
  rewrite Forall_forall in Hpost.
  assert (Heq : eq_at blocks n i = Some eq).
  { apply elem_of_tape. rewrite Htape. apply elem_of_app. right. left. }
  (* every edge of the equation leads to a right-hand side held by [B] *)
  assert (Hcover : ∀ j p k m,
            _transpose_deps g' !! (n, i, j) = Some (p, k, m) →
            j < length (dependencies eq)
            ∧ is_Some (is_solved g' J_i p k)
            ∧ is_Some (AdjointModelRHS.__getitem___3 B p k m)).
  { intros j p k m He. rewrite Htd', Htd in He.
    pose proof He as He'.
    apply transpose_edge_backwards in He' as (eq' & Heq' & Hj & Hearlier).
    assert (eq' = eq) as -> by congruence.
    split; [done|].
    apply build_transpose_deps_targets in He as (eqp & Hin & Hm).
    simpl in Hin, Hm. split.
    - apply Hsolved.
      destruct (is_active_defined_aux Js M blocks prune_forward
                  prune_adjoint g J_i p k Hinit) as [Hd _].
      apply Hd. split; [done|]. exists eqp. by apply elem_of_tape.
    - apply Hshape. destruct Hm as [x Hx].
      exists (AdjointRHS.__init__ x).
      apply (getitem_after_pops blocks B0 B1 pre ((n, i, eq) :: post) os
               p k m _ HB0 Htape Hpops).
      exists eqp, x. split; [|done].
      rewrite Htape in Hin. apply elem_of_app in Hin as [?|Hin]; [done|].
      apply elem_of_cons in Hin as [[= -> -> ->]|Hin].
      + by apply earlier_irrefl in Hearlier.
      + apply Hpost in Hin. by destruct (earlier_asym _ _ Hearlier). }
  unfold adj_Bs.
  match goal with |- ∃ d, foldM ?f ∅ _ = Some d ∧ _ => set (step := f) end.
  assert (Hfold : ∀ js, Forall (λ j, j < length (dependencies eq)) js →
    ∃ dep_Bs : gmap nat AdjointRHS.t,
      foldM step ∅ js = Some dep_Bs
      ∧ ∀ j rhs,
          dep_Bs !! j = Some rhs
          ↔ j ∈ js
            ∧ ∃ p k m,
                __getitem__ g' (n, i, j) = Some (p, k, m)
                ∧ is_solved g' J_i p k = Some true
                ∧ AdjointModelRHS.__getitem___3 B p k m = Some rhs).
  { induction js as [|j0 js IH] using rev_ind; intros Hjs.
    - exists ∅. split; [done|]. intros j rhs. rewrite lookup_empty.
      split; [done|]. intros [Hin _]. by apply elem_of_nil in Hin.
    - apply Forall_app in Hjs as [Hjs _].
      destruct (IH Hjs) as (acc & Hacc & Hspec).
      unfold __getitem__ in *.
      destruct (_transpose_deps g' !! (n, i, j0)) as [[[p k] m]|] eqn:He.
      + destruct (Hcover j0 p k m He) as (_ & [sv Hsv] & [rhs0 Hrhs0]).
        destruct sv.
        * exists (<[j0 := rhs0]> acc). split.
          { apply foldM_app_Some. exists acc. split; [done|].
            cbn [foldM]. unfold step, __contains__, __getitem__.
            rewrite He.
            rewrite bool_decide_eq_true_2 by eauto.
            rewrite Hsv. simpl.
            unfold AdjointModelRHS.__getitem___3 in Hrhs0.
            apply bind_Some in Hrhs0 as (block & Hb & Hrhs0).
            apply bind_Some in Hrhs0 as (e & Hk & Hm).
            rewrite Hb. simpl. rewrite Hk. simpl. by rewrite Hm. }
          intros j rhs. rewrite elem_of_app, list_elem_of_singleton.
          destruct (decide (j = j0)) as [->|Hne].
          -- rewrite lookup_insert_eq, He. split.
             ++ intros [= <-]. split; [by right|]. by exists p, k, m.
             ++ intros (_ & p' & k' & m' & [= <- <- <-] & _ & Hr).
                congruence.
          -- rewrite lookup_insert_ne by done. rewrite Hspec.
             split; intros [Hin Hex]; (split; [|done]); [by left|].
             by destruct Hin.
        * exists acc. split.
          { apply foldM_app_Some. exists acc. split; [done|].
            cbn [foldM]. unfold step, __contains__, __getitem__.
            rewrite He.
            rewrite bool_decide_eq_true_2 by eauto.
            by rewrite Hsv. }
          intros j rhs. rewrite elem_of_app, list_elem_of_singleton, Hspec.
          split; [intros [Hin Hex]; split; [by left|done]|].
          intros [[Hin| ->] Hex]; [done|].
          destruct Hex as (p' & k' & m' & He' & Hs' & _).
          rewrite He in He'. injection He' as <- <- <-. congruence.
      + exists acc. split.
        { apply foldM_app_Some. exists acc. split; [done|].
          cbn [foldM]. unfold step, __contains__, __getitem__.
          rewrite He.
          rewrite bool_decide_eq_false_2; [done|]. by intros [? ?]. }
        intros j rhs. rewrite elem_of_app, list_elem_of_singleton, Hspec.
        split; [intros [Hin Hex]; split; [by left|done]|].
        intros [[Hin| ->] Hex]; [done|].
        destruct Hex as (p' & k' & m' & He' & _). congruence. }
  destruct (Hfold (seq 0 (length (dependencies eq))))
    as (dep_Bs & Hres & Hspec).
  { apply Forall_forall. intros j Hj. apply elem_of_seq in Hj. lia. }
  exists dep_Bs. split; [done|]. intros j rhs. rewrite Hspec.
  split; [by intros [_ ?]|]. intros Hex. split; [|done].
  destruct Hex as (p & k & m & He & _).
  apply Hcover in He as (Hj & _). apply elem_of_seq. lia.
Qed.

End adj_Bs_facts.

(** ** Retrieving from the cache, and a cache without keys *)

Section cache_use_facts.
Context `{Backend}.
Import AdjointCache.

(** X12: retrieval.  For a cached key, [get] without copy returns the
    cached tuple itself, [get] with copy returns newly allocated variables
    holding the same contents and leaves the old objects alone; [pop]
    returns what [get] returns and removes that key only, as [remove]
    does, so the length drops by one.  For a key that is not cached, [get],
    [pop] and [remove] raise and change nothing. *)
Theorem AdjointCache_get_pop_remove (self : t) (k : nat * Z * nat)
    (h : store) :
  (∀ v, _cache self !! k = Some v → Forall (λ r, r < length h) v →
     get self k false h = (Return v, h)
     ∧ (∃ h', get self k true h = (Return (seq (length h) (length v)), h')
              ∧ (∀ r, r < length h → h' !! r = h !! r)
              ∧ ∀ i r, v !! i = Some r → h' !! (length h + i) = h !! r)
     ∧ ∃ self',
         remove self k = (Return tt, self')
         ∧ (∀ copy, pop self k copy h
                    = ((get self k copy h).1, self', (get self k copy h).2))
         ∧ __contains__ self' k = false
         ∧ (∀ k', k' ≠ k → _cache self' !! k' = _cache self !! k')
         ∧ _keys self' = _keys self ∧ _cache_key self' = _cache_key self
         ∧ __len__ self = S (__len__ self'))
  ∧ (_cache self !! k = None →
     remove self k = (Raise, self)
     ∧ ∀ copy, get self k copy h = (Raise, h)
               ∧ pop self k copy h = (Raise, self, h)).
Proof.
  split.
  - intros v Hv Hvalid.
    destruct (var_copy_all_spec v h Hvalid) as (h' & Hcopy & _ & Hold & Hnew).
    split; [|split].
    + unfold get. by rewrite Hv.
    + exists h'. unfold get. by rewrite Hv, Hcopy.
    + eexists. split; [unfold remove; by rewrite Hv|].
      split; [|split; [|split; [|split; [|split]]]]; simpl.
      * intros copy. unfold pop, get. rewrite Hv.
        destruct copy; [by rewrite Hcopy|done].
      * unfold __contains__. simpl. rewrite lookup_delete_eq.
        apply bool_decide_eq_false_2. by intros [? ?].
      * intros k' Hne. by apply lookup_delete_ne.
      * done.
      * done.
      * unfold __len__. simpl. rewrite map_size_delete, Hv. simpl.
        assert (size (_cache self) ≠ 0); [|lia].
        apply map_size_ne_0_lookup. by exists k, v.
  - intros Hv. unfold remove, get, pop. rewrite Hv. done.
Qed.

Lemma step_without_keys (c : call) (st : t * store) :
  _keys st.1 = ∅ → _cache_key st.1 = None →
  _keys (step c st).1 = ∅ ∧ _cache_key (step c st).1 = None
  ∧ ∀ k v, _cache (step c st).1 !! k = Some v → _cache st.1 !! k = Some v.
Proof.
  destruct st as [self h]. simpl. intros Hk Hkey.
  destruct c as [k adj_X copy store_|k copy|k copy|k|]; simpl.
  - unfold cache. by rewrite Hk, lookup_empty.
  - done.
  - unfold pop. destruct (_cache self !! k) as [adj_X|] eqn:Hc; [|done].
    assert (Hdel : ∀ k0 v, delete k (_cache self) !! k0 = Some v →
                           _cache self !! k0 = Some v).
    { intros k0 v Hl. apply lookup_delete_Some in Hl. tauto. }
    destruct copy; [|done].
    by destruct (var_copy_all adj_X h) as [[? ?]|].
  - unfold remove. destruct (_cache self !! k) as [adj_X|] eqn:Hc; [|done].
    simpl. split; [done|]. split; [done|].
    intros k0 v Hl. apply lookup_delete_Some in Hl. tauto.
  - split; [done|]. split; [done|]. intros k v Hl.
    by rewrite lookup_empty in Hl.
Qed.

Lemma run_without_keys (cs : list call) (st : t * store) :
  _keys st.1 = ∅ → _cache_key st.1 = None →
  _keys (run cs st).1 = ∅ ∧ _cache_key (run cs st).1 = None
  ∧ ∀ k v, _cache (run cs st).1 !! k = Some v → _cache st.1 !! k = Some v.
Proof.
  revert st. induction cs as [|c cs IH]; intros st Hk Hkey; [done|].
  simpl. destruct (step_without_keys c st Hk Hkey) as (Hk1 & Hkey1 & Hc1).
  destruct (IH (step c st) Hk1 Hkey1) as (Hk2 & Hkey2 & Hc2).
  split; [done|]. split; [done|]. intros k v Hl. by apply Hc1, Hc2.
Qed.

(** X13: a cache that is new or has been cleared stores nothing: whatever
    calls of [cache], [get], [pop], [remove] and [clear] follow, it stays
    as [clear] left it, of length zero, and [cache] never copies a
    variable.  Only [initialize] registers the keys that [cache] stores. *)
Theorem cleared_cache_is_inert (self : t) (cs : list call) (h : store) :
  run cs (clear self, h) = (__init__, h)
  ∧ __len__ (run cs (clear self, h)).1 = 0.
Proof.
  assert (Hrun : run cs (clear self, h) = (__init__, h)).
  { unfold clear, __init__. induction cs as [|c cs IH]; [done|].
    simpl. rewrite <- IH at 2. f_equal.
    destruct c as [k adj_X copy store_|k copy|k copy|k|]; simpl.
    - unfold cache. simpl. by rewrite lookup_empty.
    - unfold get. simpl. by rewrite lookup_empty.
    - unfold pop. simpl. by rewrite lookup_empty.
    - unfold remove. simpl. by rewrite lookup_empty.
    - done. }
  rewrite Hrun. split; [done|]. unfold __len__, __init__. simpl.
  apply map_size_empty.
Qed.

(** X14: [initialize] with a [cache_degree] of zero or less switches the
    cache off.  It registers no key and stores no cache key, and adds
    nothing to the cache; the calls that follow add nothing either; and the
    next [initialize], whatever its arguments, starts from an empty
    cache. *)
Theorem initialize_degree_not_positive
    (self self' self2 : t) (J_roots J_roots2 : list variable)
    (tlm_adj tlm_adj2 : gmap tlm_key (list (nat * tlm_key)))
    (blocks blocks2 : Blocks)
    (g g' g2 g2' : TransposeComputationalGraph.t)
    (d : Z) (cache_degree2 : option Z) (cs : list call) (h : store) :
  initialize self J_roots tlm_adj blocks g (Some d) = Some (self', g') →
  (d ≤ 0)%Z →
  initialize (run cs (self', h)).1 J_roots2 tlm_adj2 blocks2 g2 cache_degree2
  = Some (self2, g2') →
  _keys self' = ∅ ∧ _cache_key self' = None
  ∧ (∀ k v, _cache self' !! k = Some v → _cache self !! k = Some v)
  ∧ (∀ k v, _cache (run cs (self', h)).1 !! k = Some v →
            _cache self' !! k = Some v)
  ∧ _cache self2 = ∅.
Proof.
  intros Hinit Hd Hinit2.
  assert (Hself' : _keys self' = ∅ ∧ _cache_key self' = None
                   ∧ ∀ k v, _cache self' !! k = Some v →
                            _cache self !! k = Some v).
  { unfold initialize in Hinit.
    apply bind_Some in Hinit as (cache_key & _ & Hinit).
    rewrite bool_decide_eq_false_2 in Hinit by lia.
    apply bind_Some in Hinit as (self3 & [= <-] & Hinit).
    apply bind_Some in Hinit as (g1 & _ & Hinit).
    apply bind_Some in Hinit as (g3 & _ & [= <- <-]). simpl.
    split; [done|]. split; [done|].
    intros k v. case_decide; [done|]. simpl. by rewrite lookup_empty. }
  destruct Hself' as (Hk & Hkey & Hc).
  destruct (run_without_keys cs (self', h) Hk Hkey) as (Hk1 & Hkey1 & Hc1).
  repeat (split; [done|]).
  destruct (initialize_cache _ _ _ _ _ _ _ _ Hinit2)
    as (cache_key & _ & _ & Hclear & _).
  apply Hclear. by rewrite Hkey1.
Qed.

End cache_use_facts.

(** ** What a right-hand side accumulates *)

Section accumulation_facts.
Context `{Backend}.
Import AdjointRHS.

(** [sub] on an allocated right-hand side: the terms are subtracted in turn
    from the value of the internal variable, in place. *)
Lemma run_sub_allocated (ys : list term) (self : t) (h : store)
    (r : ref) (o : var_obj) (v : values) :
  _b self = Some r → h !! r = Some o →
  foldM subtract_values (obj_values o) ys = Some v →
  run ((λ y, Call_sub (Some y)) <$> ys) (self, h)
  = (self, <[r := {| obj_space := obj_space o;
                     obj_space_type := obj_space_type o;
                     obj_values := v |}]> h).
Proof.
  intros Hb. revert h o. induction ys as [|y ys IH]; intros h o Ho; simpl.
  - intros [= <-]. f_equal. symmetry. apply list_insert_id.
    by destruct o.
  - destruct (subtract_values (obj_values o) y) as [v1|] eqn:Hy; [|done].
    intros Hfold. unfold sub. rewrite (initialize_allocated _ _ _ Hb), Hb.
    unfold subtract_adjoint_derivative_action. rewrite Ho, Hy.
    rewrite (IH _ {| obj_space := obj_space o;
                     obj_space_type := obj_space_type o;
                     obj_values := v1 |});
      [|by rewrite list_lookup_insert_eq by (by eapply lookup_lt_Some)|done].
    simpl. by rewrite list_insert_insert_eq.
Qed.

(** X15: accumulation.  On a new right-hand side for [x], a first [sub]
    with a term allocates one variable at the next free address, in the
    space of [x] and of the conjugate dual type relative to [x]; if no
    subtraction raises, after the calls [sub(y)] for the terms of a list
    that variable holds zero minus the terms, in order, and nothing else in
    the store has changed. *)
Theorem AdjointRHS_sub_accumulates (x : variable) (h : store)
    (y : term) (ys : list term) (v : values) :
  foldM subtract_values (space_zero (var_space x)) (y :: ys) = Some v →
  run ((λ y, Call_sub (Some y)) <$> y :: ys) (__init__ x, h)
  = ({| _space := var_space x;
        _space_type := var_space_type x Conjugate_dual;
        _b := Some (length h) |},
     h ++ [ {| obj_space := var_space x;
               obj_space_type := var_space_type x Conjugate_dual;
               obj_values := v |} ]).
Proof.
  intros Hfold.
  set (self1 := {| _space := var_space x;
                   _space_type := var_space_type x Conjugate_dual;
                   _b := Some (length h) |}).
  set (o0 := {| obj_space := var_space x;
                obj_space_type := var_space_type x Conjugate_dual;
                obj_values := space_zero (var_space x) |}).
  assert (Hinit : run [Call_initialize] (__init__ x, h) = (self1, h ++ [o0]))
    by done.
  assert (Hsame : run ((λ y, Call_sub (Some y)) <$> y :: ys) (__init__ x, h)
                  = run ((λ y, Call_sub (Some y)) <$> y :: ys)
                        (self1, h ++ [o0])).
  { simpl. by f_equal. }
  rewrite Hsame.
  rewrite (run_sub_allocated (y :: ys) self1 (h ++ [o0]) (length h) o0 v);
    [|done|by rewrite lookup_app_r, Nat.sub_diag by lia|done].
  f_equal. simpl.
  rewrite insert_app_r_alt, Nat.sub_diag by lia. done.
Qed.

(** A call on an allocated right-hand side changes the store at its
    internal variable only, or extends the store. *)
Lemma step_other (c : call) (st : t * store) (r r' : ref) :
  _b st.1 = Some r → r < length st.2 → r' < length st.2 → r' ≠ r →
  (step c st).2 !! r' = st.2 !! r' ∧ length st.2 ≤ length (step c st).2.
Proof.
  destruct st as [self h]. simpl. intros Hb Hr Hr' Hne.
  destruct c as [|copy|[y|]|]; simpl.
  - by rewrite (initialize_allocated _ _ _ Hb).
  - unfold b. rewrite (initialize_allocated _ _ _ Hb), Hb.
    destruct copy; [|done]. unfold var_copy.
    destruct (lookup_lt_is_Some_2 h r Hr) as [o ->]. simpl.
    rewrite length_app. split; [by rewrite lookup_app_l|lia].
  - unfold sub. rewrite (initialize_allocated _ _ _ Hb), Hb.
    destruct (subtract_adjoint_derivative_action r y h) as [h2|] eqn:Hs;
      [|done].
    simpl. rewrite (subtract_length _ _ _ _ Hs). split; [|done].
    unfold subtract_adjoint_derivative_action in Hs.
    destruct (h !! r) as [o|]; [|done].
    destruct (subtract_values (obj_values o) y); [|done].
    injection Hs as <-. by apply list_lookup_insert_ne.
  - done.
  - done.
Qed.

(** X16: a copy is detached.  The variable [b(copy=True)] returns is a new
    object, different from the internal variable, and no later call on the
    right-hand side changes it; the variable [b(copy=False)] returns is the
    internal variable itself. *)
Theorem AdjointRHS_copy_is_detached (self self' : t) (h h' : store)
    (r' : ref) (cs : list call) :
  wf (self, h) →
  b true self h = (Return r', self', h') →
  length h ≤ r'
  ∧ (∃ r, _b self' = Some r ∧ r ≠ r'
          ∧ b false self' h' = (Return r, self', h'))
  ∧ (run cs (self', h')).2 !! r' = h' !! r'.
Proof.
  intros Hwf Hb. unfold b in Hb.
  destruct (initialize self h) as [self1 h1] eqn:Hinit.
  assert (Hi : ∃ r, _b self1 = Some r ∧ r < length h1
                    ∧ length h ≤ length h1).
  { unfold initialize in Hinit. destruct (_b self) as [r|] eqn:Hr.
    - injection Hinit as <- <-. exists r. split; [done|].
      split; [by apply Hwf|done].
    - injection Hinit as <- <-. simpl. exists (length h).
      split; [done|]. rewrite length_app. simpl. lia. }
  destruct Hi as (r & Hr & Hlt & Hle). rewrite Hr in Hb.
  unfold var_copy in Hb. destruct (lookup_lt_is_Some_2 h1 r Hlt) as [o Ho].
  rewrite Ho in Hb. simpl in Hb. injection Hb as <- <- <-.
  split; [done|]. split.
  { exists r. split; [done|]. split; [lia|].
    unfold b. by rewrite (initialize_allocated _ _ _ Hr), Hr. }
  assert (Hgen : ∀ st : t * store,
            _b st.1 = Some r → r < length st.2 → length h1 < length st.2 →
            (run cs st).2 !! length h1 = st.2 !! length h1).
  { induction cs as [|c cs IH]; intros st Hbst Hrst Hlen; [done|].
    simpl.
    destruct (step_other c st r (length h1) Hbst Hrst Hlen) as [Hsame Hgrow];
      [lia|].
    destruct (step_allocated c st r) as [Hb1 Hwf1]; [|done|].
    { intros r0 Hr0. rewrite Hbst in Hr0. by injection Hr0 as <-. }
    rewrite IH; [done|done|by apply Hwf1|lia]. }
  apply Hgen; simpl; [done|rewrite length_app; lia|].
  rewrite length_app. simpl. lia.
Qed.

End accumulation_facts.

(** ** The right-hand sides of an equation with several outputs *)

Section equation_rhs_facts.
Context `{Backend}.
Import AdjointEquationRHS.

(** [B] on new children allocates one variable per child, in order. *)
Lemma B_children_fresh (xs : list variable) (h : store) :
  B_children false (AdjointRHS.__init__ <$> xs) h
  = (Return (seq (length h) (length xs)),
     (λ '(r, x), {| AdjointRHS._space := var_space x;
                    AdjointRHS._space_type := var_space_type x Conjugate_dual;
                    AdjointRHS._b := Some r |})
       <$> enumerate_from (length h) xs,
     h ++ ((λ x, {| obj_space := var_space x;
                    obj_space_type := var_space_type x Conjugate_dual;
                    obj_values := space_zero (var_space x) |}) <$> xs)).
Proof.
  revert h. induction xs as [|x xs IH]; intros h; simpl.
  - by rewrite app_nil_r.
  - rewrite (IH (h ++ [_])). rewrite length_app, Nat.add_1_r. simpl.
    by rewrite <- app_assoc.
Qed.

(** [B] without copy on allocated children returns their variables and
    changes nothing. *)
Lemma B_children_allocated (xs : list variable) (s : nat) (h : store) :
  let bs := (λ '(r, x),
               {| AdjointRHS._space := var_space x;
                  AdjointRHS._space_type := var_space_type x Conjugate_dual;
                  AdjointRHS._b := Some r |}) <$> enumerate_from s xs in
  B_children false bs h = (Return (seq s (length xs)), bs, h).
Proof.
  revert s. induction xs as [|x xs IH]; intros s; simpl; [done|].
  simpl in IH. by rewrite IH.
Qed.

(** X17: [B(copy=False)] on a new [AdjointEquationRHS] allocates one
    zero-valued variable per output of the equation, in the order of the
    outputs and at consecutive new addresses, and returns them; output [m]
    then holds the variable at position [m]; a second call returns the same
    variables and changes nothing.  The object is empty before the call,
    and afterwards it is empty only if the equation has no output. *)
Theorem AdjointEquationRHS_B_allocates (eq : Equation) (h : store) :
  let zeros := (λ x, {| obj_space := var_space x;
                        obj_space_type := var_space_type x Conjugate_dual;
                        obj_values := space_zero (var_space x) |}) <$> X eq in
  let rs := seq (length h) (length (X eq)) in
  ∃ self',
    B false (__init__ eq) h = (Return rs, self', h ++ zeros)
    ∧ B false self' (h ++ zeros) = (Return rs, self', h ++ zeros)
    ∧ is_empty (__init__ eq) = true
    ∧ is_empty self' = bool_decide (length (X eq) = 0)
    ∧ ∀ m x, X eq !! m = Some x →
        ∃ c, __getitem__ self' m = Some c
             ∧ AdjointRHS._b c = Some (length h + m).
Proof.
  intros zeros rs. eexists. split; [|split; [|split; [|split]]].
  - unfold B, __init__. simpl. by rewrite B_children_fresh.
  - unfold B. simpl. by rewrite B_children_allocated.
  - unfold is_empty, __init__. simpl.
    induction (X eq) as [|x xs IH]; [done|]. simpl. exact IH.
  - unfold is_empty. simpl. destruct (X eq) as [|x xs]; [done|]. done.
  - intros m x Hx. unfold __getitem__. simpl.
    rewrite list_lookup_fmap.
    assert (Hl : enumerate_from (length h) (X eq) !! m
                 = Some (length h + m, x)).
    { clear -Hx. revert m Hx. generalize (length h).
      induction (X eq) as [|x0 xs IH]; intros s m Hx; [done|].
      destruct m as [|m]; simpl in *.
      - injection Hx as ->. by rewrite Nat.add_0_r.
      - rewrite (IH (S s) m Hx). f_equal. f_equal. lia. }
    rewrite Hl. simpl. by eexists.
Qed.

End equation_rhs_facts.

(** ** The keys [initialize] registers *)

Section sharing_facts.
Context `{Backend}.
Import AdjointCache.

Lemma collect_entry_collected (blocks : Blocks)
    (g : TransposeComputationalGraph.t) (J_root_ids : list Z)
    (tlm_adj : gmap tlm_key (list (nat * tlm_key)))
    (cache_degree : option Z) (n : Z) (i : nat) (eq : Equation)
    (cache : gmap (nat * Z * nat) (list ref))
    (eqs eqs' : gmap Z (list ((nat * Z * nat) * (Z * tlm_key))))
    (e : nat * tlm_key) :
  eq_at blocks n i = Some eq → is_marker eq = false →
  e ∈ default [] (tlm_adj !! default [] (_tlm_adjoint__tlm_key eq)) →
  (∀ rid l e', eqs !! rid = Some l → e' ∈ l →
               collected blocks J_root_ids tlm_adj rid e') →
  collect_entry g J_root_ids cache_degree n i
    (default (eq_id eq) (_tlm_adjoint__tlm_root_id eq)) cache eqs e
  = Some eqs' →
  ∀ rid l e', eqs' !! rid = Some l → e' ∈ l →
              collected blocks J_root_ids tlm_adj rid e'.
Proof.
  intros Heq Hmark He Hinv. destruct e as [J adj_tlm_key].
  unfold collect_entry. intros Hc.
  apply bind_Some in Hc as (sv & _ & Hc).
  destruct (sv || bool_decide (is_Some (cache !! (J, n, i))));
    [|by injection Hc as <-].
  destruct (degree_ok cache_degree adj_tlm_key); [|done].
  apply bind_Some in Hc as (r & Hr & [= <-]).
  intros rid l e'.
  destruct (decide
              (default (eq_id eq) (_tlm_adjoint__tlm_root_id eq) = rid))
    as [<-|Hne].
  - rewrite lookup_insert_eq. intros [= <-] Hin.
    apply elem_of_app in Hin as [Hin|Hin].
    + destruct (eqs !! default (eq_id eq) (_tlm_adjoint__tlm_root_id eq))
        as [l0|] eqn:Hl0; simpl in Hin; [|by apply elem_of_nil in Hin].
      by eapply Hinv.
    + apply list_elem_of_singleton in Hin as ->.
      exists eq. simpl. done.
  - rewrite lookup_insert_ne by done. apply Hinv.
Qed.

Lemma share_entry_aliases (blocks : Blocks)
    (g : TransposeComputationalGraph.t) (J_root_ids : list Z)
    (tlm_adj : gmap tlm_key (list (nat * tlm_key))) (rid : Z)
    (st st' : gmap (nat * Z * nat) (list ref)
              * gmap (nat * Z * nat) (list (nat * Z * nat))
              * gmap (Z * tlm_key) (nat * Z * nat))
    (e : (nat * Z * nat) * (Z * tlm_key)) :
  collected blocks J_root_ids tlm_adj rid e →
  aliases_share blocks J_root_ids tlm_adj st.1.2
  ∧ (∀ adj_key root, st.2 !! adj_key = Some root →
       collected blocks J_root_ids tlm_adj rid (root, adj_key)) →
  share_entry g st e = Some st' →
  aliases_share blocks J_root_ids tlm_adj st'.1.2
  ∧ (∀ adj_key root, st'.2 !! adj_key = Some root →
       collected blocks J_root_ids tlm_adj rid (root, adj_key)).
Proof.
  destruct st as [[cache keys] eq_root]. destruct e as [[[J p] k] adj_key].
  simpl. intros He [HK HR]. unfold share_entry. intros Hs.
  apply bind_Some in Hs as (sv & _ & Hs).
  destruct (sv || bool_decide (is_Some (cache !! (J, p, k)))); [|done].
  destruct (eq_root !! adj_key) as [root|] eqn:Hroot.
  - apply bind_Some in Hs as (aliases & Hal & Hs).
    assert (Hst' : st'.1.2 = <[root := aliases ++ [(J, p, k)]]> keys
                   ∧ st'.2 = eq_root).
    { destruct (cache !! (J, p, k)), (cache !! root);
        by injection Hs as <-. }
    destruct Hst' as [-> ->]. split; [|done].
    intros root' aliases' a.
    destruct (decide (root = root')) as [<-|Hne].
    + rewrite lookup_insert_eq. intros [= <-] Hin.
      apply elem_of_app in Hin as [Hin|Hin]; [by eapply HK|].
      apply list_elem_of_singleton in Hin as ->.
      exists rid, adj_key. split; [by apply HR|done].
    + rewrite lookup_insert_ne by done. apply HK.
  - injection Hs as <-. simpl. split.
    + intros root' aliases' a.
      destruct (decide ((J, p, k) = root')) as [<-|Hne].
      * rewrite lookup_insert_eq. intros [= <-] Hin.
        by apply elem_of_nil in Hin.
      * rewrite lookup_insert_ne by done. apply HK.
    + intros adj_key' root'.
      destruct (decide (adj_key = adj_key')) as [<-|Hne].
      * rewrite lookup_insert_eq. by intros [= <-].
      * rewrite lookup_insert_ne by done. apply HR.
Qed.

Lemma sharing_step_aliases (blocks : Blocks)
    (g : TransposeComputationalGraph.t) (J_root_ids : list Z)
    (tlm_adj : gmap tlm_key (list (nat * tlm_key)))
    (cache_degree : option Z)
    (st st' : gmap (nat * Z * nat) (list ref)
              * gmap (nat * Z * nat) (list (nat * Z * nat))
              * gmap Z (list ((nat * Z * nat) * (Z * tlm_key))))
    (n : Z) (i : nat) (eq : Equation) :
  eq_at blocks n i = Some eq →
  aliases_share blocks J_root_ids tlm_adj st.1.2
  ∧ (∀ rid l e, st.2 !! rid = Some l → e ∈ l →
                collected blocks J_root_ids tlm_adj rid e) →
  sharing_step g J_root_ids tlm_adj cache_degree st (n, i, eq) = Some st' →
  aliases_share blocks J_root_ids tlm_adj st'.1.2
  ∧ (∀ rid l e, st'.2 !! rid = Some l → e ∈ l →
                collected blocks J_root_ids tlm_adj rid e).
Proof.
  destruct st as [[cache keys] eqs]. simpl. intros Heq [HK HE].
  unfold sharing_step.
  destruct (is_marker eq) eqn:Hmark; [by intros [= <-]|].
  intros Hs. apply bind_Some in Hs as (eqs1 & Hcollect & Hs).
  apply bind_Some in Hs as ([[cache' keys'] eq_root] & Hshare & [= <-]).
  simpl.
  assert (HE1 : ∀ rid l e, eqs1 !! rid = Some l → e ∈ l →
                           collected blocks J_root_ids tlm_adj rid e).
  { apply (foldM_invariant
             (λ eqs0 : gmap Z (list ((nat * Z * nat) * (Z * tlm_key))),
                ∀ rid l e, eqs0 !! rid = Some l → e ∈ l →
                           collected blocks J_root_ids tlm_adj rid e)
             (collect_entry g J_root_ids cache_degree n i
                (default (eq_id eq) (_tlm_adjoint__tlm_root_id eq)) cache)
             (default [] (tlm_adj !! default [] (_tlm_adjoint__tlm_key eq)))
             eqs eqs1); [exact HE| |exact Hcollect].
    intros eqs0 e eqs0' Hin Hinv Hc.
    by eapply collect_entry_collected. }
  split.
  - assert (Hres :
      aliases_share blocks J_root_ids tlm_adj (cache', keys', eq_root).1.2
      ∧ (∀ adj_key root, (cache', keys', eq_root).2 !! adj_key = Some root →
           collected blocks J_root_ids tlm_adj (eq_id eq) (root, adj_key))).
    { apply (foldM_invariant
               (λ st0 : gmap (nat * Z * nat) (list ref)
                        * gmap (nat * Z * nat) (list (nat * Z * nat))
                        * gmap (Z * tlm_key) (nat * Z * nat),
                  aliases_share blocks J_root_ids tlm_adj st0.1.2
                  ∧ (∀ adj_key root, st0.2 !! adj_key = Some root →
                       collected blocks J_root_ids tlm_adj (eq_id eq)
                         (root, adj_key)))
               (share_entry g) (default [] (eqs1 !! eq_id eq))
               (cache, keys, ∅) (cache', keys', eq_root));
        [| |exact Hshare].
      - simpl. split; [done|]. intros adj_key root Hl.
        by rewrite lookup_empty in Hl.
      - intros st0 e st0' Hin Hinv Hs.
        apply (share_entry_aliases blocks g J_root_ids tlm_adj (eq_id eq)
                 st0 st0' e); [|done|done].
        destruct (eqs1 !! eq_id eq) as [l|] eqn:Hl; simpl in Hin;
          [|by apply elem_of_nil in Hin].
        by eapply HE1. }
    apply Hres.
  - intros rid l e Hl. apply lookup_delete_Some in Hl as [_ Hl].
    by eapply HE1.
Qed.

(** X19: the aliases [initialize] registers share the derivative of their
    root.  When [initialize] returns with [a] among the aliases of a root
    key, the equations at the two positions are not markers and have the
    same root equation id, [tlm_adj] lists one and the same adjoint
    derivative key for the functional index of the root at its equation and
    for that of the alias at its equation, and the two functionals have the
    same root id: the two adjoint variables hold the same derivative. *)
Theorem initialize_aliases_share_derivative
    (self self' : t) (J_roots : list variable)
    (tlm_adj : gmap tlm_key (list (nat * tlm_key))) (blocks : Blocks)
    (g g' : TransposeComputationalGraph.t) (cache_degree : option Z)
    (J_r : nat) (n_r : Z) (i_r : nat) (aliases : list (nat * Z * nat))
    (J_a : nat) (n_a : Z) (i_a : nat) :
  initialize self J_roots tlm_adj blocks g cache_degree = Some (self', g') →
  _keys self' !! (J_r, n_r, i_r) = Some aliases →
  (J_a, n_a, i_a) ∈ aliases →
  ∃ eq_r eq_a adj_tlm_key J_root,
    eq_at blocks n_r i_r = Some eq_r ∧ eq_at blocks n_a i_a = Some eq_a
    ∧ is_marker eq_r = false ∧ is_marker eq_a = false
    ∧ default (eq_id eq_r) (_tlm_adjoint__tlm_root_id eq_r)
      = default (eq_id eq_a) (_tlm_adjoint__tlm_root_id eq_a)
    ∧ (J_r, adj_tlm_key)
        ∈ default [] (tlm_adj !! default [] (_tlm_adjoint__tlm_key eq_r))
    ∧ (J_a, adj_tlm_key)
        ∈ default [] (tlm_adj !! default [] (_tlm_adjoint__tlm_key eq_a))
    ∧ (J_root_id <$> J_roots) !! J_r = Some J_root
    ∧ (J_root_id <$> J_roots) !! J_a = Some J_root.
Proof.
  intros Hinit Hroot Ha.
  assert (HK : aliases_share blocks (J_root_id <$> J_roots) tlm_adj
                 (_keys self')).
  { unfold initialize in Hinit.
    apply bind_Some in Hinit as (cache_key & _ & Hinit).
    apply bind_Some in Hinit as (self3 & Hself3 & Hinit).
    apply bind_Some in Hinit as (g1 & _ & Hinit).
    apply bind_Some in Hinit as (g2 & _ & [= <- <-]).
    destruct (match cache_degree with
              | Some d => bool_decide (0 < d)%Z
              | None => true
              end).
    - apply bind_Some in Hself3 as ([[cache keys] eqs] & Hfold & Hself3).
      destruct (bool_decide (size eqs = 0)); [|done].
      injection Hself3 as <-. simpl.
      apply (foldM_invariant
               (λ st0 : gmap (nat * Z * nat) (list ref)
                        * gmap (nat * Z * nat) (list (nat * Z * nat))
                        * gmap Z (list ((nat * Z * nat) * (Z * tlm_key))),
                  aliases_share blocks (J_root_id <$> J_roots) tlm_adj
                    st0.1.2
                  ∧ (∀ rid l e, st0.2 !! rid = Some l → e ∈ l →
                       collected blocks (J_root_id <$> J_roots) tlm_adj
                         rid e))
               _ _ _ (cache, keys, eqs)) in Hfold; [apply Hfold| |].
      + simpl. split.
        * intros root al a Hl. by rewrite lookup_empty in Hl.
        * intros rid l e Hl. by rewrite lookup_empty in Hl.
      + intros st0 [[n i] eq] st0' Hin Hinv Hs.
        rewrite elem_of_reverse in Hin. apply elem_of_tape in Hin.
        by eapply sharing_step_aliases.
    - injection Hself3 as <-. simpl.
      intros root al a Hl. by rewrite lookup_empty in Hl. }
  destruct (HK _ _ _ Hroot Ha) as (rid & [J_root adj_tlm_key] & Hr & Hal).
  destruct Hr as (eq_r & Hr1 & Hr2 & Hr3 & Hr4 & Hr5).
  destruct Hal as (eq_a & Ha1 & Ha2 & Ha3 & Ha4 & Ha5).
  simpl in *. exists eq_r, eq_a, adj_tlm_key, J_root.
  repeat (split; [done|]). split; [congruence|done].
Qed.

Lemma share_entry_available (g : TransposeComputationalGraph.t)
    (st st' : gmap (nat * Z * nat) (list ref)
              * gmap (nat * Z * nat) (list (nat * Z * nat))
              * gmap (Z * tlm_key) (nat * Z * nat))
    (e : (nat * Z * nat) * (Z * tlm_key)) :
  (∀ root aliases a, st.1.2 !! root = Some aliases → a ∈ root :: aliases →
     TransposeComputationalGraph.is_solved g a.1.1 a.1.2 a.2 = Some true
     ∨ is_Some (st.1.1 !! a)) →
  share_entry g st e = Some st' →
  ∀ root aliases a, st'.1.2 !! root = Some aliases → a ∈ root :: aliases →
    TransposeComputationalGraph.is_solved g a.1.1 a.1.2 a.2 = Some true
    ∨ is_Some (st'.1.1 !! a).
Proof.
  intros Hinv Hs.
  destruct (share_entry_cache g st st' e Hs) as [Hmono _].
  assert (Hold : ∀ a,
            TransposeComputationalGraph.is_solved g a.1.1 a.1.2 a.2
            = Some true ∨ is_Some (st.1.1 !! a) →
            TransposeComputationalGraph.is_solved g a.1.1 a.1.2 a.2
            = Some true ∨ is_Some (st'.1.1 !! a)).
  { intros a [?|[v Hv]]; [by left|right]. exists v. by apply Hmono. }
  destruct st as [[cache keys] eq_root]. destruct e as [[[J p] k] adj_key].
  simpl in *. unfold share_entry in Hs.
  apply bind_Some in Hs as (sv & Hsv & Hs).
  destruct (sv || bool_decide (is_Some (cache !! (J, p, k)))) eqn:Hcheck;
    [|done].
  assert (Hnew : TransposeComputationalGraph.is_solved g J p k = Some true
                 ∨ is_Some (st'.1.1 !! (J, p, k))).
  { apply (Hold (J, p, k)). simpl.
    apply orb_true_iff in Hcheck as [->|Hc]; [by left|right].
    by apply bool_decide_eq_true in Hc. }
  destruct (eq_root !! adj_key) as [root|] eqn:Hroot.
  - apply bind_Some in Hs as (aliases & Hal & Hs).
    assert (Hst' : st'.1.2 = <[root := aliases ++ [(J, p, k)]]> keys).
    { destruct (cache !! (J, p, k)), (cache !! root);
        by injection Hs as <-. }
    rewrite Hst'. intros root' aliases' a.
    destruct (decide (root = root')) as [<-|Hne].
    + rewrite lookup_insert_eq. intros [= <-] Hin.
      rewrite app_comm_cons in Hin. apply elem_of_app in Hin as [Hin|Hin].
      * apply Hold. by eapply Hinv.
      * by apply list_elem_of_singleton in Hin as ->.
    + rewrite lookup_insert_ne by done. intros Hl Hin.
      apply Hold. by eapply Hinv.
  - injection Hs as <-. simpl in *. intros root' aliases' a.
    destruct (decide ((J, p, k) = root')) as [<-|Hne].
    + rewrite lookup_insert_eq. intros [= <-] Hin.
      by apply list_elem_of_singleton in Hin as ->.
    + rewrite lookup_insert_ne by done. intros Hl Hin. by eapply Hinv.
Qed.

(** X20: the keys [initialize] registers are available.  When
    [initialize] returns, every root key and every alias it has registered
    names an adjoint variable that was still to be solved when
    [initialize] was called, or that is in the cache. *)
Theorem initialize_keys_available
    (self self' : t) (J_roots : list variable)
    (tlm_adj : gmap tlm_key (list (nat * tlm_key))) (blocks : Blocks)
    (g g' : TransposeComputationalGraph.t) (cache_degree : option Z)
    (root : nat * Z * nat) (aliases : list (nat * Z * nat))
    (J_i : nat) (n : Z) (i : nat) :
  initialize self J_roots tlm_adj blocks g cache_degree = Some (self', g') →
  _keys self' !! root = Some aliases →
  (J_i, n, i) ∈ root :: aliases →
  TransposeComputationalGraph.is_solved g J_i n i = Some true
  ∨ __contains__ self' (J_i, n, i) = true.
Proof.
  intros Hinit Hroot Ha.
  assert (HK : ∀ root aliases a,
            _keys self' !! root = Some aliases → a ∈ root :: aliases →
            TransposeComputationalGraph.is_solved g a.1.1 a.1.2 a.2
            = Some true
            ∨ is_Some (_cache self' !! a)).
  { unfold initialize in Hinit.
    apply bind_Some in Hinit as (cache_key & _ & Hinit).
    apply bind_Some in Hinit as (self3 & Hself3 & Hinit).
    apply bind_Some in Hinit as (g1 & _ & Hinit).
    apply bind_Some in Hinit as (g2 & _ & [= <- <-]).
    destruct (match cache_degree with
              | Some d => bool_decide (0 < d)%Z
              | None => true
              end).
    - apply bind_Some in Hself3 as ([[cache keys] eqs] & Hfold & Hself3).
      destruct (bool_decide (size eqs = 0)); [|done].
      injection Hself3 as <-. simpl.
      match type of Hfold with
      | foldM ?f ?s0 ?l = _ =>
          apply (foldM_invariant
                   (λ st0 : gmap (nat * Z * nat) (list ref)
                            * gmap (nat * Z * nat) (list (nat * Z * nat))
                            * gmap Z (list ((nat * Z * nat)
                                            * (Z * tlm_key))),
                      ∀ root aliases a,
                        st0.1.2 !! root = Some aliases →
                        a ∈ root :: aliases →
                        TransposeComputationalGraph.is_solved g
                          a.1.1 a.1.2 a.2 = Some true
                        ∨ is_Some (st0.1.1 !! a))
                   f l s0 (cache, keys, eqs)); [| |exact Hfold]
      end.
      + simpl. intros r al a Hl. by rewrite lookup_empty in Hl.
      + intros [[cache0 keys0] eqs0] [[q l] eq] st0' _ Hinv Hs.
        unfold sharing_step in Hs.
        destruct (is_marker eq); [by injection Hs as <-|].
        apply bind_Some in Hs as (eqs1 & _ & Hs).
        apply bind_Some in Hs as ([[cache' keys'] eq_root] & Hshare & [= <-]).
        simpl in *.
        match type of Hshare with
        | foldM ?f ?s0 ?l = _ =>
            apply (foldM_invariant
                     (λ st1 : gmap (nat * Z * nat) (list ref)
                              * gmap (nat * Z * nat) (list (nat * Z * nat))
                              * gmap (Z * tlm_key) (nat * Z * nat),
                        ∀ root aliases a,
                          st1.1.2 !! root = Some aliases →
                          a ∈ root :: aliases →
                          TransposeComputationalGraph.is_solved g
                            a.1.1 a.1.2 a.2 = Some true
                          ∨ is_Some (st1.1.1 !! a))
                     f l s0 (cache', keys', eq_root));
              [exact Hinv| |exact Hshare]
        end.
        intros st1 e st1' _ Hinv1 Hs1. by eapply share_entry_available.
    - injection Hself3 as <-. simpl.
      intros r al a Hl. by rewrite lookup_empty in Hl. }
  destruct (HK _ _ _ Hroot Ha) as [?|Hc]; [by left|right].
  unfold __contains__. by apply bool_decide_eq_true_2.
Qed.

End sharing_facts.

Lemma instructions_are_active_witness :
  TransposeComputationalGraph.is_active Examples.graph 0 1 1 = Some true.
Proof.
  apply (instructions_are_active
           [Examples.var 5] [Examples.var 1] Examples.graph_blocks true true
           Examples.graph 0 1 1
           (Examples.equation Instruction 103 [] [] []));
    [reflexivity|simpl; lia|reflexivity|reflexivity].
Defined.

Lemma adjoint_pruning_sound_witness :
  TransposeComputationalGraph.adjoint_reachable Examples.graph_blocks
    (Examples.var 5)
    (TransposeComputationalGraph._transpose_deps Examples.graph) 1 0.
Proof.
  apply (adjoint_pruning_sound
           [Examples.var 5] [Examples.var 1] Examples.graph_blocks true
           Examples.graph 0 (Examples.var 5) 1 0
           (Examples.equation Plain 102 [2] [2; 3] [2])%Z);
    [reflexivity|reflexivity|reflexivity|reflexivity|].
  vm_compute. reflexivity.
Defined.

Lemma adjoint_pruning_exact_witness :
  TransposeComputationalGraph.is_active Examples.graph 0 0 0 = Some true
  ↔ TransposeComputationalGraph.is_active Examples.graph_forward 0 0 0
    = Some true
    ∧ (is_Instruction (Examples.equation Plain 100 [1] [1] [])%Z = true
       ∨ TransposeComputationalGraph.adjoint_reachable Examples.graph_blocks
           (Examples.var 5)
           (TransposeComputationalGraph._transpose_deps Examples.graph) 0 0).
Proof.
  apply (adjoint_pruning_exact
           [Examples.var 5] [Examples.var 1] Examples.graph_blocks true
           Examples.graph Examples.graph_forward 0 (Examples.var 5) 0 0
           (Examples.equation Plain 100 [1] [1] [])%Z);
    reflexivity.
Defined.

Lemma forward_pruning_exact_witness :
  TransposeComputationalGraph.is_active Examples.graph_forward 0 1 0
  = Some true
  ↔ TransposeComputationalGraph.forward_active Examples.graph_blocks
      [Examples.var 1] Examples.graph_edges 1 0.
Proof.
  apply (forward_pruning_exact
           [Examples.var 5] [Examples.var 1] Examples.graph_blocks
           Examples.graph_forward Examples.graph_edges 0 1 0);
    [reflexivity|reflexivity|simpl; lia].
Defined.

Lemma any_is_active_iff_witness :
  ∃ b, TransposeComputationalGraph.any_is_active Examples.graph 1 2 = Some b
       ∧ (b = true
          ↔ ∃ J_i, TransposeComputationalGraph.is_active Examples.graph J_i 1 2
                   = Some true).
Proof.
  apply (any_is_active_iff
           [Examples.var 5] [Examples.var 1] Examples.graph_blocks true true
           Examples.graph 1 2 (Examples.equation Plain 104 [5] [5; 2] [])%Z);
    reflexivity.
Defined.

Lemma is_active_defined_witness :
  (is_Some (TransposeComputationalGraph.is_active Examples.graph 0 1 2)
   ↔ 0 < length [Examples.var 5]
     ∧ is_Some (eq_at Examples.graph_blocks 1 2))
  ∧ TransposeComputationalGraph.is_solved Examples.graph 0 1 2
    = TransposeComputationalGraph.is_active Examples.graph 0 1 2.
Proof.
  apply (is_active_defined
           [Examples.var 5] [Examples.var 1] Examples.graph_blocks true true
           Examples.graph 0 1 2).
  reflexivity.
Defined.

Lemma has_adj_ic_iff_witness :
  ∃ b, TransposeComputationalGraph.has_adj_ic
         (TransposeComputationalGraph.set_not_solved_calls Examples.graph
            [(0, 0%Z, 1)]) 0 2 = Some b
       ∧ (b = true
          ↔ ∃ n i eq,
              eq_at Examples.graph_blocks n i = Some eq
              ∧ TransposeComputationalGraph.produces eq 2
              ∧ (∀ q l e, eq_at Examples.graph_blocks q l = Some e →
                          TransposeComputationalGraph.earlier (n, i) (q, l) →
                          ¬ TransposeComputationalGraph.produces e 2)
              ∧ 2%Z ∈ var_id <$> adjoint_initial_condition_dependencies eq
              ∧ TransposeComputationalGraph.is_solved
                  (TransposeComputationalGraph.set_not_solved_calls
                     Examples.graph [(0, 0%Z, 1)]) 0 n i = Some true).
Proof.
  apply (has_adj_ic_iff
           [Examples.var 5] [Examples.var 1] Examples.graph_blocks true true
           Examples.graph [(0, 0%Z, 1)] 0 2);
    [reflexivity|simpl; lia].
Defined.

Lemma AdjointModelRHS_pop_order_witness :
  ∃ self',
    AdjointModelRHS.pops (length (tape Examples.model_blocks))
      Examples.model_init
    = ((λ '(n, i, eq), Return ((n, i), AdjointEquationRHS.__init__ eq))
         <$> reverse (tape Examples.model_blocks), self')
    ∧ AdjointModelRHS.is_empty self' = true
    ∧ AdjointModelRHS.pop self' = (Raise, self').
Proof.
  apply (AdjointModelRHS_pop_order Examples.model_blocks
           Examples.model_init).
  reflexivity.
Defined.

Lemma AdjointModelRHS_getitem_after_pops_witness :
  AdjointModelRHS.__getitem___3 Examples.model_after_pop 1 0 0
  = Some (AdjointRHS.__init__ (Examples.var 2))
  ↔ ∃ eq x,
      (1%Z, 0, eq) ∈ Examples.model_kept
      ∧ X eq !! 0 = Some x
      ∧ AdjointRHS.__init__ (Examples.var 2) = AdjointRHS.__init__ x.
Proof.
  apply (AdjointModelRHS_getitem_after_pops Examples.model_blocks
           Examples.model_init Examples.model_after_pop
           Examples.model_kept Examples.model_popped
           [(AdjointModelRHS.pop Examples.model_init).1]);
    reflexivity.
Defined.

Lemma adj_Bs_spec_witness :
  ∃ dep_Bs,
    TransposeComputationalGraph.adj_Bs
      (TransposeComputationalGraph.set_not_solved_calls Examples.graph [])
      0 1 2 (Examples.equation Plain 104 [5] [5; 2] [])%Z
      Examples.graph_model_popped = Some dep_Bs
    ∧ ∀ j rhs,
        dep_Bs !! j = Some rhs
        ↔ ∃ p k m,
            TransposeComputationalGraph.__getitem__
              (TransposeComputationalGraph.set_not_solved_calls
                 Examples.graph []) (1%Z, 2, j) = Some (p, k, m)
            ∧ TransposeComputationalGraph.is_solved
                (TransposeComputationalGraph.set_not_solved_calls
                   Examples.graph []) 0 p k = Some true
            ∧ AdjointModelRHS.__getitem___3 Examples.graph_model_popped
                p k m = Some rhs.
Proof.
  apply (adj_Bs_spec [Examples.var 5] [Examples.var 1] Examples.graph_blocks
           true true Examples.graph [] 0 1 2
           (Examples.equation Plain 104 [5] [5; 2] [])%Z
           (removelast (tape Examples.graph_blocks)) []
           Examples.graph_model Examples.graph_model_popped
           Examples.graph_model_popped
           [(AdjointModelRHS.pop Examples.graph_model).1]);
    [reflexivity|simpl; lia|reflexivity|reflexivity|reflexivity|done].
Defined.

Lemma initialize_degree_not_positive_witness :
  AdjointCache._keys Examples.degree_zero_result.1 = ∅
  ∧ AdjointCache._cache_key Examples.degree_zero_result.1 = None
  ∧ (∀ k v, AdjointCache._cache Examples.degree_zero_result.1 !! k = Some v →
            AdjointCache._cache Examples.swap_between.1 !! k = Some v)
  ∧ (∀ k v,
       AdjointCache._cache
         (@AdjointCache.run Examples.Z_backend []
            (Examples.degree_zero_result.1, Examples.one_variable)).1 !! k
       = Some v →
       AdjointCache._cache Examples.degree_zero_result.1 !! k = Some v)
  ∧ AdjointCache._cache Examples.degree_zero_next.1 = ∅.
Proof.
  apply (@initialize_degree_not_positive Examples.Z_backend
           Examples.swap_between.1 Examples.degree_zero_result.1
           Examples.degree_zero_next.1
           [Examples.var 10; Examples.var 20]
           [Examples.var 10; Examples.var 20]
           Examples.swap_tlm_adj Examples.swap_tlm_adj
           Examples.swap_blocks Examples.swap_blocks
           Examples.swap_graph_1 Examples.degree_zero_result.2
           Examples.swap_graph_1 Examples.degree_zero_next.2
           0 None [] Examples.one_variable);
    [reflexivity|lia|reflexivity].
Defined.

Lemma AdjointRHS_sub_accumulates_witness :
  @AdjointRHS.run Examples.Z_backend
    ((λ y, AdjointRHS.Call_sub (Some y)) <$> [3; 4]%Z)
    (AdjointRHS.__init__ (Examples.var 1), Examples.one_variable)
  = ({| AdjointRHS._space := 0;
        AdjointRHS._space_type := Conjugate_dual;
        AdjointRHS._b := Some 1 |},
     Examples.one_variable
       ++ [ @Build_var_obj Examples.Z_backend 0 Conjugate_dual (-7)%Z ]).
Proof.
  apply (@AdjointRHS_sub_accumulates Examples.Z_backend (Examples.var 1)
           Examples.one_variable 3%Z [4%Z] (-7)%Z).
  reflexivity.
Defined.

Lemma AdjointRHS_copy_is_detached_witness :
  length Examples.one_variable ≤ 2
  ∧ (∃ r, AdjointRHS._b Examples.copied_rhs = Some r ∧ r ≠ 2
          ∧ @AdjointRHS.b Examples.Z_backend false Examples.copied_rhs
              Examples.copied_store
            = (Return r, Examples.copied_rhs, Examples.copied_store))
  ∧ (@AdjointRHS.run Examples.Z_backend
       [@AdjointRHS.Call_sub Examples.Z_backend (Some 5%Z)]
       (Examples.copied_rhs, Examples.copied_store)).2 !! 2
    = Examples.copied_store !! 2.
Proof.
  apply (@AdjointRHS_copy_is_detached Examples.Z_backend
           (AdjointRHS.__init__ (Examples.var 1)) Examples.copied_rhs
           Examples.one_variable Examples.copied_store 2
           [@AdjointRHS.Call_sub Examples.Z_backend (Some 5%Z)]).
  - intros r Hr. discriminate Hr.
  - reflexivity.
Defined.

Lemma is_stored_adj_ic_iff_witness :
  ∃ b,
    TransposeComputationalGraph.is_stored_adj_ic
      (TransposeComputationalGraph.set_not_solved_calls Examples.graph_forward [])
      0 1 0 0 = Some b
    ∧ (b = true
       ↔ ∃ p k eqp,
           eq_at Examples.graph_blocks p k = Some eqp
           ∧ TransposeComputationalGraph.earlier (p, k) (1%Z, 0)
           ∧ TransposeComputationalGraph.produces eqp
               (var_id (Examples.var 2))
           ∧ (∀ q l e, eq_at Examples.graph_blocks q l = Some e →
                       TransposeComputationalGraph.earlier (p, k) (q, l) →
                       TransposeComputationalGraph.earlier (q, l) (1%Z, 0) →
                       ¬ TransposeComputationalGraph.produces e
                           (var_id (Examples.var 2)))
           ∧ var_id (Examples.var 2)
               ∈ var_id <$> adjoint_initial_condition_dependencies eqp
           ∧ TransposeComputationalGraph.last_output_type eqp
               (var_id (Examples.var 2))
             = Some (var_space_type (Examples.var 2)
                       (adj_X_type
                          (Examples.equation Plain 102 [2] [2; 3] [2])%Z 0))
           ∧ TransposeComputationalGraph.is_solved
               (TransposeComputationalGraph.set_not_solved_calls
                  Examples.graph_forward []) 0 p k = Some true).
Proof.
  apply (is_stored_adj_ic_iff
           [Examples.var 5] [Examples.var 1] Examples.graph_blocks true false
           Examples.graph_forward [] 0 1 0
           (Examples.equation Plain 102 [2] [2; 3] [2])%Z 0 (Examples.var 2));
    [reflexivity|simpl; lia|reflexivity| |reflexivity].
  simpl. apply NoDup_singleton.
Defined.

Lemma initialize_aliases_share_derivative_witness :
  ∃ eq_r eq_a adj_tlm_key J_root,
    eq_at Examples.sharing_blocks 0 1 = Some eq_r
    ∧ eq_at Examples.sharing_blocks 0 0 = Some eq_a
    ∧ is_marker eq_r = false ∧ is_marker eq_a = false
    ∧ default (eq_id eq_r) (_tlm_adjoint__tlm_root_id eq_r)
      = default (eq_id eq_a) (_tlm_adjoint__tlm_root_id eq_a)
    ∧ (1, adj_tlm_key)
        ∈ default [] (Examples.sharing_tlm_adj
                        !! default [] (_tlm_adjoint__tlm_key eq_r))
    ∧ (0, adj_tlm_key)
        ∈ default [] (Examples.sharing_tlm_adj
                        !! default [] (_tlm_adjoint__tlm_key eq_a))
    ∧ (AdjointCache.J_root_id <$> Examples.sharing_J_roots) !! 1
      = Some J_root
    ∧ (AdjointCache.J_root_id <$> Examples.sharing_J_roots) !! 0
      = Some J_root.
Proof.
  apply (initialize_aliases_share_derivative
           AdjointCache.__init__ Examples.sharing_result.1
           Examples.sharing_J_roots Examples.sharing_tlm_adj
           Examples.sharing_blocks Examples.sharing_graph
           Examples.sharing_result.2 None
           1 0%Z 1 [(0, 0%Z, 0)] 0 0%Z 0).
  - vm_compute. reflexivity.
  - vm_compute. reflexivity.
  - by left.
Defined.

Lemma initialize_keys_available_witness :
  TransposeComputationalGraph.is_solved Examples.sharing_graph 0 0 0
  = Some true
  ∨ AdjointCache.__contains__ Examples.sharing_result.1 (0, 0%Z, 0) = true.
Proof.
  apply (initialize_keys_available
           AdjointCache.__init__ Examples.sharing_result.1
           Examples.sharing_J_roots Examples.sharing_tlm_adj
           Examples.sharing_blocks Examples.sharing_graph
           Examples.sharing_result.2 None
           (1, 0%Z, 1) [(0, 0%Z, 0)] 0 0%Z 0).
  - vm_compute. reflexivity.
  - vm_compute. reflexivity.
  - right. by left.
Defined.
